(** * Stylometric attribution pipeline of [ultimullll/second.py]

    A shallow embedding of the bigram model, the log-likelihood-ratio scorer,
    the sliding-window scan, the per-word aggregation and the run-length
    segmentation, followed by the properties the specification states
    about them.

    Modelling conventions.
    - Python [float] values are read in two ways.  The first part of the
      file reads them as the real numbers of the Standard Library, which
      is exact arithmetic: rounding, overflow to [inf] and underflow to
      [0.0] are outside that reading, and what remains of float behaviour
      is what Python raises: [x / y] raises [ZeroDivisionError] when [y]
      is zero and [math.log(x, 2)] raises [ValueError] when [x] is not
      positive.  The module [Binary64] gives the numeric functions again
      on IEEE 754 binary64 values, with the rounding, the overflow and the
      underflow of the program; a statement that holds only of the first
      reading says so.
    - Python [int] values are [Z]; occurrence counts held by a [Counter] are
      [nat].
    - A [Counter] is a finite map to counts whose lookup of a missing key
      gives 0 and stores nothing; a [set] of tokens is a [gset string].
    - A function that can raise returns [result]. *)

From Stdlib Require Import Reals Lra Lia ZArith Ascii String.
From Stdlib Require Import Floats.SpecFloat.
From stdpp Require Import base option list strings gmap sets sorting.

Local Open Scope Z_scope.

(** ** Exceptions and results *)

Inductive PyError : Type :=
  | ZeroDivisionError
  | ValueError
  | IndexError
  | KeyError
  | OverflowError.

Inductive result (A : Type) : Type :=
  | Ok (a : A)
  | Raise (e : PyError).

Arguments Ok {A} a.
Arguments Raise {A} e.

(** Sequencing: the first exception raised ends the computation.  The
    instances give [x ← c; rest] and [mret] for [result]. *)
#[export] Instance result_ret : MRet result := fun A a => Ok a.

#[export] Instance result_bind : MBind result := fun A B f r =>
  match r with
  | Ok a => f a
  | Raise e => Raise e
  end.

(** [a / b] on floats. *)
Definition py_truediv (a b : R) : result R :=
  if Req_dec_T b 0%R then Raise ZeroDivisionError else Ok (a / b)%R.

(** [math.log(x, base)]: the natural logarithm of [x], then that of
    [base], each a [ValueError] for an argument that is not positive, then
    their quotient. *)
Definition py_log (x base : R) : result R :=
  if Rlt_dec 0%R x
  then if Rlt_dec 0%R base
       then py_truediv (ln x) (ln base)
       else Raise ValueError
  else Raise ValueError.

(** ** Sequences *)

(** [seq[:-1]] *)
Definition py_init {A : Type} (l : list A) : list A :=
  take (length l - 1)%nat l.

(** [seq[1:]] *)
Definition py_tail {A : Type} (l : list A) : list A := drop 1 l.

(** [zip(seq[:-1], seq[1:])] *)
Definition bigrams_of {A : Type} (l : list A) : list (A * A) :=
  zip (py_init l) (py_tail l).

(** [["<s>"] + tokens + ["</s>"]] *)
Definition bracket (tokens : list string) : list string :=
  ["<s>"%string] ++ tokens ++ ["</s>"%string].

(** ** Counter *)

Section Counter.
Context {K : Type} `{Countable K}.

(** [c[x]]: a missing key counts 0, and the lookup leaves [c] as it is. *)
Definition counter_get (c : gmap K nat) (x : K) : nat :=
  default 0%nat (c !! x).

Definition counter_incr (c : gmap K nat) (x : K) : gmap K nat :=
  <[x := S (counter_get c x)]> c.

(** [Counter(iterable)] *)
Definition Counter_of (l : list K) : gmap K nat :=
  foldl counter_incr ∅ l.
End Counter.

(** ** BigramModel *)

Record BigramModel : Type := mkBigramModel {
  bigram : gmap (string * string) nat;
  context : gmap string nat;
  vocab : gset string;
  k : R
}.

(** [BigramModel.train] *)
Definition train (tokens : list string) (k : R) : BigramModel :=
  let seq := bracket tokens in
  {| bigram := Counter_of (bigrams_of seq);
     context := Counter_of (py_init seq);
     vocab := list_to_set seq;
     k := k |}.

(** [BigramModel.prob] *)
Definition prob (self : BigramModel) (w1 w2 : string) (V : Z) : result R :=
  py_truediv (INR (counter_get (bigram self) (w1, w2)) + k self)%R
             (INR (counter_get (context self) w1) + k self * IZR V)%R.

(** ** LLRScorer *)

Record LLRScorer : Type := mkLLRScorer {
  model_A : BigramModel;
  model_B : BigramModel;
  vocab_union : list string;
  eps_neither : R
}.

(** A loop [for x in l: acc = f(acc, x)] whose body can raise. *)
Fixpoint foldlM {A B : Type} (f : B -> A -> result B) (acc : B) (l : list A)
  : result B :=
  match l with
  | [] => Ok acc
  | x :: l' => acc' ← f acc x; foldlM f acc' l'
  end.

(** The body of the loop of [score_window]: [s += math.log(pA / pB, 2)]. *)
Definition score_step (self : LLRScorer) (V : Z) (s : R) (b : string * string)
  : result R :=
  pA ← prob (model_A self) b.1 b.2 V;
  pB ← prob (model_B self) b.1 b.2 V;
  q ← py_truediv pA pB;
  t ← py_log q 2;
  mret (s + t)%R.

(** [LLRScorer.score_window] *)
Definition score_window (self : LLRScorer) (tokens : list string) : result R :=
  let seq := bracket tokens in
  let V := Z.of_nat (length (vocab_union self)) in
  foldlM (score_step self V) 0%R (bigrams_of seq).

(** [LLRScorer.label] *)
Definition label (self : LLRScorer) (score : R) : string :=
  if Rlt_dec (eps_neither self) score then "EMINESCU"
  else if Rlt_dec score (- eps_neither self) then "STANESCU"
  else "NEITHER".

(** *** The scorer as an object

    The same two methods with the receiver threaded through every access,
    the way the interpreter runs them: each call gets the object and hands
    it back.  [Counter.__getitem__] on a missing key goes through
    [__missing__], which answers 0 and does not insert the key. *)

Definition counter_getitem {K : Type} `{Countable K} (c : gmap K nat) (x : K)
  : nat * gmap K nat :=
  (counter_get c x, c).

Definition prob_run (w1 w2 : string) (V : Z) (self : BigramModel)
  : result R * BigramModel :=
  let '(b, bg) := counter_getitem (bigram self) (w1, w2) in
  let '(c, cx) := counter_getitem (context self) w1 in
  (py_truediv (INR b + k self)%R (INR c + k self * IZR V)%R,
   {| bigram := bg; context := cx; vocab := vocab self; k := k self |}).

Definition score_step_run (V : Z) (s : R) (b : string * string)
  (self : LLRScorer) : result R * LLRScorer :=
  let '(rA, mA) := prob_run b.1 b.2 V (model_A self) in
  let self1 := {| model_A := mA; model_B := model_B self;
                  vocab_union := vocab_union self;
                  eps_neither := eps_neither self |} in
  match rA with
  | Raise e => (Raise e, self1)
  | Ok pA =>
      let '(rB, mB) := prob_run b.1 b.2 V (model_B self1) in
      let self2 := {| model_A := model_A self1; model_B := mB;
                      vocab_union := vocab_union self1;
                      eps_neither := eps_neither self1 |} in
      match rB with
      | Raise e => (Raise e, self2)
      | Ok pB => (q ← py_truediv pA pB; t ← py_log q 2; mret (s + t)%R, self2)
      end
  end.

Fixpoint score_loop_run (V : Z) (s : R) (l : list (string * string))
  (self : LLRScorer) : result R * LLRScorer :=
  match l with
  | [] => (Ok s, self)
  | b :: l' =>
      match score_step_run V s b self with
      | (Ok s', self') => score_loop_run V s' l' self'
      | (Raise e, self') => (Raise e, self')
      end
  end.

Definition score_window_run (tokens : list string) (self : LLRScorer)
  : result R * LLRScorer :=
  let seq := bracket tokens in
  let V := Z.of_nat (length (vocab_union self)) in
  score_loop_run V 0%R (bigrams_of seq) self.

(** ** Built-ins used by the scan and the aggregation *)

Definition len {A : Type} (l : list A) : Z := Z.of_nat (length l).

(** [range(start, stop, step)] by counting: the loop stops at the first
    index that has reached [stop].  [fuel] bounds the number of rounds. *)
Fixpoint range_up (fuel : nat) (i stop step : Z) : list Z :=
  match fuel with
  | O => []
  | S fuel' =>
      if i <? stop then i :: range_up fuel' (i + step) stop step else []
  end.

Fixpoint range_down (fuel : nat) (i stop step : Z) : list Z :=
  match fuel with
  | O => []
  | S fuel' =>
      if stop <? i then i :: range_down fuel' (i + step) stop step else []
  end.

Definition py_range (start stop step : Z) : result (list Z) :=
  if step =? 0 then Raise ValueError
  else if 0 <? step
       then Ok (range_up (Z.to_nat (stop - start)) start stop step)
       else Ok (range_down (Z.to_nat (start - stop)) start stop step).

(** The bound of a slice: negative counts from the end, then clipped. *)
Definition slice_bound (n i : Z) : Z :=
  if i <? 0 then Z.max 0 (i + n) else Z.min i n.

(** [l[a:b]] *)
Definition py_slice {A : Type} (l : list A) (a b : Z) : list A :=
  let a' := slice_bound (len l) a in
  let b' := slice_bound (len l) b in
  take (Z.to_nat (b' - a')) (drop (Z.to_nat a') l).

(** [l[a:]] *)
Definition py_slice_from {A : Type} (l : list A) (a : Z) : list A :=
  drop (Z.to_nat (slice_bound (len l) a)) l.

(** The position an index [i] denotes in a list of length [n]. *)
Definition py_index (n i : Z) : result nat :=
  if (0 <=? i) && (i <? n) then Ok (Z.to_nat i)
  else if (- n <=? i) && (i <? 0) then Ok (Z.to_nat (i + n))
  else Raise IndexError.

(** [l[i]] *)
Definition py_getitem {A : Type} (l : list A) (i : Z) : result A :=
  j ← py_index (len l) i;
  match l !! j with
  | Some x => Ok x
  | None => Raise IndexError
  end.

(** [l[i] = f(l[i])], as in [l[i] += v]. *)
Definition py_update {A : Type} (f : A -> A) (l : list A) (i : Z)
  : result (list A) :=
  j ← py_index (len l) i;
  mret (alter f j l).

(** [sep.join(l)] *)
Fixpoint join (sep : string) (l : list string) : string :=
  match l with
  | [] => ""
  | x :: l' =>
      match l' with
      | [] => x
      | _ :: _ => x +:+ sep +:+ join sep l'
      end
  end.

(** ** sliding_window_scores *)

Record WindowReport : Type := mkWindowReport {
  w_start : Z;
  w_end : Z;
  w_score : R;
  w_label : string;
  w_snippet : string
}.

(** One round of the loop of [sliding_window_scores]. *)
Definition window_row (tokens : list string) (scorer : LLRScorer)
  (window : Z) (rows : list WindowReport) (i : Z) : result (list WindowReport) :=
  let w := py_slice tokens i (i + window) in
  sc ← score_window scorer w;
  mret (rows ++ [ {| w_start := i;
                     w_end := i + window;
                     w_score := sc;
                     w_label := label scorer sc;
                     w_snippet := join " " w |} ]).

Definition sliding_window_scores (tokens : list string) (scorer : LLRScorer)
  (window step : Z) : result (list WindowReport) :=
  let n := len tokens in
  if n <? 2 then Ok []
  else
    let window := Z.max 2 (Z.min window n) in
    idx ← py_range 0 (n - window + 1) step;
    foldlM (window_row tokens scorer window) [] idx.

(** ** word_level_labels *)

(** The inner loop body: [sums[i] += r["score"]; cnts[i] += 1]. *)
Definition add_at (score : R) (st : list R * list nat) (i : Z)
  : result (list R * list nat) :=
  sums ← py_update (fun x => (x + score)%R) st.1 i;
  cnts ← py_update (fun c => (c + 1)%nat) st.2 i;
  mret (sums, cnts).

(** The outer loop body: one window report. *)
Definition add_window (st : list R * list nat) (r : WindowReport)
  : result (list R * list nat) :=
  idx ← py_range (w_start r) (w_end r) 1;
  foldlM (add_at (w_score r)) st idx.

(** [(sums[i] / cnts[i]) if cnts[i] else 0.0] *)
Definition average_at (sums : list R) (cnts : list nat) (i : nat) : R :=
  match nth i cnts 0%nat with
  | O => 0%R
  | S c => (nth i sums 0%R / INR (S c))%R
  end.

Definition word_level_labels (tokens : list string)
  (windows : list WindowReport) (scorer : LLRScorer) : result (list string) :=
  let n := length tokens in
  if (n =? 0)%nat then Ok []
  else
    st ← foldlM add_window (replicate n 0%R, replicate n 0%nat) windows;
    mret ((fun i => label scorer (average_at st.1 st.2 i)) <$> seq 0 n).

(** ** segments *)

Record Segment : Type := mkSegment {
  seg_label : string;
  seg_start : Z;
  seg_end : Z;
  seg_text : string
}.

(** The state of the loop of [segments]: [segs], [cur] and [start]. *)
Definition seg_state : Type := list Segment * string * Z.

Definition segments_step (tokens labels : list string) (st : seg_state)
  (i : Z) : result seg_state :=
  let '(segs, cur, start) := st in
  li ← py_getitem labels i;
  if decide (li ≠ cur)
  then mret (segs ++ [ {| seg_label := cur; seg_start := start; seg_end := i;
                          seg_text := join " " (py_slice tokens start i) |} ],
             li, i)
  else mret (segs, cur, start).

Definition segments (tokens labels : list string) : result (list Segment) :=
  match tokens with
  | [] => Ok []
  | _ :: _ =>
      cur ← py_getitem labels 0;
      idx ← py_range 1 (len tokens) 1;
      st ← foldlM (segments_step tokens labels) ([], cur, 0) idx;
      let '(segs, cur, start) := st in
      mret (segs ++ [ {| seg_label := cur; seg_start := start;
                         seg_end := len tokens;
                         seg_text := join " " (py_slice_from tokens start) |} ])
  end.

(** ** run_analysis *)

(** What [run_analysis] computes and then prints. *)
Record Analysis : Type := mkAnalysis {
  a_effective_window : Z;
  a_rows : list WindowReport;
  a_wlabs : list string;
  a_segs : list Segment;
  a_win_counts : gmap string nat;
  a_word_counts : gmap string nat
}.

(** The order of [sorted] on strings: lexicographic on the code points,
    which on UTF-8 bytes is lexicographic on the bytes. *)
Definition str_le (a b : string) : Prop := String.leb a b = true.

#[export] Instance str_le_dec : RelDecision str_le.
Proof. intros a b. unfold str_le. apply _. Defined.

(** [sorted(s)] for a set of strings: the elements in increasing order. *)
Definition sorted_set (s : gset string) : list string :=
  merge_sort str_le (elements s).

(** The scorer that [run_analysis] builds from the two trained models. *)
Definition make_scorer (modelE modelS : BigramModel) (eps_neither : R)
  : LLRScorer :=
  {| model_A := modelE;
     model_B := modelS;
     vocab_union := sorted_set (vocab modelE ∪ vocab modelS);
     eps_neither := eps_neither |}.

(** *** tokenize

    [WORD_RE] is a run of letters, optionally followed by one hyphen and a
    second run of letters; the letters are the ASCII ones and ten Romanian
    letters with diacritics.  A string here is its UTF-8 bytes, so each of
    the ten is the two-byte sequence below, paired with its lower-case
    form. *)

Definition lower_diacritic (a b : N) : option (N * N) :=
  match a, b with
  | 196, 130 => Some (196, 131)   (* A breve *)
  | 196, 131 => Some (196, 131)
  | 195, 130 => Some (195, 162)   (* A circumflex *)
  | 195, 162 => Some (195, 162)
  | 195, 142 => Some (195, 174)   (* I circumflex *)
  | 195, 174 => Some (195, 174)
  | 200, 152 => Some (200, 153)   (* S comma *)
  | 200, 153 => Some (200, 153)
  | 200, 154 => Some (200, 155)   (* T comma *)
  | 200, 155 => Some (200, 155)
  | _, _ => None
  end%N.

(** One letter at the head of the input, lower-cased, and what follows. *)
Definition take_letter (s : list ascii) : option (list ascii * list ascii) :=
  match s with
  | [] => None
  | c :: rest =>
      let n := N_of_ascii c in
      if ((65 <=? n) && (n <=? 90))%N then Some ([ascii_of_N (n + 32)], rest)
      else if ((97 <=? n) && (n <=? 122))%N then Some ([c], rest)
      else
        match rest with
        | [] => None
        | d :: rest' =>
            match lower_diacritic n (N_of_ascii d) with
            | Some (a, b) => Some ([ascii_of_N a; ascii_of_N b], rest')
            | None => None
            end
        end
  end.

(** The longest run of letters at the head of the input. *)
Fixpoint take_letters (fuel : nat) (s : list ascii) : list ascii * list ascii :=
  match fuel with
  | O => ([], s)
  | S fuel' =>
      match take_letter s with
      | None => ([], s)
      | Some (l, rest) =>
          let '(run, rest') := take_letters fuel' rest in (l ++ run, rest')
      end
  end.

(** One match of [WORD_RE] at the head of the input, if there is one. *)
Definition match_word (s : list ascii) : option (list ascii * list ascii) :=
  match take_letters (length s) s with
  | ([], _) => None
  | (run, rest) =>
      match rest with
      | "-"%char :: rest1 =>
          match take_letters (length rest1) rest1 with
          | ([], _) => Some (run, rest)
          | (run2, rest2) => Some (run ++ "-"%char :: run2, rest2)
          end
      | _ => Some (run, rest)
      end
  end.

(** [WORD_RE.findall]: scan left to right, skipping what does not match. *)
Fixpoint findall (fuel : nat) (s : list ascii) : list string :=
  match fuel with
  | O => []
  | S fuel' =>
      match s with
      | [] => []
      | _ :: rest =>
          match match_word s with
          | Some (w, s') => string_of_list_ascii w :: findall fuel' s'
          | None => findall fuel' rest
          end
      end
  end.

Definition tokenize (text : string) : list string :=
  let s := list_ascii_of_string text in findall (length s) s.

(** *** The pipeline *)

Definition run_analysis (eminescu_text stanescu_text accused_text : string)
  (window step : Z) (k eps_neither : R) : result Analysis :=
  let tokE := tokenize eminescu_text in
  let tokS := tokenize stanescu_text in
  let tokA := tokenize accused_text in
  let modelE := train tokE k in
  let modelS := train tokS k in
  let scorer := make_scorer modelE modelS eps_neither in
  let effective_window :=
    match tokA with
    | [] => window
    | _ :: _ => Z.max 2 (Z.min window (len tokA))
    end in
  rows ← sliding_window_scores tokA scorer effective_window step;
  wlabs ← word_level_labels tokA rows scorer;
  segs ← segments tokA wlabs;
  mret {| a_effective_window := effective_window;
          a_rows := rows;
          a_wlabs := wlabs;
          a_segs := segs;
          a_win_counts := Counter_of (w_label <$> rows);
          a_word_counts := Counter_of wlabs |}.


(** * Specification-side definitions

    What the specification says in its own words, to be compared with the
    functions above. *)

(** How often [x] occurs in [l]. *)
Definition occurrences {A : Type} `{EqDecision A} (x : A) (l : list A) : nat :=
  length (filter (fun y => y = x) l).

(** A count read from a map, "absent" meaning 0. *)
Definition count_or_zero (o : option nat) : nat :=
  match o with
  | Some c => c
  | None => 0%nat
  end.

(** The smoothed estimate as a formula over the reals. *)
Definition smoothed (count context : nat) (k : R) (V : Z) : R :=
  ((INR count + k) / (INR context + k * IZR V))%R.

Definition prob_value (m : BigramModel) (w1 w2 : string) (V : Z) : R :=
  smoothed (count_or_zero (bigram m !! (w1, w2)))
           (count_or_zero (context m !! w1)) (k m) V.

Definition log2 (x : R) : R := (ln x / ln 2)%R.

Definition Rsum (l : list R) : R := foldr Rplus 0%R l.

(** The size [V] of the vocabulary union a scorer holds. *)
Definition union_size (sc : LLRScorer) : Z := len (vocab_union sc).

(** One term of the score: [log2(pA / pB)] for one bigram. *)
Definition llr_term_value (sc : LLRScorer) (b : string * string) : R :=
  log2 (prob_value (model_A sc) b.1 b.2 (union_size sc) /
        prob_value (model_B sc) b.1 b.2 (union_size sc)).

(** The sum of the terms over the bigrams of the bracketed window. *)
Definition llr_sum (sc : LLRScorer) (tokens : list string) : R :=
  Rsum (llr_term_value sc <$> bigrams_of (bracket tokens)).

(** The same term and sum when a term may fail to be defined: the first
    undefined term, from the left, decides the exception. *)
Definition llr_term (sc : LLRScorer) (b : string * string) : result R :=
  pA ← prob (model_A sc) b.1 b.2 (union_size sc);
  pB ← prob (model_B sc) b.1 b.2 (union_size sc);
  q ← py_truediv pA pB;
  py_log q 2.

Fixpoint sum_terms (l : list (result R)) : result R :=
  match l with
  | [] => Ok 0%R
  | t :: l' => x ← t; s ← sum_terms l'; mret (x + s)%R
  end.

Definition llr_sum_result (sc : LLRScorer) (tokens : list string) : result R :=
  sum_terms (llr_term sc <$> bigrams_of (bracket tokens)).

(** A scorer whose smoothing constants are positive and whose vocabulary
    union is not empty, as every scorer built by [run_analysis] with
    [k > 0] is. *)
Definition scorer_ok (sc : LLRScorer) : Prop :=
  (0 < k (model_A sc))%R /\ (0 < k (model_B sc))%R /\ 1 <= union_size sc.

(** A window report covers position [i] when [i] lies in [start, end). *)
Definition covers (i : Z) (r : WindowReport) : bool :=
  (w_start r <=? i) && (i <? w_end r).

Definition covering (i : Z) (windows : list WindowReport) : list WindowReport :=
  filter (fun r => covers i r = true) windows.

(** The mean of the scores of the windows covering [i]; 0 when none does. *)
Definition mean_score (i : Z) (windows : list WindowReport) : R :=
  match covering i windows with
  | [] => 0%R
  | _ :: _ =>
      (Rsum (w_score <$> covering i windows) /
       INR (length (covering i windows)))%R
  end.

(** Segments laid end to end from [from] to [to]: each starts where the
    one before it ends and holds at least one position. *)
Fixpoint seg_chain (from : Z) (segs : list Segment) (to : Z) : Prop :=
  match segs with
  | [] => from = to
  | s :: rest =>
      seg_start s = from /\ from < seg_end s /\ seg_chain (seg_end s) rest to
  end.

Definition seg_covers (i : Z) (s : Segment) : bool :=
  (seg_start s <=? i) && (i <? seg_end s).

(** The tokens of a segment: [tokens[start:end]]. *)
Definition seg_tokens (tokens : list string) (s : Segment) : list string :=
  py_slice tokens (seg_start s) (seg_end s).

(** The number of positions whose label differs from the one before. *)
Fixpoint label_changes (labels : list string) : nat :=
  match labels with
  | [] => 0
  | a :: rest =>
      match rest with
      | [] => 0
      | b :: _ => (if decide (b ≠ a) then 1 else 0) + label_changes rest
      end
  end%nat.

(** The specification's rule for malformed configuration: it is rejected,
    that is, the pipeline ends with an exception. *)
Definition config_malformed (step : Z) (k : R) : Prop :=
  step < 1 \/ (k <= 0)%R.

Definition rejected {A : Type} (r : result A) : Prop :=
  exists e : PyError, r = Raise e.

Definition rejects_malformed (eminescu_text stanescu_text accused_text : string)
  (window step : Z) (k eps_neither : R) : Prop :=
  config_malformed step k ->
  rejected (run_analysis eminescu_text stanescu_text accused_text
              window step k eps_neither).

(** The report the scan makes for the window that starts at [i], when
    scoring succeeds. *)
Definition window_report_at (tokens : list string) (sc : LLRScorer)
  (window i : Z) : WindowReport :=
  let w := py_slice tokens i (i + window) in
  {| w_start := i;
     w_end := i + window;
     w_score := llr_sum sc w;
     w_label := label sc (llr_sum sc w);
     w_snippet := join " " w |}.

(** The window size the scan works with. *)
Definition effective_window (window n : Z) : Z := Z.max 2 (Z.min window n).

(** The start indices [0, step, 2*step, ...], [count] of them. *)
Definition window_starts (step count : Z) : list Z :=
  (fun j => j * step) <$> seqZ 0 count.

(** What holds of the state of the loop of [segments] when it is about to
    look at position [i]. *)
Definition segments_inv (tokens labels : list string) (i : Z) (st : seg_state)
  : Prop :=
  let '(segs, cur, start) := st in
  0 <= start < i /\
  seg_chain 0 segs start /\
  labels !! Z.to_nat (i - 1) = Some cur /\
  length segs = label_changes (take (Z.to_nat i) labels) /\
  concat (seg_tokens tokens <$> segs) = take (Z.to_nat start) tokens /\
  Forall (fun s => seg_text s = join " " (seg_tokens tokens s)) segs.

(** Every position a report covers is a position of the token sequence. *)
Definition report_in_range (n : Z) (r : WindowReport) : Prop :=
  forall i : Z, covers i r = true -> 0 <= i < n.

(** [i] lies in [a, b). *)
Definition in_range (a b i : Z) : bool := (a <=? i) && (i <? b).

(** The two exceptions that can leave the pipeline: [ZeroDivisionError]
    (a zero divisor) and [ValueError] (the logarithm of a number that is
    not positive, or a zero stride given to [range]). *)
Definition numeric_error (e : PyError) : Prop :=
  e = ZeroDivisionError \/ e = ValueError.

(** * Further definitions

    Used by the properties proved beyond the specification's claims. *)

(** The scorer with its two models exchanged. *)
Definition swap_models (sc : LLRScorer) : LLRScorer :=
  {| model_A := model_B sc;
     model_B := model_A sc;
     vocab_union := vocab_union sc;
     eps_neither := eps_neither sc |}.

(** The label with the two authors exchanged. *)
Definition mirror_label (l : string) : string :=
  if decide (l = "EMINESCU"%string) then "STANESCU"
  else if decide (l = "STANESCU"%string) then "EMINESCU"
  else l.

(** Every position of a segment carries the label of the segment. *)
Definition seg_uniform (labels : list string) (s : Segment) : Prop :=
  forall i : Z, seg_start s <= i < seg_end s ->
    labels !! Z.to_nat i = Some (seg_label s).

(** Two segments that follow one another have different labels. *)
Definition adjacent_differ (segs : list Segment) : Prop :=
  forall (j : nat) (s1 s2 : Segment),
    segs !! j = Some s1 -> segs !! S j = Some s2 ->
    seg_label s1 <> seg_label s2.

(** The labels the segments stand for: each label repeated over the length
    of its segment. *)
Definition expand_segments (segs : list Segment) : list string :=
  concat ((fun s => replicate (Z.to_nat (seg_end s - seg_start s)) (seg_label s))
            <$> segs).

(** What holds of the runs when the loop of [segments] is about to look at
    position [i]. *)
Definition runs_inv (labels : list string) (i : Z) (st : seg_state) : Prop :=
  let '(segs, cur, start) := st in
  Forall (seg_uniform labels) segs /\
  (forall j : Z, start <= j < i -> labels !! Z.to_nat j = Some cur) /\
  adjacent_differ segs /\
  (forall s : Segment, last segs = Some s -> seg_label s <> cur).

(** Every index a report covers is one a list of length [n] accepts:
    a position, or a negative index counted from the end. *)
Definition report_indexable (n : Z) (r : WindowReport) : Prop :=
  forall i : Z, covers i r = true -> - n <= i < n.

(** The three labels the scorer gives. *)
Definition is_label (l : string) : Prop :=
  l = "EMINESCU"%string \/ l = "STANESCU"%string \/ l = "NEITHER"%string.

(** A lower-case letter of [WORD_RE], as the bytes it is written with: one
    ASCII byte from [a] to [z], or the two bytes of a lower-case Romanian
    letter. *)
Definition is_lower_letter (l : list ascii) : Prop :=
  (exists c : ascii, l = [c] /\ (97 <= N_of_ascii c <= 122)%N) \/
  (exists a b : N,
     l = [ascii_of_N a; ascii_of_N b] /\ lower_diacritic a b = Some (a, b)).

(** One or more lower-case letters. *)
Definition lower_run (r : list ascii) : Prop :=
  exists ls : list (list ascii),
    ls <> [] /\ Forall is_lower_letter ls /\ r = concat ls.

(** The shape of a token: a run of lower-case letters, or two such runs
    joined by one hyphen. *)
Definition word_shape (w : list ascii) : Prop :=
  lower_run w \/
  exists r1 r2 : list ascii,
    lower_run r1 /\ lower_run r2 /\ w = r1 ++ "-"%char :: r2.

Definition is_token (t : string) : Prop :=
  word_shape (list_ascii_of_string t).

(** ** lab1: the alphabet of a sequence

    [src/lab1/ex1.1.py].  A Python string is the list of its code points;
    a character is a code point, and [sorted] orders one-character strings
    by code point. *)

(** The body of the loop: [if char not in alphabet: alphabet.append(char)]. *)
Definition alphabet_step (alphabet : list N) (char : N) : list N :=
  if decide (char ∈ alphabet) then alphabet else alphabet ++ [char].

(** [findTheAlphabet]; the same loop opens [dna_composition] of
    [src/lab1/ex1.2.py], which also returns [sorted(alphabet)]. *)
Definition findTheAlphabet (sequence : list N) : list N :=
  merge_sort N.le (foldl alphabet_step [] sequence).

(** [sorted(set(seq))], the alphabet of [fasta_composition] in
    [src/lab1/ex1.3.py]. *)
Definition sorted_chars (seq : list N) : list N :=
  merge_sort N.le (elements (list_to_set (C := gset N) seq)).

(** * The numeric part of the pipeline on binary64

    The definitions above read a Python [float] as a real number.  This
    module gives the same functions of [second.py] on IEEE 754 binary64
    values, as CPython computes them: [+], [*] and [/] round to nearest,
    ties to even; a result too large is [inf] and one too small is [0.0],
    without an exception; [x / y] raises [ZeroDivisionError] when [y] is
    [0.0] or [-0.0]; a comparison with [nan] is false; an [int] operand of
    a mixed operation is converted to [float] first, which raises
    [OverflowError] when it does not fit.  The natural logarithm of the C
    library, which [math.log] calls, is a parameter.  Tokens, counters,
    ranges, slices and segments are those defined above. *)

Module Binary64.

Definition float : Type := spec_float.

Definition prec : Z := 53.
Definition emax : Z := 1024.

(** [0.0] *)
Definition fzero : float := S754_zero false.

Definition fadd (x y : float) : float := SFadd prec emax x y.
Definition fmul (x y : float) : float := SFmul prec emax x y.
Definition fdiv (x y : float) : float := SFdiv prec emax x y.
Definition fneg (x : float) : float := SFopp x.

(** [x < y] *)
Definition flt (x y : float) : bool := SFltb x y.


(** [x == 0.0] *)
Definition is_zero (x : float) : bool :=
  match x with
  | S754_zero _ => true
  | _ => false
  end.

(** The conversion of an [int] operand: the nearest float, ties to even. *)
Definition float_of_int (n : Z) : result float :=
  match binary_normalize prec emax n 0 false with
  | S754_infinity _ => Raise OverflowError
  | x => Ok x
  end.

(** [a / b] on floats. *)
Definition py_truediv (a b : float) : result float :=
  if is_zero b then Raise ZeroDivisionError else Ok (fdiv a b).

(** ** BigramModel *)

Record BigramModel : Type := mkBigramModel {
  bigram : gmap (string * string) nat;
  context : gmap string nat;
  vocab : gset string;
  k : float
}.

(** [BigramModel.train] *)
Definition train (tokens : list string) (k : float) : BigramModel :=
  let seq := bracket tokens in
  {| bigram := Counter_of (bigrams_of seq);
     context := Counter_of (py_init seq);
     vocab := list_to_set seq;
     k := k |}.

(** [BigramModel.prob]: the numerator, then the denominator, then the
    quotient. *)
Definition prob (self : BigramModel) (w1 w2 : string) (V : Z) : result float :=
  c ← float_of_int (Z.of_nat (counter_get (bigram self) (w1, w2)));
  let num := fadd c (k self) in
  v ← float_of_int V;
  let kV := fmul (k self) v in
  x ← float_of_int (Z.of_nat (counter_get (context self) w1));
  py_truediv num (fadd x kV).

(** ** LLRScorer *)

Record LLRScorer : Type := mkLLRScorer {
  model_A : BigramModel;
  model_B : BigramModel;
  vocab_union : list string;
  eps_neither : float
}.

(** [LLRScorer.label]: [score > eps], then [score < -eps]. *)
Definition label (self : LLRScorer) (score : float) : string :=
  if flt (eps_neither self) score then "EMINESCU"
  else if flt score (fneg (eps_neither self)) then "STANESCU"
  else "NEITHER".

Section Libm.

(** The function [log] of the C library, on positive finite arguments. *)
Variable libm_log : float -> float.

(** The logarithm as the module [math] wraps it for a float argument: a
    [ValueError] for zero, a negative number or [-inf], and for a finite
    argument whose logarithm comes back [nan] or infinite; [nan] and [inf]
    are handed back. *)
Definition m_log (x : float) : result float :=
  match x with
  | S754_nan => Ok S754_nan
  | S754_infinity false => Ok (S754_infinity false)
  | S754_infinity true => Raise ValueError
  | S754_zero _ => Raise ValueError
  | S754_finite true _ _ => Raise ValueError
  | S754_finite false _ _ =>
      match libm_log x with
      | S754_nan => Raise ValueError
      | S754_infinity _ => Raise ValueError
      | r => Ok r
      end
  end.

(** [2.0], what the base [2] converts to. *)
Definition two : float := S754_finite false 4503599627370496 (-51).

(** [math.log(x, 2)]: the logarithm of [x], then that of the base, then
    their quotient. *)
Definition py_log2 (x : float) : result float :=
  num ← m_log x;
  py_truediv num (libm_log two).

(** The body of the loop of [score_window]: [s += math.log(pA / pB, 2)]. *)
Definition score_step (self : LLRScorer) (V : Z) (s : float)
  (b : string * string) : result float :=
  pA ← prob (model_A self) b.1 b.2 V;
  pB ← prob (model_B self) b.1 b.2 V;
  q ← py_truediv pA pB;
  t ← py_log2 q;
  mret (fadd s t).

(** [LLRScorer.score_window] *)
Definition score_window (self : LLRScorer) (tokens : list string)
  : result float :=
  let seq := bracket tokens in
  let V := Z.of_nat (length (vocab_union self)) in
  foldlM (score_step self V) fzero (bigrams_of seq).

(** ** sliding_window_scores *)

Record WindowReport : Type := mkWindowReport {
  w_start : Z;
  w_end : Z;
  w_score : float;
  w_label : string;
  w_snippet : string
}.

Definition window_row (tokens : list string) (scorer : LLRScorer)
  (window : Z) (rows : list WindowReport) (i : Z) : result (list WindowReport) :=
  let w := py_slice tokens i (i + window) in
  sc ← score_window scorer w;
  mret (rows ++ [ {| w_start := i;
                     w_end := i + window;
                     w_score := sc;
                     w_label := label scorer sc;
                     w_snippet := join " " w |} ]).

Definition sliding_window_scores (tokens : list string) (scorer : LLRScorer)
  (window step : Z) : result (list WindowReport) :=
  let n := len tokens in
  if n <? 2 then Ok []
  else
    let window := Z.max 2 (Z.min window n) in
    idx ← py_range 0 (n - window + 1) step;
    foldlM (window_row tokens scorer window) [] idx.

(** ** word_level_labels *)

(** The inner loop body: [sums[i] += r["score"]; cnts[i] += 1]. *)
Definition add_at (score : float) (st : list float * list nat) (i : Z)
  : result (list float * list nat) :=
  sums ← py_update (fun x => fadd x score) st.1 i;
  cnts ← py_update (fun c => (c + 1)%nat) st.2 i;
  mret (sums, cnts).

(** The outer loop body: one window report. *)
Definition add_window (st : list float * list nat) (r : WindowReport)
  : result (list float * list nat) :=
  idx ← py_range (w_start r) (w_end r) 1;
  foldlM (add_at (w_score r)) st idx.

(** [(sums[i] / cnts[i]) if cnts[i] else 0.0] *)
Definition average_at (sums : list float) (cnts : list nat) (i : nat)
  : result float :=
  match nth i cnts 0%nat with
  | O => Ok fzero
  | S c => d ← float_of_int (Z.of_nat (S c)); py_truediv (nth i sums fzero) d
  end.

(** The body of the last loop: [labels.append(scorer.label(avg))]. *)
Definition label_row (scorer : LLRScorer) (sums : list float)
  (cnts : list nat) (labels : list string) (i : nat) : result (list string) :=
  avg ← average_at sums cnts i;
  mret (labels ++ [label scorer avg]).

Definition word_level_labels (tokens : list string)
  (windows : list WindowReport) (scorer : LLRScorer) : result (list string) :=
  let n := length tokens in
  if (n =? 0)%nat then Ok []
  else
    st ← foldlM add_window (replicate n fzero, replicate n 0%nat) windows;
    foldlM (label_row scorer st.1 st.2) [] (seq 0 n).

(** ** run_analysis *)

Record Analysis : Type := mkAnalysis {
  a_effective_window : Z;
  a_rows : list WindowReport;
  a_wlabs : list string;
  a_segs : list Segment;
  a_win_counts : gmap string nat;
  a_word_counts : gmap string nat
}.

Definition make_scorer (modelE modelS : BigramModel) (eps_neither : float)
  : LLRScorer :=
  {| model_A := modelE;
     model_B := modelS;
     vocab_union := sorted_set (vocab modelE ∪ vocab modelS);
     eps_neither := eps_neither |}.

Definition run_analysis (eminescu_text stanescu_text accused_text : string)
  (window step : Z) (k eps_neither : float) : result Analysis :=
  let tokE := tokenize eminescu_text in
  let tokS := tokenize stanescu_text in
  let tokA := tokenize accused_text in
  let modelE := train tokE k in
  let modelS := train tokS k in
  let scorer := make_scorer modelE modelS eps_neither in
  let effective_window :=
    match tokA with
    | [] => window
    | _ :: _ => Z.max 2 (Z.min window (len tokA))
    end in
  rows ← sliding_window_scores tokA scorer effective_window step;
  wlabs ← word_level_labels tokA rows scorer;
  segs ← segments tokA wlabs;
  mret {| a_effective_window := effective_window;
          a_rows := rows;
          a_wlabs := wlabs;
          a_segs := segs;
          a_win_counts := Counter_of (w_label <$> rows);
          a_word_counts := Counter_of wlabs |}.

End Libm.

(** ** Specification-side definitions on binary64 *)

(** The size [V] of the vocabulary union a scorer holds. *)
Definition union_size (sc : LLRScorer) : Z := len (vocab_union sc).

(** One term of the score, [log2(pA / pB)] for one bigram, as the floats
    give it. *)
Definition llr_term (libm_log : float -> float) (sc : LLRScorer)
  (b : string * string) : result float :=
  pA ← prob (model_A sc) b.1 b.2 (union_size sc);
  pB ← prob (model_B sc) b.1 b.2 (union_size sc);
  q ← py_truediv pA pB;
  py_log2 libm_log q.

(** Terms added one after the other to [0.0], from the left; the first
    term that is an exception ends the sum. *)
Definition sum_from_left (terms : list (result float)) : result float :=
  foldlM (fun s t => x ← t; mret (fadd s x)) fzero terms.

(** The floats of a list added one after the other to [0.0]. *)
Definition fsum (l : list float) : float := foldl fadd fzero l.

Definition covers (i : Z) (r : WindowReport) : bool :=
  (w_start r <=? i) && (i <? w_end r).

Definition covering (i : Z) (windows : list WindowReport) : list WindowReport :=
  filter (fun r => covers i r = true) windows.

(** Every position a report covers is a position of a sequence of [n]
    tokens, as holds of the reports of a scan. *)
Definition report_in_range (n : Z) (r : WindowReport) : Prop :=
  forall i : Z, covers i r = true -> 0 <= i < n.

(** The mean the floats give for position [i]: the scores of the covering
    windows, in the order of the list, added to [0.0], and the sum divided
    by their number; [0.0] when no window covers [i]. *)
Definition mean_score (i : Z) (windows : list WindowReport) : result float :=
  match covering i windows with
  | [] => Ok fzero
  | r :: rs =>
      d ← float_of_int (len (r :: rs));
      py_truediv (fsum (w_score <$> r :: rs)) d
  end.

(** One result per element, in order; the first exception ends it. *)
Fixpoint mapM {A B : Type} (f : A -> result B) (l : list A) : result (list B) :=
  match l with
  | [] => Ok []
  | x :: l' => y ← f x; ys ← mapM f l'; mret (y :: ys)
  end.

(** The labels of the positions, each the label of the float mean. *)
Definition mean_labels (tokens : list string) (windows : list WindowReport)
  (sc : LLRScorer) : result (list string) :=
  mapM (fun i => m ← mean_score (Z.of_nat i) windows; mret (label sc m))
       (seq 0 (length tokens)).





End Binary64.

(** ** The bigrams of a window, from the wording of the specification *)

(** The consecutive pairs of a sequence: [(x0, x1), (x1, x2), ...]. *)
Fixpoint consecutive_pairs {A : Type} (l : list A) : list (A * A) :=
  match l with
  | [] => []
  | x :: l' =>
      match l' with
      | [] => []
      | y :: _ => (x, y) :: consecutive_pairs l'
      end
  end.

(** The consecutive bigrams of [<s>, tokens..., </s>]. *)
Definition window_bigrams (tokens : list string) : list (string * string) :=
  consecutive_pairs ("<s>"%string :: tokens ++ ["</s>"%string]).

(** ** Helper lemmas: results *)

Lemma bind_Ok {A B : Type} (a : A) (f : A -> result B) :
  (x ← Ok a; f x) = f a.
Proof. reflexivity. Qed.

Lemma bind_Raise {A B : Type} (e : PyError) (f : A -> result B) :
  (x ← Raise e; f x) = Raise e.
Proof. reflexivity. Qed.

Lemma py_truediv_nonzero (a b : R) :
  b <> 0%R -> py_truediv a b = Ok (a / b)%R.
Proof.
  intros Hb. unfold py_truediv. destruct (Req_dec_T b 0); [contradiction | reflexivity].
Qed.

Lemma ln_2_neq_0 : ln 2 <> 0%R.
Proof. apply ln_neq_0; lra. Qed.

Lemma py_log_pos (x : R) :
  (0 < x)%R -> py_log x 2 = Ok (ln x / ln 2)%R.
Proof.
  intros Hx. unfold py_log.
  destruct (Rlt_dec 0 x); [| contradiction].
  destruct (Rlt_dec 0 2); [| lra].
  apply py_truediv_nonzero, ln_2_neq_0.
Qed.

(** ** Helper lemmas: Counter *)

Section CounterFacts.
Context {K : Type} `{Countable K}.

Lemma counter_get_count_or_zero (c : gmap K nat) (x : K) :
  counter_get c x = count_or_zero (c !! x).
Proof. unfold counter_get. destruct (c !! x); reflexivity. Qed.

Lemma counter_get_incr (c : gmap K nat) (x y : K) :
  counter_get (counter_incr c y) x =
  (counter_get c x + (if decide (y = x) then 1 else 0))%nat.
Proof.
  unfold counter_incr, counter_get at 1.
  destruct (decide (y = x)) as [->|Hne].
  - rewrite lookup_insert_eq. simpl. lia.
  - rewrite lookup_insert_ne by done. fold (counter_get c x). lia.
Qed.

Lemma counter_get_foldl (l : list K) (c : gmap K nat) (x : K) :
  counter_get (foldl counter_incr c l) x =
  (counter_get c x + occurrences x l)%nat.
Proof.
  revert c. induction l as [|y l IH]; intros c; simpl.
  - unfold occurrences. simpl. lia.
  - rewrite IH, counter_get_incr. unfold occurrences.
    rewrite filter_cons. destruct (decide (y = x)); simpl; lia.
Qed.

(** A [Counter] built from a list holds, for every key, the number of
    its occurrences: 0 for a key that does not occur. *)
Lemma counter_get_Counter_of (l : list K) (x : K) :
  counter_get (Counter_of l) x = occurrences x l.
Proof.
  unfold Counter_of. rewrite counter_get_foldl.
  unfold counter_get. rewrite lookup_empty. reflexivity.
Qed.

Lemma Counter_of_absent (l : list K) (x : K) :
  x ∉ l -> Counter_of l !! x = None.
Proof.
  unfold Counter_of.
  assert (Hgen : forall c : gmap K nat, c !! x = None -> x ∉ l ->
            foldl counter_incr c l !! x = None).
  { induction l as [|y l IH]; intros c Hc Hx; simpl; [done|].
    apply not_elem_of_cons in Hx as [Hxy Hx].
    apply IH; [|done]. unfold counter_incr. by rewrite lookup_insert_ne. }
  intros Hx. apply Hgen; [apply lookup_empty | done].
Qed.
End CounterFacts.

(** The tokenizer on a sample: separators dropped, one inner hyphen kept,
    letters lower-cased, the Romanian ones included. *)
Example tokenize_sample :
  tokenize "Doar izvoarele, Intr-un sens -- x-y-z 3a" =
  ["doar"; "izvoarele"; "intr-un"; "sens"; "x-y"; "z"; "a"]%string.
Proof. vm_compute. reflexivity. Qed.

Example tokenize_diacritics :
  tokenize "Ștefan ÎNTR-UN Țărm, ĂÂ" =
  ["ștefan"; "într-un"; "țărm"; "ăâ"]%string.
Proof. vm_compute. reflexivity. Qed.

(** ** The bigram model *)

Lemma prob_eq_truediv (m : BigramModel) (w1 w2 : string) (V : Z) :
  prob m w1 w2 V =
  py_truediv (INR (count_or_zero (bigram m !! (w1, w2))) + k m)%R
             (INR (count_or_zero (context m !! w1)) + k m * IZR V)%R.
Proof.
  unfold prob. rewrite !counter_get_count_or_zero. reflexivity.
Qed.

Lemma smoothed_den_pos (c : nat) (kk : R) (V : Z) :
  (0 < kk)%R -> 1 <= V -> (0 < INR c + kk * IZR V)%R.
Proof.
  intros Hk HV.
  pose proof (pos_INR c) as Hc.
  apply IZR_le in HV.
  assert (0 < kk * IZR V)%R by (apply Rmult_lt_0_compat; lra).
  lra.
Qed.

Lemma smoothed_pos (b c : nat) (kk : R) (V : Z) :
  (0 < kk)%R -> 1 <= V -> (0 < smoothed b c kk V)%R.
Proof.
  intros Hk HV. unfold smoothed.
  apply Rdiv_lt_0_compat.
  - pose proof (pos_INR b). lra.
  - by apply smoothed_den_pos.
Qed.

Lemma prob_ok (m : BigramModel) (w1 w2 : string) (V : Z) :
  (0 < k m)%R -> 1 <= V ->
  prob m w1 w2 V = Ok (prob_value m w1 w2 V) /\ (0 < prob_value m w1 w2 V)%R.
Proof.
  intros Hk HV. split.
  - rewrite prob_eq_truediv. apply py_truediv_nonzero.
    pose proof (smoothed_den_pos (count_or_zero (context m !! w1)) _ _ Hk HV).
    lra.
  - by apply smoothed_pos.
Qed.

(** ** The vocabulary *)

Lemma length_sorted_set (s : gset string) : length (sorted_set s) = size s.
Proof.
  unfold sorted_set. rewrite merge_sort_Permutation. reflexivity.
Qed.

Lemma sentinels_in_vocab (tokens : list string) (kk : R) :
  "<s>"%string ∈ vocab (train tokens kk) /\
  "</s>"%string ∈ vocab (train tokens kk).
Proof.
  unfold train, bracket. simpl. split; set_solver.
Qed.

Lemma vocab_size_ge_2 (tokens : list string) (kk : R) (other : gset string) :
  (2 <= size (vocab (train tokens kk) ∪ other))%nat.
Proof.
  destruct (sentinels_in_vocab tokens kk) as [Hs He].
  assert (Hsub : ({["<s>"%string]} ∪ {["</s>"%string]} : gset string)
                 ⊆ vocab (train tokens kk) ∪ other).
  { intros x Hx. apply elem_of_union_l.
    apply elem_of_union in Hx as [Hx|Hx]; apply elem_of_singleton in Hx;
      by subst x. }
  apply subseteq_size in Hsub.
  rewrite size_union in Hsub by set_solver.
  rewrite !size_singleton in Hsub. exact Hsub.
Qed.

Lemma union_size_make_scorer (mA mB : BigramModel) (eps : R) :
  union_size (make_scorer mA mB eps) = Z.of_nat (size (vocab mA ∪ vocab mB)).
Proof.
  unfold union_size, len, make_scorer. simpl. by rewrite length_sorted_set.
Qed.

Lemma union_size_trained_l (tokens : list string) (kk : R) (mB : BigramModel)
  (eps : R) :
  2 <= union_size (make_scorer (train tokens kk) mB eps).
Proof.
  rewrite union_size_make_scorer.
  pose proof (vocab_size_ge_2 tokens kk (vocab mB)). lia.
Qed.

Lemma union_size_trained_r (tokens : list string) (kk : R) (mA : BigramModel)
  (eps : R) :
  2 <= union_size (make_scorer mA (train tokens kk) eps).
Proof.
  rewrite union_size_make_scorer.
  rewrite (union_comm_L (vocab mA)).
  pose proof (vocab_size_ge_2 tokens kk (vocab mA)). lia.
Qed.

Lemma scorer_ok_trained (tokE tokS : list string) (kE kS eps : R) :
  (0 < kE)%R -> (0 < kS)%R ->
  scorer_ok (make_scorer (train tokE kE) (train tokS kS) eps).
Proof.
  intros HE HS. unfold scorer_ok. repeat split; try done.
  pose proof (union_size_trained_l tokE kE (train tokS kS) eps). lia.
Qed.




(** ** The scorer *)

Lemma llr_term_ok (sc : LLRScorer) (b : string * string) :
  scorer_ok sc ->
  llr_term sc b = Ok (llr_term_value sc b) /\
  (0 < prob_value (model_A sc) b.1 b.2 (union_size sc) /
       prob_value (model_B sc) b.1 b.2 (union_size sc))%R.
Proof.
  intros (HA & HB & HV).
  destruct (prob_ok (model_A sc) b.1 b.2 _ HA HV) as [EA PA].
  destruct (prob_ok (model_B sc) b.1 b.2 _ HB HV) as [EB PB].
  assert (Hq : (0 < prob_value (model_A sc) b.1 b.2 (union_size sc) /
                    prob_value (model_B sc) b.1 b.2 (union_size sc))%R)
    by (apply Rdiv_lt_0_compat; assumption).
  split; [| exact Hq].
  unfold llr_term. rewrite EA, EB. simpl.
  rewrite py_truediv_nonzero by lra. simpl.
  rewrite py_log_pos by exact Hq. reflexivity.
Qed.

Lemma sum_terms_ok (sc : LLRScorer) (l : list (string * string)) :
  scorer_ok sc ->
  sum_terms (llr_term sc <$> l) = Ok (Rsum (llr_term_value sc <$> l)).
Proof.
  intros Hok. induction l as [|b l IH]; [reflexivity |].
  rewrite !fmap_cons. cbn [sum_terms Rsum foldr].
  destruct (llr_term_ok sc b Hok) as [-> _]. rewrite IH. reflexivity.
Qed.

Lemma score_step_term (sc : LLRScorer) (s : R) (b : string * string) :
  score_step sc (union_size sc) s b = (t ← llr_term sc b; mret (s + t)%R).
Proof.
  unfold score_step, llr_term.
  destruct (prob (model_A sc) b.1 b.2 (union_size sc)) as [pA|e]; [|reflexivity].
  destruct (prob (model_B sc) b.1 b.2 (union_size sc)) as [pB|e]; [|reflexivity].
  simpl.
  destruct (py_truediv pA pB) as [q|e]; [|reflexivity]. simpl.
  destruct (py_log q 2) as [t|e]; reflexivity.
Qed.

Lemma foldlM_score_step (sc : LLRScorer) (l : list (string * string)) (s : R) :
  foldlM (score_step sc (union_size sc)) s l =
  (t ← sum_terms (llr_term sc <$> l); mret (s + t)%R).
Proof.
  revert s. induction l as [|b l IH]; intros s.
  - simpl. unfold mret, result_ret. f_equal. lra.
  - rewrite fmap_cons. cbn [foldlM sum_terms].
    rewrite score_step_term.
    destruct (llr_term sc b) as [t|e]; [|reflexivity]. simpl.
    rewrite IH.
    destruct (sum_terms (llr_term sc <$> l)) as [u|e]; [|reflexivity]. simpl.
    unfold mret, result_ret. f_equal. lra.
Qed.

Lemma score_window_sum_result (sc : LLRScorer) (tokens : list string) :
  score_window sc tokens = llr_sum_result sc tokens.
Proof.
  unfold score_window, llr_sum_result.
  change (Z.of_nat (length (vocab_union sc))) with (union_size sc).
  rewrite foldlM_score_step.
  destruct (sum_terms _) as [t|e]; [|reflexivity].
  simpl. unfold mret, result_ret. f_equal. lra.
Qed.

Lemma score_window_ok (sc : LLRScorer) (tokens : list string) :
  scorer_ok sc -> score_window sc tokens = Ok (llr_sum sc tokens).
Proof.
  intros Hok. rewrite score_window_sum_result.
  unfold llr_sum_result, llr_sum. by apply sum_terms_ok.
Qed.

(** Reading the counters gives the object back unchanged. *)
Lemma prob_run_pure (w1 w2 : string) (V : Z) (m : BigramModel) :
  prob_run w1 w2 V m = (prob m w1 w2 V, m).
Proof. destruct m. reflexivity. Qed.

Lemma score_step_run_pure (V : Z) (s : R) (b : string * string)
  (sc : LLRScorer) :
  score_step_run V s b sc = (score_step sc V s b, sc).
Proof.
  unfold score_step_run, score_step. rewrite prob_run_pure.
  cbn [model_A model_B vocab_union eps_neither].
  destruct (prob (model_A sc) b.1 b.2 V) as [pA|e];
    [| destruct sc; reflexivity].
  rewrite prob_run_pure.
  destruct (prob (model_B sc) b.1 b.2 V) as [pB|e]; destruct sc; reflexivity.
Qed.

Lemma score_loop_run_pure (V : Z) (l : list (string * string)) (s : R)
  (sc : LLRScorer) :
  score_loop_run V s l sc = (foldlM (score_step sc V) s l, sc).
Proof.
  revert s. induction l as [|b l IH]; intros s; simpl; [reflexivity |].
  rewrite score_step_run_pure.
  destruct (score_step sc V s b) as [s'|e]; [apply IH | reflexivity].
Qed.

Lemma score_window_run_pure (tokens : list string) (sc : LLRScorer) :
  score_window_run tokens sc = (score_window sc tokens, sc).
Proof. unfold score_window_run, score_window. apply score_loop_run_pure. Qed.

Lemma bigrams_of_consecutive {A : Type} (l : list A) :
  bigrams_of l = consecutive_pairs l.
Proof.
  unfold bigrams_of, py_init, py_tail.
  induction l as [|x l IH]; [reflexivity |].
  destruct l as [|y l]; [reflexivity |].
  change (consecutive_pairs (x :: y :: l))
    with ((x, y) :: consecutive_pairs (y :: l)).
  rewrite <- IH. cbn [length drop].
  replace (S (S (length l)) - 1)%nat with (S (length l)) by lia.
  replace (S (length l) - 1)%nat with (length l) by lia.
  reflexivity.
Qed.

Lemma bigrams_of_bracket (tokens : list string) :
  bigrams_of (bracket tokens) = window_bigrams tokens.
Proof. apply bigrams_of_consecutive. Qed.

Lemma fst_consecutive_pairs {A : Type} (x : A) (l : list A) :
  fst <$> consecutive_pairs (l ++ [x]) = l.
Proof.
  induction l as [|a l IH]; [reflexivity |].
  destruct l as [|b l]; [reflexivity |].
  change (consecutive_pairs ((a :: b :: l) ++ [x]))
    with ((a, b) :: consecutive_pairs ((b :: l) ++ [x])).
  rewrite fmap_cons. cbn [fst]. f_equal. exact IH.
Qed.

Lemma snd_consecutive_pairs {A : Type} (x : A) (l : list A) :
  snd <$> consecutive_pairs (x :: l) = l.
Proof.
  revert x. induction l as [|a l IH]; intros x; [reflexivity |].
  change (consecutive_pairs (x :: a :: l))
    with ((x, a) :: consecutive_pairs (a :: l)).
  rewrite fmap_cons. cbn [snd]. f_equal. apply IH.
Qed.

(** The loop of the binary64 [score_window] adds the terms from the left. *)
Lemma foldlM_score_step_b64 (libm_log : Binary64.float -> Binary64.float)
  (sc : Binary64.LLRScorer) (l : list (string * string)) (s : Binary64.float) :
  foldlM (Binary64.score_step libm_log sc (Binary64.union_size sc)) s l =
  foldlM (fun s t => x ← t; mret (Binary64.fadd s x)) s
         (Binary64.llr_term libm_log sc <$> l).
Proof.
  revert s. induction l as [|b l IH]; intros s; [reflexivity |].
  rewrite fmap_cons. cbn [foldlM].
  assert (Hstep : Binary64.score_step libm_log sc (Binary64.union_size sc) s b =
                  (x ← Binary64.llr_term libm_log sc b;
                   mret (Binary64.fadd s x))).
  { unfold Binary64.score_step, Binary64.llr_term.
    destruct (Binary64.prob (Binary64.model_A sc) b.1 b.2 _) as [pA|e];
      [| reflexivity].
    rewrite !bind_Ok.
    destruct (Binary64.prob (Binary64.model_B sc) b.1 b.2 _) as [pB|e];
      [| reflexivity].
    rewrite !bind_Ok.
    destruct (Binary64.py_truediv pA pB) as [q|e]; [| reflexivity].
    rewrite !bind_Ok. reflexivity. }
  rewrite Hstep.
  destruct (Binary64.llr_term libm_log sc b) as [x|e]; [| reflexivity].
  rewrite !bind_Ok. apply IH.
Qed.

(** C2.  [score_window] is the sum, over the consecutive bigrams of
    [<s>, tokens..., </s>], of [log2(pA / pB)] with both probabilities taken
    at the size of the vocabulary union.  The bigrams are those of the
    wording, [(<s>, t1), (t1, t2), ..., (tn, </s>)]: one more than there
    are tokens, their left members [<s>, tokens...] and their right
    members [tokens..., </s>].  Read on real numbers, the score is the sum
    of the terms whenever the scorer has positive smoothing constants, and
    term by term, up to the first undefined term, for every scorer; on
    binary64 it is the same terms added from the left to [0.0].  Scoring
    reads the scorer and leaves it as it was, so a second call on the same
    window returns the same result. *)
Theorem score_window_is_llr_sum (sc : LLRScorer) (tokens : list string) :
  (length (window_bigrams tokens) = S (length tokens) /\
   fst <$> window_bigrams tokens = "<s>"%string :: tokens /\
   snd <$> window_bigrams tokens = tokens ++ ["</s>"%string]) /\
  (scorer_ok sc ->
   score_window sc tokens =
   Ok (Rsum (llr_term_value sc <$> window_bigrams tokens))) /\
  score_window sc tokens = sum_terms (llr_term sc <$> window_bigrams tokens) /\
  (forall (libm_log : Binary64.float -> Binary64.float)
          (sc64 : Binary64.LLRScorer),
     Binary64.score_window libm_log sc64 tokens =
     Binary64.sum_from_left
       (Binary64.llr_term libm_log sc64 <$> window_bigrams tokens)) /\
  fst (score_window_run tokens sc) = score_window sc tokens /\
  snd (score_window_run tokens sc) = sc /\
  fst (score_window_run tokens (snd (score_window_run tokens sc))) =
    fst (score_window_run tokens sc).
Proof.
  split.
  { assert (Hf : fst <$> window_bigrams tokens = "<s>"%string :: tokens)
      by apply (fst_consecutive_pairs "</s>"%string ("<s>"%string :: tokens)).
    split; [| split; [exact Hf | apply snd_consecutive_pairs]].
    rewrite <- (length_fmap fst), Hf. reflexivity. }
  split.
  { intros Hok. rewrite score_window_ok by done.
    unfold llr_sum. by rewrite bigrams_of_bracket. }
  split.
  { rewrite score_window_sum_result. unfold llr_sum_result.
    by rewrite bigrams_of_bracket. }
  split.
  { intros libm_log sc64. unfold Binary64.score_window, Binary64.sum_from_left.
    rewrite bigrams_of_bracket. apply foldlM_score_step_b64. }
  rewrite !score_window_run_pure. cbn [fst snd].
  rewrite ?score_window_run_pure. auto.
Qed.

Lemma score_window_is_llr_sum_witness :
  let sc := make_scorer (train ["a"; "a"; "b"]%string 1)
                        (train ["b"; "b"; "a"]%string 1) (1 / 4) in
  scorer_ok sc /\
  window_bigrams ["a"; "b"]%string =
    [("<s>", "a"); ("a", "b"); ("b", "</s>")]%string /\
  score_window sc ["a"; "b"]%string =
  Ok (Rsum (llr_term_value sc <$> window_bigrams ["a"; "b"]%string)).
Proof.
  intros sc.
  assert (Hok : scorer_ok sc) by (apply scorer_ok_trained; lra).
  split; [exact Hok |]. split; [reflexivity |].
  exact (proj1 (proj2 (score_window_is_llr_sum sc ["a"; "b"]%string)) Hok).
Defined.



(** C5.  With a neutral band of half-width [e >= 0]: a score above [e] is
    labelled for author A ("EMINESCU"), a score below [-e] for author B
    ("STANESCU"), and every score in between, the two boundary values
    [e] and [-e] included, is "NEITHER"; any positive step past a boundary
    leaves the band. *)
Theorem label_neutral_band (sc : LLRScorer) (s : R) :
  (0 <= eps_neither sc)%R ->
  let e := eps_neither sc in
  ((e < s)%R -> label sc s = "EMINESCU"%string) /\
  ((s < - e)%R -> label sc s = "STANESCU"%string) /\
  ((- e <= s <= e)%R -> label sc s = "NEITHER"%string) /\
  label sc e = "NEITHER"%string /\
  label sc (- e) = "NEITHER"%string /\
  (forall d : R, (0 < d)%R ->
     label sc (e + d) = "EMINESCU"%string /\
     label sc (- e - d) = "STANESCU"%string).
Proof.
  intros He e. unfold label. subst e.
  generalize dependent (eps_neither sc). intros e He.
  repeat split.
  - intros Hs. destruct (Rlt_dec e s); [reflexivity | contradiction].
  - intros Hs. destruct (Rlt_dec e s); [lra |].
    destruct (Rlt_dec s (- e)); [reflexivity | contradiction].
  - intros Hs. destruct (Rlt_dec e s); [lra |].
    destruct (Rlt_dec s (- e)); [lra | reflexivity].
  - destruct (Rlt_dec e e); [lra |].
    destruct (Rlt_dec e (- e)); [lra | reflexivity].
  - destruct (Rlt_dec e (- e)); [lra |].
    destruct (Rlt_dec (- e) (- e)); [lra | reflexivity].
  - destruct (Rlt_dec e (e + d)); [reflexivity | lra].
  - destruct (Rlt_dec e (- e - d)); [lra |].
    destruct (Rlt_dec (- e - d) (- e)); [reflexivity | lra].
Qed.

Lemma label_neutral_band_witness :
  let sc := make_scorer (train [] 1) (train [] 1) (1 / 4) in
  (0 <= eps_neither sc)%R /\
  label sc (1 / 4) = "NEITHER"%string /\
  label sc (- (1 / 4)) = "NEITHER"%string /\
  label sc (1 / 4 + 1) = "EMINESCU"%string.
Proof.
  intros sc.
  assert (He : (0 <= eps_neither sc)%R) by (simpl; lra).
  pose proof (label_neutral_band sc 0 He) as (_ & _ & _ & H1 & H2 & H3).
  split; [exact He |].
  split; [exact H1 |].
  split; [exact H2 |].
  apply (H3 1%R). lra.
Defined.

(** ** The scan *)

Lemma range_up_spec (fuel : nat) (i stop step : Z) :
  0 < step -> stop - i <= Z.of_nat fuel ->
  range_up fuel i stop step =
  (fun j => i + j * step) <$> seqZ 0 ((stop - i + step - 1) / step).
Proof.
  intros Hstep. revert i. induction fuel as [|fuel IH]; intros i Hfuel.
  - simpl. rewrite seqZ_nil; [reflexivity |].
    assert ((stop - i + step - 1) / step < 1); [| lia].
    apply Z.div_lt_upper_bound; lia.
  - cbn [range_up]. destruct (Z.ltb_spec i stop) as [Hlt|Hge].
    + rewrite IH by lia.
      replace ((stop - i + step - 1) / step)
        with ((stop - (i + step) + step - 1) / step + 1).
      2:{ rewrite <- (Z.div_add _ 1 step) by lia. f_equal. lia. }
      assert (Hc : 0 <= (stop - (i + step) + step - 1) / step).
      { apply Z.div_pos; lia. }
      rewrite (seqZ_cons 0 (_ + 1)) by lia.
      rewrite fmap_cons. f_equal; [lia |].
      replace (Z.pred ((stop - (i + step) + step - 1) / step + 1))
        with ((stop - (i + step) + step - 1) / step) by lia.
      rewrite <- (fmap_add_seqZ 1 0). rewrite <- list_fmap_compose.
      apply list_fmap_ext. intros _ j _. simpl. lia.
    + rewrite seqZ_nil; [reflexivity |].
      assert ((stop - i + step - 1) / step < 1); [| lia].
      apply Z.div_lt_upper_bound; lia.
Qed.

Lemma py_range_forward (stop step : Z) :
  1 <= step -> 1 <= stop ->
  py_range 0 stop step = Ok (window_starts step ((stop - 1) / step + 1)).
Proof.
  intros Hstep Hstop. unfold py_range.
  destruct (Z.eqb_spec step 0); [lia |].
  destruct (Z.ltb_spec 0 step); [| lia].
  rewrite range_up_spec by lia.
  f_equal. unfold window_starts.
  replace ((stop - 0 + step - 1) / step) with ((stop - 1) / step + 1).
  2:{ rewrite <- (Z.div_add _ 1 step) by lia. f_equal. lia. }
  apply list_fmap_ext. intros _ j _. lia.
Qed.

Lemma py_range_unit (start stop : Z) :
  py_range start stop 1 = Ok (seqZ start (stop - start)).
Proof.
  unfold py_range. simpl.
  rewrite range_up_spec by lia. f_equal.
  replace ((stop - start + 1 - 1) / 1) with (stop - start)
    by (rewrite Z.div_1_r; lia).
  replace (seqZ start (stop - start)) with (seqZ (start + 0) (stop - start))
    by (f_equal; lia).
  rewrite <- (fmap_add_seqZ start 0).
  apply list_fmap_ext. intros _ j _. lia.
Qed.

Lemma py_range_backward_empty (stop step : Z) :
  step < 0 -> 0 <= stop -> py_range 0 stop step = Ok [].
Proof.
  intros Hstep Hstop. unfold py_range.
  destruct (Z.eqb_spec step 0); [lia |].
  destruct (Z.ltb_spec 0 step); [lia |].
  replace (Z.to_nat (0 - stop)) with 0%nat by lia. reflexivity.
Qed.

Lemma effective_window_bounds (window n : Z) :
  2 <= n -> 2 <= effective_window window n <= n.
Proof. unfold effective_window. lia. Qed.

Lemma length_py_slice {A : Type} (l : list A) (i w : Z) :
  0 <= i -> 0 <= w -> i + w <= len l ->
  len (py_slice l i (i + w)) = w.
Proof.
  intros Hi Hw Hn. unfold py_slice, slice_bound, len in *.
  destruct (Z.ltb_spec i 0); [lia |].
  destruct (Z.ltb_spec (i + w) 0); [lia |].
  rewrite length_take, length_drop. lia.
Qed.

Lemma window_row_ok (tokens : list string) (sc : LLRScorer) (w i : Z)
  (acc : list WindowReport) :
  scorer_ok sc ->
  window_row tokens sc w acc i = Ok (acc ++ [window_report_at tokens sc w i]).
Proof.
  intros Hok. unfold window_row.
  rewrite score_window_ok by exact Hok. reflexivity.
Qed.

Lemma foldlM_window_row (tokens : list string) (sc : LLRScorer) (w : Z)
  (idx : list Z) (acc : list WindowReport) :
  scorer_ok sc ->
  foldlM (window_row tokens sc w) acc idx =
  Ok (acc ++ (window_report_at tokens sc w <$> idx)).
Proof.
  intros Hok. revert acc. induction idx as [|i idx IH]; intros acc.
  - simpl. by rewrite app_nil_r.
  - rewrite fmap_cons. cbn [foldlM].
    rewrite window_row_ok by exact Hok. rewrite bind_Ok.
    rewrite IH. by rewrite <- app_assoc.
Qed.

(** The scan of a sequence of at least two tokens with a positive stride:
    one report per start index. *)
Lemma scan_rows (tokens : list string) (sc : LLRScorer) (window step : Z) :
  scorer_ok sc -> 2 <= len tokens -> 1 <= step ->
  let n := len tokens in
  let w := effective_window window n in
  sliding_window_scores tokens sc window step =
  Ok (window_report_at tokens sc w <$> window_starts step ((n - w) / step + 1)).
Proof.
  intros Hok Hn Hstep n w.
  pose proof (effective_window_bounds window n Hn) as Hw. fold w in Hw.
  unfold sliding_window_scores. fold n.
  destruct (Z.ltb_spec n 2); [lia |].
  change (Z.max 2 (Z.min window n)) with w.
  rewrite py_range_forward by lia. simpl.
  rewrite foldlM_window_row by exact Hok. simpl.
  by replace (n - w + 1 - 1) with (n - w) by lia.
Qed.

Lemma window_starts_bounds (step count j : Z) :
  1 <= step -> j ∈ window_starts step count ->
  0 <= j <= (count - 1) * step.
Proof.
  intros Hstep Hj. unfold window_starts in Hj.
  apply list_elem_of_fmap in Hj as (i & -> & Hi).
  apply elem_of_seqZ in Hi. nia.
Qed.

Lemma py_truediv_raise (a b : R) (e : PyError) :
  py_truediv a b = Raise e -> e = ZeroDivisionError.
Proof.
  unfold py_truediv. destruct (Req_dec_T b 0); [| discriminate].
  by intros [= <-].
Qed.

Lemma py_log_raise (x base : R) (e : PyError) :
  py_log x base = Raise e -> numeric_error e.
Proof.
  unfold py_log, numeric_error.
  destruct (Rlt_dec 0 x); [| intros [= <-]; by right].
  destruct (Rlt_dec 0 base); [| intros [= <-]; by right].
  intros E. left. by eapply py_truediv_raise.
Qed.

Lemma score_step_raise (sc : LLRScorer) (V : Z) (s : R) (b : string * string)
  (e : PyError) :
  score_step sc V s b = Raise e -> numeric_error e.
Proof.
  unfold score_step.
  destruct (prob (model_A sc) b.1 b.2 V) as [pA|eA] eqn:EA.
  2:{ intros [= <-]. left. by eapply py_truediv_raise. }
  destruct (prob (model_B sc) b.1 b.2 V) as [pB|eB] eqn:EB.
  2:{ intros [= <-]. left. by eapply py_truediv_raise. }
  rewrite !bind_Ok.
  destruct (py_truediv pA pB) as [q|eq] eqn:Eq.
  2:{ intros [= <-]. left. by eapply py_truediv_raise. }
  rewrite bind_Ok.
  destruct (py_log q 2) as [t|el] eqn:El.
  - discriminate.
  - intros [= <-]. by eapply py_log_raise.
Qed.

Lemma score_window_raise (sc : LLRScorer) (tokens : list string) (e : PyError) :
  score_window sc tokens = Raise e -> numeric_error e.
Proof.
  unfold score_window. generalize (bigrams_of (bracket tokens)) 0%R.
  intros l. induction l as [|b l IH]; intros s; cbn [foldlM].
  - discriminate.
  - destruct (score_step sc _ s b) as [s'|e'] eqn:E.
    + rewrite bind_Ok. apply IH.
    + rewrite bind_Raise. intros [= <-]. by eapply score_step_raise.
Qed.

Lemma window_row_cases (tokens : list string) (sc : LLRScorer) (w i : Z)
  (acc : list WindowReport) :
  window_row tokens sc w acc i =
  match score_window sc (py_slice tokens i (i + w)) with
  | Ok v =>
      Ok (acc ++ [ {| w_start := i; w_end := i + w; w_score := v;
                      w_label := label sc v;
                      w_snippet := join " " (py_slice tokens i (i + w)) |} ])
  | Raise e => Raise e
  end.
Proof. unfold window_row. by destruct (score_window sc _). Qed.

(** Whatever the scorer, the loop of the scan either raises the exception
    of a score or appends one report per index, starting at that index and
    [w] long. *)
Lemma foldlM_window_row_any (tokens : list string) (sc : LLRScorer) (w : Z)
  (idx : list Z) (acc : list WindowReport) :
  match foldlM (window_row tokens sc w) acc idx with
  | Raise e => numeric_error e
  | Ok rows =>
      exists rows' : list WindowReport,
        rows = acc ++ rows' /\
        w_start <$> rows' = idx /\
        Forall (fun r => w_end r = w_start r + w) rows'
  end.
Proof.
  revert acc. induction idx as [|i idx IH]; intros acc; cbn [foldlM].
  - exists []. by rewrite app_nil_r.
  - rewrite window_row_cases.
    destruct (score_window sc (py_slice tokens i (i + w))) as [v|e] eqn:E.
    + rewrite bind_Ok.
      match goal with
      | |- context [foldlM _ ?a idx] => specialize (IH a)
      end.
      destruct (foldlM _ _ idx) as [rows|e]; [| exact IH].
      destruct IH as (rows' & -> & Hst & Hen).
      eexists (_ :: rows'). rewrite <- app_assoc. split; [reflexivity |].
      split; [by rewrite fmap_cons, Hst |].
      by constructor.
    + rewrite bind_Raise. by eapply score_window_raise.
Qed.

(** The scan, whatever the scorer and the stride: an exception it raises is
    [ValueError] or [ZeroDivisionError], and the reports it returns cover
    only positions of the sequence. *)
Lemma scan_any (tokens : list string) (sc : LLRScorer) (window step : Z) :
  match sliding_window_scores tokens sc window step with
  | Raise e => numeric_error e
  | Ok rows => Forall (report_in_range (len tokens)) rows
  end.
Proof.
  unfold sliding_window_scores.
  destruct (Z.ltb_spec (len tokens) 2) as [Hlt|Hn]; [constructor |].
  set (n := len tokens) in *.
  pose proof (effective_window_bounds window n Hn) as Hw.
  change (Z.max 2 (Z.min window n)) with (effective_window window n).
  set (w := effective_window window n) in *.
  destruct (Z.lt_trichotomy step 0) as [Hneg|[Hz|Hpos]].
  - rewrite py_range_backward_empty by lia. constructor.
  - subst step. right. reflexivity.
  - rewrite py_range_forward by lia. rewrite bind_Ok.
    pose proof (foldlM_window_row_any tokens sc w
                  (window_starts step ((n - w + 1 - 1) / step + 1)) []) as H.
    destruct (foldlM _ _ _) as [rows|e]; [| exact H].
    destruct H as (rows' & -> & Hst & Hen). simpl.
    apply Forall_forall. intros r Hr.
    assert (Hj : w_start r ∈ window_starts step ((n - w + 1 - 1) / step + 1)).
    { rewrite <- Hst. by apply list_elem_of_fmap_2. }
    apply window_starts_bounds in Hj; [| lia].
    rewrite Forall_forall in Hen. specialize (Hen r Hr).
    replace (n - w + 1 - 1) with (n - w) in Hj by lia.
    assert (Hlo : step * ((n - w) / step) <= n - w)
      by (apply Z.mul_div_le; lia).
    intros i Hi. unfold covers in Hi.
    apply andb_true_iff in Hi as [H1 H2].
    apply Z.leb_le in H1. apply Z.ltb_lt in H2. nia.
Qed.

(** Whatever the scorer: the reports the scan returns for at least two
    tokens and a positive stride start at [0, step, 2*step, ...] and are
    [w] long, [w] being the effective window. *)
Lemma scan_any_rows (tokens : list string) (sc : LLRScorer) (window step : Z)
  (rows : list WindowReport) :
  2 <= len tokens -> 1 <= step ->
  sliding_window_scores tokens sc window step = Ok rows ->
  let n := len tokens in
  let w := effective_window window n in
  w_start <$> rows = window_starts step ((n - w) / step + 1) /\
  Forall (fun r => w_end r = w_start r + w) rows.
Proof.
  intros Hn Hstep. unfold sliding_window_scores.
  destruct (Z.ltb_spec (len tokens) 2); [lia |].
  pose proof (effective_window_bounds window (len tokens) Hn) as Hw.
  change (Z.max 2 (Z.min window (len tokens)))
    with (effective_window window (len tokens)).
  rewrite py_range_forward by lia. rewrite bind_Ok.
  replace (len tokens - effective_window window (len tokens) + 1 - 1)
    with (len tokens - effective_window window (len tokens)) by lia.
  pose proof (foldlM_window_row_any tokens sc
                (effective_window window (len tokens))
                (window_starts step
                   ((len tokens - effective_window window (len tokens)) / step + 1))
                []) as Hany.
  intros E. rewrite E in Hany. destruct Hany as (rows' & -> & Hst & Hen). done.
Qed.

(** C3.  For a sequence of [n >= 2] tokens, a stride [step >= 1] and the
    effective window [window <= n] (the requested one when it lies between
    2 and [n]), the scan returns exactly [floor((n - window) / step) + 1]
    reports; their start indices are [0, step, 2*step, ...], each with
    [start + window <= n], the next multiple of [step] would overrun, and
    every report has [end - start = window] and a snippet of [window]
    tokens.  The scan returns whenever scoring is defined (positive
    smoothing constants); its only other outcome is the exception of a
    score that is not defined. *)
Theorem scan_window_count (tokens : list string) (sc : LLRScorer)
  (window step : Z) :
  2 <= len tokens -> 1 <= step ->
  let n := len tokens in
  let w := effective_window window n in
  let count := (n - w) / step + 1 in
  w <= n /\
  (2 <= window <= n -> w = window) /\
  (scorer_ok sc ->
   exists rows : list WindowReport,
     sliding_window_scores tokens sc window step = Ok rows) /\
  (forall e : PyError,
     sliding_window_scores tokens sc window step = Raise e -> numeric_error e) /\
  (forall rows : list WindowReport,
     sliding_window_scores tokens sc window step = Ok rows ->
     len rows = count /\
     w_start <$> rows = window_starts step count /\
     Forall (fun r =>
               w_end r - w_start r = w /\
               0 <= w_start r /\ w_start r + w <= n /\
               len (py_slice tokens (w_start r) (w_end r)) = w) rows /\
     n < count * step + w).
Proof.
  intros Hn Hstep n w count.
  pose proof (effective_window_bounds window n Hn) as Hw. fold w in Hw.
  assert (Hq : 0 <= (n - w) / step) by (apply Z.div_pos; lia).
  assert (Hlo : step * ((n - w) / step) <= n - w)
    by (apply Z.mul_div_le; lia).
  assert (Hhi : n - w < step * Z.succ ((n - w) / step))
    by (apply Z.mul_succ_div_gt; lia).
  split; [lia |].
  split; [unfold w, effective_window; lia |].
  split.
  { intros Hok. eexists. by apply scan_rows. }
  split.
  { intros e He. pose proof (scan_any tokens sc window step) as H.
    by rewrite He in H. }
  intros rows Hrows.
  destruct (scan_any_rows tokens sc window step rows Hn Hstep Hrows)
    as [Hst Hen].
  fold n in Hst, Hen. fold w in Hst, Hen. fold count in Hst.
  split.
  { unfold len. rewrite <- (length_fmap w_start), Hst.
    unfold window_starts. rewrite length_fmap, length_seqZ.
    unfold count. lia. }
  split; [exact Hst |].
  split; [| unfold count; lia].
  apply Forall_forall. intros r Hr.
  assert (Hj : w_start r ∈ window_starts step count).
  { rewrite <- Hst. by apply list_elem_of_fmap_2. }
  apply window_starts_bounds in Hj; [| done].
  rewrite Forall_forall in Hen. specialize (Hen r Hr).
  assert (Hjn : w_start r + w <= n) by (unfold count in Hj; nia).
  split; [lia |]. split; [lia |]. split; [lia |].
  rewrite Hen. apply length_py_slice; lia.
Qed.

Lemma scan_window_count_witness :
  let sc := make_scorer (train ["a"; "a"; "b"]%string 1)
                        (train ["b"; "b"; "a"]%string 1) (1 / 4) in
  let tokens := ["a"; "b"; "a"; "b"; "b"]%string in
  2 <= len tokens /\ 1 <= 2 /\ scorer_ok sc /\
  exists rows : list WindowReport,
    sliding_window_scores tokens sc 2 2 = Ok rows /\
    len rows = 2 /\
    w_start <$> rows = [0; 2].
Proof.
  intros sc tokens.
  assert (Hok : scorer_ok sc) by (apply scorer_ok_trained; lra).
  assert (Hn : 2 <= len tokens) by (vm_compute; discriminate).
  assert (Hstep : 1 <= 2) by lia.
  split; [exact Hn |]. split; [exact Hstep |]. split; [exact Hok |].
  destruct (scan_window_count tokens sc 2 2 Hn Hstep)
    as (_ & _ & Hret & _ & Hprops).
  destruct (Hret Hok) as [rows Hrows].
  destruct (Hprops rows Hrows) as (Hlen & Hstarts & _).
  exists rows. split; [exact Hrows |]. split; [exact Hlen | exact Hstarts].
Defined.

Lemma scan_fewer_than_two (tokens : list string) (sc : LLRScorer)
  (window step : Z) :
  len tokens < 2 -> sliding_window_scores tokens sc window step = Ok [].
Proof.
  intros Hn. unfold sliding_window_scores.
  destruct (Z.ltb_spec (len tokens) 2); [reflexivity | lia].
Qed.

(** C4.  A sequence of fewer than two tokens makes the scan return the
    empty list, without an exception, whatever the scorer, the window and
    the stride.  For a sequence of [n >= 2] tokens and a stride
    [step >= 1], the scan returns whenever scoring is defined, and what it
    returns always holds at least one report, whatever window is requested;
    when the requested window exceeds [n], the effective window is
    [max(2, min(window, n)) = n] and there is exactly one report, spanning
    [0, n). *)
Theorem scan_short_input (tokens : list string) (sc : LLRScorer)
  (window step : Z) :
  (len tokens < 2 -> sliding_window_scores tokens sc window step = Ok []) /\
  (2 <= len tokens -> 1 <= step ->
   (scorer_ok sc ->
    exists (r : WindowReport) (rows : list WindowReport),
      sliding_window_scores tokens sc window step = Ok (r :: rows)) /\
   (forall rows : list WindowReport,
      sliding_window_scores tokens sc window step = Ok rows ->
      rows <> [] /\
      (len tokens < window ->
       Z.max 2 (Z.min window (len tokens)) = len tokens /\
       exists r : WindowReport,
         rows = [r] /\ w_start r = 0 /\ w_end r = len tokens))).
Proof.
  split; [apply scan_fewer_than_two |].
  intros Hn Hstep.
  pose proof (effective_window_bounds window (len tokens) Hn) as Hw.
  set (n := len tokens) in *. set (w := effective_window window n) in *.
  assert (Hq : 0 <= (n - w) / step) by (apply Z.div_pos; lia).
  assert (Hany : forall rows : list WindowReport,
    sliding_window_scores tokens sc window step = Ok rows ->
    rows <> [] /\
    (n < window ->
     Z.max 2 (Z.min window n) = n /\
     exists r : WindowReport, rows = [r] /\ w_start r = 0 /\ w_end r = n)).
  { intros rows Hrows.
    destruct (scan_any_rows tokens sc window step rows Hn Hstep Hrows)
      as [Hst Hen].
    fold n in Hst, Hen. fold w in Hst, Hen.
    unfold window_starts in Hst.
    rewrite (seqZ_cons 0) in Hst by lia. rewrite fmap_cons in Hst.
    destruct rows as [|r rows]; [done |]. split; [done |].
    intros Hlt.
    assert (Hwn : w = n) by (unfold w, effective_window; lia).
    split; [exact Hwn |].
    rewrite Hwn, Z.sub_diag, Z.div_0_l in Hst by lia.
    rewrite fmap_cons in Hst. simpl in Hst.
    injection Hst as Hr0 Hrest. apply fmap_nil_inv in Hrest. subst rows.
    exists r. split; [done |]. split; [done |].
    apply Forall_inv in Hen. lia. }
  split; [| exact Hany].
  intros Hok.
  pose proof (scan_rows tokens sc window step Hok Hn Hstep) as Hrows.
  cbv zeta in Hrows.
  destruct (Hany _ Hrows) as [Hne _].
  rewrite Hrows.
  destruct (window_report_at tokens sc (effective_window window (len tokens)) <$> _)
    as [|r rows]; [done |].
  by exists r, rows.
Qed.

Lemma scan_short_input_witness :
  let sc := make_scorer (train ["a"; "a"; "b"]%string 1)
                        (train ["b"; "b"; "a"]%string 1) (1 / 4) in
  (len ["a"]%string < 2 /\
   sliding_window_scores ["a"]%string sc 20 1 = Ok []) /\
  (2 <= len ["a"; "b"; "a"]%string /\ 1 <= 1 /\ scorer_ok sc /\
   len ["a"; "b"; "a"]%string < 20 /\
   exists r : WindowReport,
     sliding_window_scores ["a"; "b"; "a"]%string sc 20 1 = Ok [r] /\
     w_start r = 0 /\ w_end r = len ["a"; "b"; "a"]%string).
Proof.
  intros sc.
  assert (Hok : scorer_ok sc) by (apply scorer_ok_trained; lra).
  assert (H1 : len ["a"]%string < 2) by (vm_compute; reflexivity).
  assert (H3 : 2 <= len ["a"; "b"; "a"]%string) by (vm_compute; discriminate).
  assert (H20 : len ["a"; "b"; "a"]%string < 20) by (vm_compute; reflexivity).
  assert (Hstep : 1 <= 1) by lia.
  split.
  - split; [exact H1 |].
    exact (proj1 (scan_short_input ["a"]%string sc 20 1) H1).
  - split; [exact H3 |]. split; [exact Hstep |].
    split; [exact Hok |]. split; [exact H20 |].
    destruct (proj2 (scan_short_input ["a"; "b"; "a"]%string sc 20 1) H3 Hstep)
      as [Hret Hany].
    destruct (Hret Hok) as (r & rows & Hrows).
    destruct (Hany _ Hrows) as (_ & Hone).
    destruct (Hone H20) as (_ & r' & Hr' & Hs & He).
    exists r'. rewrite Hrows, Hr'. auto.
Defined.

(** ** Loops over a range *)

(** A loop over [range(a, a + m)] that keeps an invariant and never raises
    ends with the invariant at [a + m]. *)
Lemma foldlM_seqZ_inv {B : Type} (f : B -> Z -> result B)
  (Inv : Z -> B -> Prop) (m : nat) (a : Z) (st0 : B) :
  Inv a st0 ->
  (forall (i : Z) (st : B), a <= i < a + Z.of_nat m -> Inv i st ->
     exists st' : B, f st i = Ok st' /\ Inv (i + 1) st') ->
  exists st' : B,
    foldlM f st0 (seqZ a (Z.of_nat m)) = Ok st' /\ Inv (a + Z.of_nat m) st'.
Proof.
  revert a st0. induction m as [|m IH]; intros a st0 H0 Hstep.
  - exists st0. split; [reflexivity |]. by rewrite Z.add_0_r.
  - rewrite seqZ_cons by lia. cbn [foldlM].
    destruct (Hstep a st0) as (st1 & E1 & H1); [lia | done |].
    rewrite E1, bind_Ok.
    replace (Z.pred (Z.of_nat (S m))) with (Z.of_nat m) by lia.
    destruct (IH (Z.succ a) st1) as (st' & E' & H').
    + by replace (Z.succ a) with (a + 1) by lia.
    + intros i st Hi. apply Hstep. lia.
    + exists st'. split; [exact E' |].
      by replace (a + Z.of_nat (S m)) with (Z.succ a + Z.of_nat m) by lia.
Qed.

Lemma py_index_in_range (n i : Z) :
  0 <= i < n -> py_index n i = Ok (Z.to_nat i).
Proof.
  intros Hi. unfold py_index.
  destruct (Z.leb_spec 0 i); [| lia].
  destruct (Z.ltb_spec i n); [reflexivity | lia].
Qed.

Lemma py_getitem_ok {A : Type} (l : list A) (i : Z) (x : A) :
  0 <= i -> l !! Z.to_nat i = Some x -> py_getitem l i = Ok x.
Proof.
  intros Hi Hx. unfold py_getitem.
  assert (Hlt : (Z.to_nat i < length l)%nat) by (by eapply lookup_lt_Some).
  rewrite py_index_in_range by (unfold len; lia).
  rewrite bind_Ok, Hx. reflexivity.
Qed.

Lemma py_slice_take_drop {A : Type} (l : list A) (a b : Z) :
  0 <= a <= b -> b <= len l ->
  py_slice l a b = take (Z.to_nat b - Z.to_nat a) (drop (Z.to_nat a) l).
Proof.
  intros Hab Hb. unfold py_slice, slice_bound.
  destruct (Z.ltb_spec a 0); [lia |].
  destruct (Z.ltb_spec b 0); [lia |].
  f_equal; [lia |]. f_equal. lia.
Qed.

Lemma take_app_py_slice {A : Type} (l : list A) (a b : Z) :
  0 <= a <= b -> b <= len l ->
  take (Z.to_nat a) l ++ py_slice l a b = take (Z.to_nat b) l.
Proof.
  intros Hab Hb. rewrite py_slice_take_drop by done.
  rewrite take_take_drop. f_equal. lia.
Qed.

Lemma py_slice_from_eq {A : Type} (l : list A) (a : Z) :
  0 <= a <= len l -> py_slice_from l a = py_slice l a (len l).
Proof.
  intros Ha. rewrite py_slice_take_drop by lia.
  unfold py_slice_from, slice_bound.
  destruct (Z.ltb_spec a 0); [lia |].
  replace (Z.min a (len l)) with a by lia.
  rewrite take_ge; [reflexivity |].
  rewrite length_drop. unfold len. lia.
Qed.

(** ** Segments *)

Lemma seg_chain_le (segs : list Segment) (a b : Z) :
  seg_chain a segs b -> a <= b.
Proof.
  revert a. induction segs as [|s segs IH]; intros a; simpl.
  - lia.
  - intros (_ & Hlt & Hrest). apply IH in Hrest. lia.
Qed.

Lemma seg_chain_snoc (segs : list Segment) (s : Segment) (a : Z) :
  seg_chain a segs (seg_start s) -> seg_start s < seg_end s ->
  seg_chain a (segs ++ [s]) (seg_end s).
Proof.
  revert a. induction segs as [|s' segs IH]; intros a; simpl.
  - intros -> Hlt. auto.
  - intros (Hs & Hlt & Hrest) Hse. auto.
Qed.

(** In a chain from [a] to [b], a position lies in exactly one segment
    when it is in [a, b), and in none otherwise. *)
Lemma seg_chain_cover (segs : list Segment) (a b i : Z) :
  seg_chain a segs b ->
  length (filter (fun s => seg_covers i s = true) segs) =
  if (a <=? i) && (i <? b) then 1%nat else 0%nat.
Proof.
  revert a. induction segs as [|s segs IH]; intros a; simpl.
  - intros ->. destruct (Z.leb_spec b i), (Z.ltb_spec i b); simpl; try lia.
    all: reflexivity.
  - intros (Hs & Hlt & Hrest).
    pose proof (seg_chain_le _ _ _ Hrest) as Hle.
    rewrite filter_cons. specialize (IH _ Hrest).
    destruct (decide (seg_covers i s = true)) as [Hc|Hc];
      unfold seg_covers in Hc; rewrite Hs in Hc;
      cbn [length]; rewrite IH;
      destruct (Z.leb_spec a i), (Z.ltb_spec i (seg_end s)),
        (Z.leb_spec (seg_end s) i), (Z.ltb_spec i b);
      simpl in *; try lia; try congruence.
Qed.

Lemma label_changes_snoc (l : list string) (a b : string) :
  label_changes (l ++ [a; b]) =
  (label_changes (l ++ [a]) + (if decide (b ≠ a) then 1 else 0))%nat.
Proof.
  induction l as [|x l IH].
  - simpl. lia.
  - destruct l as [|y l].
    + simpl. lia.
    + change ((x :: y :: l) ++ [a; b]) with (x :: (y :: l) ++ [a; b]).
      change ((x :: y :: l) ++ [a]) with (x :: (y :: l) ++ [a]).
      cbn [label_changes app] in *. rewrite IH. lia.
Qed.

Lemma label_changes_take (labels : list string) (i : nat) (a b : string) :
  labels !! i = Some a -> labels !! S i = Some b ->
  label_changes (take (S (S i)) labels) =
  (label_changes (take (S i) labels) + (if decide (b ≠ a) then 1 else 0))%nat.
Proof.
  intros Ha Hb.
  rewrite (take_S_r _ (S i) b) by done.
  rewrite (take_S_r _ i a) by done.
  rewrite <- app_assoc. apply label_changes_snoc.
Qed.

Lemma segments_step_inv (tokens labels : list string) (i : Z) (st : seg_state) :
  length labels = length tokens ->
  1 <= i < len tokens ->
  segments_inv tokens labels i st ->
  exists st' : seg_state,
    segments_step tokens labels st i = Ok st' /\
    segments_inv tokens labels (i + 1) st'.
Proof.
  intros Hlen Hi Hinv. destruct st as [[segs cur] start].
  destruct Hinv as (Hstart & Hchain & Hcur & Hcount & Hcat & Htext).
  unfold len in Hi.
  destruct (lookup_lt_is_Some_2 labels (Z.to_nat i)) as [li Hli]; [lia |].
  unfold segments_step. rewrite (py_getitem_ok labels i li) by (done || lia).
  rewrite bind_Ok.
  assert (Hsucc : Z.to_nat (i + 1) = S (S (Z.to_nat (i - 1)))) by lia.
  assert (Hpred : Z.to_nat i = S (Z.to_nat (i - 1))) by lia.
  assert (Hchg : label_changes (take (Z.to_nat (i + 1)) labels) =
                 (label_changes (take (Z.to_nat i) labels) +
                  (if decide (li ≠ cur) then 1 else 0))%nat).
  { rewrite Hsucc, Hpred. apply label_changes_take; [done |].
    by rewrite <- Hpred. }
  destruct (decide (li ≠ cur)) as [Hne|Heq].
  - eexists. split; [reflexivity |].
    unfold segments_inv.
    split; [lia |].
    split; [by apply (seg_chain_snoc segs (mkSegment cur start i _)); simpl; [| lia] |].
    split; [by replace (i + 1 - 1) with i by lia |].
    split; [rewrite length_app, Hchg, Hcount; simpl; lia |].
    split.
    + rewrite fmap_app, concat_app, Hcat. simpl. rewrite app_nil_r.
      unfold seg_tokens. simpl.
      apply take_app_py_slice; unfold len; lia.
    + apply Forall_app. split; [done |]. by constructor.
  - eexists. split; [reflexivity |].
    apply dec_stable in Heq. subst li.
    unfold segments_inv.
    split; [lia |]. split; [done |].
    split; [by replace (i + 1 - 1) with i by lia |].
    split; [rewrite Hchg, Hcount; lia |]. done.
Qed.

(** The segments of a non-empty sequence with as many labels as tokens:
    the function returns, and what it returns has the properties below. *)
Lemma segments_returns (tokens labels : list string) :
  tokens <> [] -> length labels = length tokens ->
  exists segs : list Segment,
    segments tokens labels = Ok segs /\
    seg_chain 0 segs (len tokens) /\
    concat (seg_tokens tokens <$> segs) = tokens /\
    length segs = (1 + label_changes labels)%nat /\
    Forall (fun s => seg_text s = join " " (seg_tokens tokens s)) segs.
Proof.
  intros Hne Hlen.
  destruct tokens as [|t ts]; [done |].
  destruct labels as [|l0 ls]; [done |].
  set (tokens := t :: ts) in *. set (labels := l0 :: ls) in *.
  assert (Hn : len tokens = 1 + Z.of_nat (length ts))
    by (unfold len, tokens; simpl; lia).
  destruct (foldlM_seqZ_inv (segments_step tokens labels)
              (segments_inv tokens labels) (length ts) 1 ([], l0, 0))
    as (st & Hfold & Hinv).
  { unfold segments_inv. simpl. repeat split; try lia; done. }
  { intros i st Hi. apply segments_step_inv; [done | lia]. }
  destruct st as [[segs cur] start].
  destruct Hinv as (Hstart & Hchain & Hcur & Hcount & Hcat & Htext).
  set (final := {| seg_label := cur; seg_start := start; seg_end := len tokens;
                   seg_text := join " " (py_slice_from tokens start) |}).
  exists (segs ++ [final]).
  split.
  { unfold segments. fold tokens.
    change (py_getitem labels 0) with (Ok l0 : result string).
    rewrite bind_Ok, py_range_unit, bind_Ok.
    replace (len tokens - 1) with (Z.of_nat (length ts)) by lia.
    rewrite Hfold. reflexivity. }
  split.
  { apply (seg_chain_snoc segs final); simpl; [done | lia]. }
  split.
  { rewrite fmap_app, concat_app, Hcat. simpl. rewrite app_nil_r.
    unfold seg_tokens. simpl.
    rewrite take_app_py_slice by lia.
    apply take_ge. unfold len. lia. }
  split.
  { rewrite length_app, Hcount. cbn [length].
    rewrite take_ge by (rewrite Hlen; unfold tokens; simpl; lia). lia. }
  apply Forall_app. split; [done |]. constructor; [| done].
  unfold seg_tokens. simpl. by rewrite py_slice_from_eq by lia.
Qed.

(** C7.  For a non-empty token sequence and as many labels as tokens,
    [segments] returns segments that lie end to end from position 0 to the
    number of tokens, each non-empty and starting where the one before it
    ends (contiguous, disjoint, in left-to-right order); every position is
    in exactly one of them; the token ranges of the segments, concatenated
    in order, are the token sequence; and there are 1 + (number of
    positions whose label differs from the label before) segments.  The
    text of each segment is its token range joined by spaces. *)
Theorem segments_partition (tokens labels : list string) :
  tokens <> [] -> length labels = length tokens ->
  exists segs : list Segment,
    segments tokens labels = Ok segs /\
    seg_chain 0 segs (len tokens) /\
    (forall i : Z, 0 <= i < len tokens ->
       length (filter (fun s => seg_covers i s = true) segs) = 1%nat) /\
    concat (seg_tokens tokens <$> segs) = tokens /\
    length segs = (1 + label_changes labels)%nat /\
    Forall (fun s => seg_text s = join " " (seg_tokens tokens s)) segs.
Proof.
  intros Hne Hlen.
  destruct (segments_returns tokens labels Hne Hlen)
    as (segs & Hsegs & Hchain & Hcat & Hcount & Htext).
  exists segs. split; [exact Hsegs |]. split; [exact Hchain |].
  split; [| auto].
  intros i Hi. rewrite (seg_chain_cover _ 0 (len tokens)) by done.
  destruct (Z.leb_spec 0 i), (Z.ltb_spec i (len tokens)); simpl; lia || done.
Qed.

Lemma segments_partition_witness :
  let tokens := ["a"; "b"; "c"; "d"]%string in
  let labels := ["NEITHER"; "NEITHER"; "EMINESCU"; "NEITHER"]%string in
  tokens <> [] /\ length labels = length tokens /\
  exists segs : list Segment,
    segments tokens labels = Ok segs /\
    concat (seg_tokens tokens <$> segs) = tokens /\
    length segs = 3%nat.
Proof.
  intros tokens labels.
  assert (Hne : tokens <> []) by discriminate.
  assert (Hlen : length labels = length tokens) by reflexivity.
  split; [exact Hne |]. split; [exact Hlen |].
  destruct (segments_partition tokens labels Hne Hlen)
    as (segs & Hsegs & _ & _ & Hcat & Hcount & _).
  exists segs. split; [exact Hsegs |]. split; [exact Hcat | exact Hcount].
Defined.

(** ** The aggregation *)

Lemma label_in_band (sc : LLRScorer) (s : R) :
  (- eps_neither sc <= s <= eps_neither sc)%R -> label sc s = "NEITHER"%string.
Proof.
  intros Hs. unfold label.
  destruct (Rlt_dec (eps_neither sc) s); [lra |].
  destruct (Rlt_dec s (- eps_neither sc)); [lra | reflexivity].
Qed.

Lemma py_update_in_range {A : Type} (f : A -> A) (l : list A) (i : Z) :
  0 <= i < len l -> py_update f l i = Ok (alter f (Z.to_nat i) l).
Proof.
  intros Hi. unfold py_update. by rewrite py_index_in_range.
Qed.

Lemma add_at_in_range (v : R) (sums : list R) (cnts : list nat) (j : Z) :
  0 <= j < len sums -> len cnts = len sums ->
  add_at v (sums, cnts) j =
  Ok (alter (fun x => (x + v)%R) (Z.to_nat j) sums,
      alter (fun c => (c + 1)%nat) (Z.to_nat j) cnts).
Proof.
  intros Hj Hlen. unfold add_at. simpl.
  rewrite (py_update_in_range _ sums) by exact Hj. rewrite bind_Ok.
  rewrite (py_update_in_range _ cnts) by lia. reflexivity.
Qed.

(** The inner loop over [range(a, a + m)], all of whose indices are
    positions of the two lists, adds [v] and 1 at the positions of the
    range and leaves the others. *)
Lemma foldlM_add_at (v : R) (n : nat) (m : nat) (a : Z)
  (sums0 : list R) (cnts0 : list nat) :
  length sums0 = n -> length cnts0 = n ->
  0 <= a -> a + Z.of_nat m <= Z.of_nat n ->
  exists (sums : list R) (cnts : list nat),
    foldlM (add_at v) (sums0, cnts0) (seqZ a (Z.of_nat m)) = Ok (sums, cnts) /\
    length sums = n /\ length cnts = n /\
    forall (i : nat) (x : R) (c : nat),
      sums0 !! i = Some x -> cnts0 !! i = Some c ->
      exists y : R,
        sums !! i = Some y /\
        y = (x + (if in_range a (a + Z.of_nat m) (Z.of_nat i) then v else 0))%R /\
        cnts !! i =
          Some (c + (if in_range a (a + Z.of_nat m) (Z.of_nat i) then 1 else 0))%nat.
Proof.
  intros Hs0 Hc0 Ha Hm.
  destruct (foldlM_seqZ_inv (add_at v)
    (fun j st =>
       length st.1 = n /\ length st.2 = n /\
       forall (i : nat) (x : R) (c : nat),
         sums0 !! i = Some x -> cnts0 !! i = Some c ->
         exists y : R,
           st.1 !! i = Some y /\
           y = (x + (if in_range a j (Z.of_nat i) then v else 0))%R /\
           st.2 !! i =
             Some (c + (if in_range a j (Z.of_nat i) then 1 else 0))%nat)
    m a (sums0, cnts0)) as ([sums cnts] & Hfold & Hl1 & Hl2 & Hpt).
  - simpl. split; [done |]. split; [done |].
    intros i x c Hx Hc. exists x.
    assert (Hr : in_range a a (Z.of_nat i) = false).
    { unfold in_range.
      destruct (Z.leb_spec a (Z.of_nat i)), (Z.ltb_spec (Z.of_nat i) a);
        simpl; lia || done. }
    rewrite Hr. split; [done |]. split; [lra |]. by rewrite Nat.add_0_r.
  - intros j [sums cnts] Hj (Hl1 & Hl2 & Hpt). simpl in Hl1, Hl2, Hpt.
    rewrite add_at_in_range by (unfold len; lia).
    eexists. split; [reflexivity |]. simpl.
    rewrite !length_alter. split; [done |]. split; [done |].
    intros i x c Hx Hc.
    destruct (Hpt i x c Hx Hc) as (y & Hy & Hyx & Hcc).
    destruct (decide (i = Z.to_nat j)) as [->|Hij].
    + rewrite !list_lookup_alter_eq, Hy, Hcc. simpl.
      assert (Hr0 : in_range a j (Z.of_nat (Z.to_nat j)) = false).
      { unfold in_range.
        destruct (Z.leb_spec a (Z.of_nat (Z.to_nat j))),
          (Z.ltb_spec (Z.of_nat (Z.to_nat j)) j); simpl; lia || done. }
      assert (Hr1 : in_range a (j + 1) (Z.of_nat (Z.to_nat j)) = true).
      { unfold in_range.
        destruct (Z.leb_spec a (Z.of_nat (Z.to_nat j))),
          (Z.ltb_spec (Z.of_nat (Z.to_nat j)) (j + 1)); simpl; lia || done. }
      rewrite Hr0 in Hyx. rewrite Hr1. rewrite Hr0.
      eexists. split; [reflexivity |]. split; [lra |]. f_equal. lia.
    + rewrite !list_lookup_alter_ne by done.
      assert (Hr : in_range a (j + 1) (Z.of_nat i) = in_range a j (Z.of_nat i)).
      { unfold in_range.
        destruct (Z.leb_spec a (Z.of_nat i)), (Z.ltb_spec (Z.of_nat i) (j + 1)),
          (Z.ltb_spec (Z.of_nat i) j); simpl; lia || done. }
      rewrite Hr. eauto.
  - exists sums, cnts. simpl in *. eauto.
Qed.

Lemma add_window_spec (n : nat) (r : WindowReport)
  (sums0 : list R) (cnts0 : list nat) :
  length sums0 = n -> length cnts0 = n ->
  report_in_range (Z.of_nat n) r ->
  exists (sums : list R) (cnts : list nat),
    add_window (sums0, cnts0) r = Ok (sums, cnts) /\
    length sums = n /\ length cnts = n /\
    forall (i : nat) (x : R) (c : nat),
      sums0 !! i = Some x -> cnts0 !! i = Some c ->
      exists y : R,
        sums !! i = Some y /\
        y = (x + (if covers (Z.of_nat i) r then w_score r else 0))%R /\
        cnts !! i = Some (c + (if covers (Z.of_nat i) r then 1 else 0))%nat.
Proof.
  intros Hs0 Hc0 Hr. unfold add_window.
  rewrite py_range_unit, bind_Ok.
  destruct (Z.le_gt_cases (w_end r) (w_start r)) as [Hempty|Hlt].
  - rewrite seqZ_nil by lia. exists sums0, cnts0.
    split; [reflexivity |]. split; [done |]. split; [done |].
    intros i x c Hx Hc. exists x.
    assert (Hcov : covers (Z.of_nat i) r = false).
    { unfold covers.
      destruct (Z.leb_spec (w_start r) (Z.of_nat i)),
        (Z.ltb_spec (Z.of_nat i) (w_end r)); simpl; lia || done. }
    rewrite Hcov. split; [done |]. split; [lra |]. by rewrite Nat.add_0_r.
  - assert (Hfirst : 0 <= w_start r < Z.of_nat n).
    { apply Hr. unfold covers.
      destruct (Z.leb_spec (w_start r) (w_start r)),
        (Z.ltb_spec (w_start r) (w_end r)); simpl; lia || done. }
    assert (Hlast : 0 <= w_end r - 1 < Z.of_nat n).
    { apply Hr. unfold covers.
      destruct (Z.leb_spec (w_start r) (w_end r - 1)),
        (Z.ltb_spec (w_end r - 1) (w_end r)); simpl; lia || done. }
    destruct (foldlM_add_at (w_score r) n (Z.to_nat (w_end r - w_start r))
                (w_start r) sums0 cnts0) as (sums & cnts & Hfold & Hl1 & Hl2 & Hpt);
      [done | done | lia | lia |].
    replace (Z.of_nat (Z.to_nat (w_end r - w_start r)))
      with (w_end r - w_start r) in * by lia.
    replace (w_start r + (w_end r - w_start r)) with (w_end r) in Hpt by lia.
    exists sums, cnts. split; [exact Hfold |]. split; [done |]. split; [done |].
    exact Hpt.
Qed.

Lemma covering_cons (i : Z) (r : WindowReport) (ws : list WindowReport) :
  covering i (r :: ws) =
  if covers i r then r :: covering i ws else covering i ws.
Proof.
  unfold covering. rewrite filter_cons.
  destruct (covers i r); case_decide; done.
Qed.

(** The outer loop: every position receives the scores of the windows
    that cover it, and counts them. *)
Lemma foldlM_add_window (n : nat) (ws : list WindowReport)
  (sums0 : list R) (cnts0 : list nat) :
  length sums0 = n -> length cnts0 = n ->
  Forall (report_in_range (Z.of_nat n)) ws ->
  exists (sums : list R) (cnts : list nat),
    foldlM add_window (sums0, cnts0) ws = Ok (sums, cnts) /\
    length sums = n /\ length cnts = n /\
    forall (i : nat) (x : R) (c : nat),
      sums0 !! i = Some x -> cnts0 !! i = Some c ->
      exists y : R,
        sums !! i = Some y /\
        y = (x + Rsum (w_score <$> covering (Z.of_nat i) ws))%R /\
        cnts !! i = Some (c + length (covering (Z.of_nat i) ws))%nat.
Proof.
  revert sums0 cnts0. induction ws as [|r ws IH]; intros sums0 cnts0 Hs0 Hc0 Hws.
  - exists sums0, cnts0. split; [reflexivity |]. split; [done |]. split; [done |].
    intros i x c Hx Hc. exists x. simpl.
    split; [done |]. split; [lra |]. by rewrite Nat.add_0_r.
  - apply Forall_cons in Hws as [Hr Hws]. cbn [foldlM].
    destruct (add_window_spec n r sums0 cnts0 Hs0 Hc0 Hr)
      as (sums1 & cnts1 & E1 & Hl1 & Hl2 & Hpt1).
    rewrite E1, bind_Ok.
    destruct (IH sums1 cnts1 Hl1 Hl2 Hws)
      as (sums & cnts & E & Hl1' & Hl2' & Hpt).
    exists sums, cnts. split; [exact E |]. split; [done |]. split; [done |].
    intros i x c Hx Hc.
    destruct (Hpt1 i x c Hx Hc) as (y1 & Hy1 & Hy1x & Hc1).
    destruct (Hpt i y1 _ Hy1 Hc1) as (y & Hy & Hyy1 & Hcc).
    exists y. split; [exact Hy |].
    rewrite covering_cons. unfold Rsum in *.
    destruct (covers (Z.of_nat i) r); rewrite ?fmap_cons; cbn [foldr length].
    + split; [lra |]. rewrite Hcc. f_equal. lia.
    + split; [lra |]. rewrite Hcc. f_equal. lia.
Qed.

Lemma average_at_mean (sums : list R) (cnts : list nat) (i : nat)
  (windows : list WindowReport) (y : R) :
  sums !! i = Some y ->
  y = (0 + Rsum (w_score <$> covering (Z.of_nat i) windows))%R ->
  cnts !! i = Some (0 + length (covering (Z.of_nat i) windows))%nat ->
  average_at sums cnts i = mean_score (Z.of_nat i) windows.
Proof.
  intros Hy Hyv Hc. unfold average_at, mean_score.
  rewrite !nth_lookup, Hy, Hc. simpl.
  destruct (covering (Z.of_nat i) windows) as [|r rs] eqn:E; [reflexivity |].
  cbn [length]. rewrite Hyv. f_equal. lra.
Qed.

(** With window reports that cover only positions of the sequence, the
    aggregation returns one label per token, the label of the mean score of
    the windows covering the token. *)
Lemma word_level_labels_in_range (tokens : list string)
  (windows : list WindowReport) (sc : LLRScorer) :
  Forall (report_in_range (len tokens)) windows ->
  exists labels : list string,
    word_level_labels tokens windows sc = Ok labels /\
    length labels = length tokens /\
    (forall i : nat, (i < length tokens)%nat ->
       labels !! i = Some (label sc (mean_score (Z.of_nat i) windows))).
Proof.
  intros Hws. unfold word_level_labels.
  destruct (Nat.eqb_spec (length tokens) 0) as [Hz|Hnz].
  - exists []. split; [reflexivity |]. split; [by rewrite Hz |].
    intros i Hi; lia.
  - set (n := length tokens) in *.
    destruct (foldlM_add_window n windows (replicate n 0%R) (replicate n 0%nat))
      as (sums & cnts & E & Hl1 & Hl2 & Hpt);
      [apply length_replicate | apply length_replicate | exact Hws |].
    rewrite E, bind_Ok. eexists. split; [reflexivity |].
    split; [by rewrite length_fmap, length_seq |].
    intros i Hi. rewrite list_lookup_fmap, lookup_seq_lt by done. simpl.
    destruct (Hpt i 0%R 0%nat) as (y & Hy & Hyv & Hc);
      [by apply lookup_replicate_2 | by apply lookup_replicate_2 |].
    by rewrite (average_at_mean sums cnts i windows y).
Qed.

(** ** The pipeline *)

(** After the scan, nothing raises: reports that cover only positions of
    the accused text are aggregated and segmented. *)
Lemma after_scan (tokens : list string) (rows : list WindowReport)
  (sc : LLRScorer) :
  Forall (report_in_range (len tokens)) rows ->
  exists (wlabs : list string) (segs : list Segment),
    word_level_labels tokens rows sc = Ok wlabs /\
    segments tokens wlabs = Ok segs /\
    length wlabs = length tokens.
Proof.
  intros Hrows.
  destruct (word_level_labels_in_range tokens rows sc Hrows)
    as (wlabs & E & Hlen & _).
  exists wlabs.
  destruct tokens as [|t ts].
  - exists []. done.
  - destruct (segments_returns (t :: ts) wlabs) as (segs & Es & _); [done.. |].
    exists segs. done.
Qed.

(** The effective window [run_analysis] passes to the scan. *)
Lemma run_analysis_cases (eminescu_text stanescu_text accused_text : string)
  (window step : Z) (kk eps : R) :
  let tokA := tokenize accused_text in
  let sc := make_scorer (train (tokenize eminescu_text) kk)
                        (train (tokenize stanescu_text) kk) eps in
  let ew := match tokA with
            | [] => window
            | _ :: _ => Z.max 2 (Z.min window (len tokA))
            end in
  match sliding_window_scores tokA sc ew step with
  | Raise e =>
      run_analysis eminescu_text stanescu_text accused_text window step kk eps
      = Raise e /\ numeric_error e
  | Ok rows =>
      exists a : Analysis,
        run_analysis eminescu_text stanescu_text accused_text window step kk eps
        = Ok a /\
        a_rows a = rows /\ a_effective_window a = ew /\
        length (a_wlabs a) = length tokA
  end.
Proof.
  intros tokA sc ew. unfold run_analysis. fold tokA. fold sc. fold ew.
  pose proof (scan_any tokA sc ew step) as Hscan.
  destruct (sliding_window_scores tokA sc ew step) as [rows|e].
  - destruct (after_scan tokA rows sc Hscan) as (wlabs & segs & E1 & E2 & Hlen).
    rewrite bind_Ok, E1, bind_Ok, E2, bind_Ok.
    eexists. split; [reflexivity |]. simpl. auto.
  - rewrite bind_Raise. auto.
Qed.

Lemma run_analysis_valid (eminescu_text stanescu_text accused_text : string)
  (window step : Z) (kk eps : R) :
  1 <= step -> (0 < kk)%R ->
  exists a : Analysis,
    run_analysis eminescu_text stanescu_text accused_text window step kk eps
    = Ok a.
Proof.
  intros Hstep Hk.
  pose proof (run_analysis_cases eminescu_text stanescu_text accused_text
                window step kk eps) as H.
  cbv zeta in H.
  set (tokA := tokenize accused_text) in *.
  set (sc := make_scorer _ _ _) in *.
  set (ew := match tokA with [] => window | _ :: _ => _ end) in *.
  assert (Hok : scorer_ok sc) by (by apply scorer_ok_trained).
  assert (Hscan : exists rows, sliding_window_scores tokA sc ew step = Ok rows).
  { destruct (Z.lt_ge_cases (len tokA) 2) as [Hlt|Hge].
    - exists []. by apply scan_fewer_than_two.
    - eexists. apply scan_rows; [done | lia | done]. }
  destruct Hscan as [rows Hrows]. rewrite Hrows in H.
  destruct H as (a & Ha & _). by exists a.
Qed.

Lemma run_analysis_zero_step (eminescu_text stanescu_text accused_text : string)
  (window : Z) (kk eps : R) :
  2 <= len (tokenize accused_text) ->
  run_analysis eminescu_text stanescu_text accused_text window 0 kk eps
  = Raise ValueError.
Proof.
  intros Hn.
  pose proof (run_analysis_cases eminescu_text stanescu_text accused_text
                window 0 kk eps) as H.
  cbv zeta in H.
  set (tokA := tokenize accused_text) in *.
  set (sc := make_scorer _ _ _) in *.
  set (ew := match tokA with [] => window | _ :: _ => _ end) in *.
  assert (Hscan : sliding_window_scores tokA sc ew 0 = Raise ValueError).
  { unfold sliding_window_scores.
    destruct (Z.ltb_spec (len tokA) 2); [lia | reflexivity]. }
  rewrite Hscan in H. apply H.
Qed.

Lemma run_analysis_no_windows (eminescu_text stanescu_text accused_text : string)
  (window step : Z) (kk eps : R) :
  step < 0 \/ len (tokenize accused_text) < 2 ->
  exists a : Analysis,
    run_analysis eminescu_text stanescu_text accused_text window step kk eps
    = Ok a /\
    a_rows a = [] /\
    length (a_wlabs a) = length (tokenize accused_text).
Proof.
  intros Hcase.
  pose proof (run_analysis_cases eminescu_text stanescu_text accused_text
                window step kk eps) as H.
  cbv zeta in H.
  set (tokA := tokenize accused_text) in *.
  set (sc := make_scorer _ _ _) in *.
  set (ew := match tokA with [] => window | _ :: _ => _ end) in *.
  assert (Hscan : sliding_window_scores tokA sc ew step = Ok []).
  { destruct (Z.lt_ge_cases (len tokA) 2) as [Hlt|Hge].
    - by apply scan_fewer_than_two.
    - destruct Hcase as [Hneg|Hlt]; [| lia].
      unfold sliding_window_scores.
      destruct (Z.ltb_spec (len tokA) 2); [lia |].
      rewrite py_range_backward_empty by lia. reflexivity. }
  rewrite Hscan in H. destruct H as (a & Ha & Hr & _ & Hl). by exists a.
Qed.

Lemma run_analysis_raise (eminescu_text stanescu_text accused_text : string)
  (window step : Z) (kk eps : R) (e : PyError) :
  run_analysis eminescu_text stanescu_text accused_text window step kk eps
  = Raise e ->
  numeric_error e /\ config_malformed step kk.
Proof.
  intros He.
  pose proof (run_analysis_cases eminescu_text stanescu_text accused_text
                window step kk eps) as H.
  cbv zeta in H.
  split.
  - destruct (sliding_window_scores _ _ _ _) as [rows|e'].
    + destruct H as (a & Ha & _). congruence.
    + destruct H as [Hr Harith]. congruence.
  - unfold config_malformed.
    destruct (Z.lt_ge_cases step 1) as [Hs|Hs]; [by left |].
    destruct (Rle_or_lt kk 0) as [Hk|Hk]; [by right |].
    destruct (run_analysis_valid eminescu_text stanescu_text accused_text
                window step kk eps Hs Hk) as [a Ha].
    congruence.
Qed.

(** ** The worked scenario

    Model A trained on [a, a, b], model B on [b, b, a], [k = 1]: the
    vocabulary union has size 4 and the window [a, b] scores exactly 3,
    that is [log2(2) + log2(5/3) + log2(12/5)]. *)

Example scenario_union_size :
  union_size (make_scorer (train ["a"; "a"; "b"]%string 1)
                          (train ["b"; "b"; "a"]%string 1) (1 / 4)) = 4.
Proof. rewrite union_size_make_scorer. vm_compute. reflexivity. Qed.

Example scenario_probabilities :
  let mA := train ["a"; "a"; "b"]%string 1 in
  let mB := train ["b"; "b"; "a"]%string 1 in
  prob mA "a" "b" 4 = Ok (2 / 6)%R /\
  prob mB "a" "b" 4 = Ok (1 / 5)%R /\
  prob mB "b" "</s>" 4 = Ok (1 / 6)%R.
Proof.
  intros mA mB.
  assert (HA : prob_value mA "a" "b" 4 = (2 / 6)%R).
  { unfold prob_value.
    replace (count_or_zero (bigram mA !! ("a", "b")%string)) with 1%nat
      by (vm_compute; reflexivity).
    replace (count_or_zero (context mA !! "a"%string)) with 2%nat
      by (vm_compute; reflexivity).
    unfold smoothed. simpl. lra. }
  assert (HB : prob_value mB "a" "b" 4 = (1 / 5)%R).
  { unfold prob_value.
    replace (count_or_zero (bigram mB !! ("a", "b")%string)) with 0%nat
      by (vm_compute; reflexivity).
    replace (count_or_zero (context mB !! "a"%string)) with 1%nat
      by (vm_compute; reflexivity).
    unfold smoothed. simpl. lra. }
  assert (HC : prob_value mB "b" "</s>" 4 = (1 / 6)%R).
  { unfold prob_value.
    replace (count_or_zero (bigram mB !! ("b", "</s>")%string)) with 0%nat
      by (vm_compute; reflexivity).
    replace (count_or_zero (context mB !! "b"%string)) with 2%nat
      by (vm_compute; reflexivity).
    unfold smoothed. simpl. lra. }
  rewrite <- HA, <- HB, <- HC.
  repeat split; apply prob_ok; simpl; lra || lia.
Qed.

Example scenario_score :
  score_window (make_scorer (train ["a"; "a"; "b"]%string 1)
                            (train ["b"; "b"; "a"]%string 1) (1 / 4))
    ["a"; "b"]%string = Ok 3%R.
Proof.
  set (sc := make_scorer _ _ _).
  rewrite score_window_ok by (apply scorer_ok_trained; lra).
  f_equal. unfold llr_sum.
  replace (bigrams_of (bracket ["a"; "b"]%string))
    with [("<s>", "a"); ("a", "b"); ("b", "</s>")]%string by reflexivity.
  rewrite !fmap_cons, fmap_nil. unfold Rsum. cbn [foldr].
  unfold llr_term_value, prob_value.
  replace (union_size sc) with 4 by (symmetry; apply scenario_union_size).
  cbn [fst snd].
  repeat match goal with
         | |- context [count_or_zero ?o] =>
             let v := eval vm_compute in (count_or_zero o) in
             change (count_or_zero o) with v
         end.
  unfold smoothed, log2. simpl INR.
  change (k (model_A sc)) with 1%R. change (k (model_B sc)) with 1%R.
  replace ((1 + 1) / (1 + 1 * 4) / ((0 + 1) / (1 + 1 * 4)))%R with 2%R by lra.
  replace ((1 + 1) / (1 + 1 + 1 * 4) / ((0 + 1) / (1 + 1 * 4)))%R
    with (5 / 3)%R by lra.
  replace ((1 + 1) / (1 + 1 * 4) / ((0 + 1) / (1 + 1 + 1 * 4)))%R
    with (12 / 5)%R by lra.
  assert (H4 : (ln (5 / 3) + ln (12 / 5) = ln 2 + ln 2)%R).
  { rewrite <- !ln_mult by lra. f_equal. lra. }
  pose proof ln_2_neq_0 as HL.
  replace (ln (5 / 3))%R with (ln 2 + ln 2 - ln (12 / 5))%R by lra.
  field. exact HL.
Qed.

(** A single accused token: no window, the token is "NEITHER", and one
    segment spans it. *)
Example scenario_single_token :
  let sc := make_scorer (train ["a"; "a"; "b"]%string 1)
                        (train ["b"; "b"; "a"]%string 1) (1 / 4) in
  sliding_window_scores ["a"]%string sc 20 1 = Ok [] /\
  word_level_labels ["a"]%string [] sc = Ok ["NEITHER"%string] /\
  segments ["a"]%string ["NEITHER"%string] =
    Ok [ {| seg_label := "NEITHER"; seg_start := 0; seg_end := 1;
            seg_text := "a" |} ].
Proof.
  intros sc. split; [reflexivity |]. split; [| reflexivity].
  unfold word_level_labels, average_at. simpl.
  rewrite label_in_band by (simpl; lra). reflexivity.
Qed.

(** [k = 0] is accepted and scored when every bigram of the window was
    seen in training: here each ratio [pA / pB] is 1 and the score is 0. *)
Example zero_k_is_scored :
  let sc := make_scorer (train ["a"; "b"]%string 0)
                        (train ["a"; "b"]%string 0) (1 / 4) in
  score_window sc ["a"; "b"]%string = Ok 0%R /\
  exists a : Analysis,
    run_analysis "a b" "a b" "a b" 20 1 0 (1 / 4) = Ok a /\
    length (a_rows a) = 1%nat.
Proof.
  intros sc.
  assert (HV : union_size sc = 4)
    by (unfold sc; rewrite union_size_make_scorer; vm_compute; reflexivity).
  assert (Hp : forall b : string * string,
            prob (train ["a"; "b"]%string 0) b.1 b.2 4 = Ok 1%R ->
            llr_term sc b = Ok 0%R).
  { intros b Hb. unfold llr_term. rewrite HV.
    change (model_A sc) with (train ["a"; "b"]%string 0).
    change (model_B sc) with (train ["a"; "b"]%string 0).
    rewrite Hb, !bind_Ok.
    rewrite py_truediv_nonzero by lra. rewrite bind_Ok.
    rewrite py_log_pos by lra. f_equal.
    replace (1 / 1)%R with 1%R by lra. rewrite ln_1. lra. }
  assert (Hterm : Forall (fun b => llr_term sc b = Ok 0%R)
                    [("<s>", "a"); ("a", "b"); ("b", "</s>")]%string).
  { repeat (apply List.Forall_cons; [| try apply List.Forall_nil]);
      apply Hp; rewrite prob_eq_truediv; cbn [fst snd];
      repeat match goal with
             | |- context [count_or_zero ?o] =>
                 let v := eval vm_compute in (count_or_zero o) in
                 change (count_or_zero o) with v
             end;
      cbn [INR]; change (k (train ["a"; "b"]%string 0)) with 0%R;
      rewrite py_truediv_nonzero by lra; f_equal; lra. }
  assert (Hscore : score_window sc ["a"; "b"]%string = Ok 0%R).
  { rewrite score_window_sum_result. unfold llr_sum_result.
    replace (bigrams_of (bracket ["a"; "b"]%string))
      with [("<s>", "a"); ("a", "b"); ("b", "</s>")]%string by reflexivity.
    induction Hterm as [|b l Hb Hl IH]; [reflexivity |].
    rewrite fmap_cons. cbn [sum_terms].
    rewrite Hb, bind_Ok, IH, bind_Ok.
    unfold mret, result_ret. f_equal. lra. }
  split; [exact Hscore |].
  pose proof (run_analysis_cases "a b" "a b" "a b" 20 1 0 (1 / 4)) as H.
  cbv zeta in H.
  replace (tokenize "a b") with ["a"; "b"]%string in H
    by (vm_compute; reflexivity).
  fold sc in H.
  assert (Hscan : sliding_window_scores ["a"; "b"]%string sc
                    (Z.max 2 (Z.min 20 (len ["a"; "b"]%string))) 1 =
                  Ok [ {| w_start := 0; w_end := 2; w_score := 0;
                          w_label := label sc 0; w_snippet := "a b" |} ]).
  { unfold sliding_window_scores.
    change (len ["a"; "b"]%string) with 2.
    change (Z.max 2 (Z.min (Z.max 2 (Z.min 20 2)) 2)) with 2.
    change (py_range 0 (2 - 2 + 1) 1) with (Ok [0] : result (list Z)).
    change (2 <? 2) with false. cbv iota. rewrite bind_Ok. cbn [foldlM].
    rewrite window_row_cases.
    replace (py_slice ["a"; "b"]%string 0 (0 + 2)) with ["a"; "b"]%string
      by reflexivity.
    rewrite Hscore. reflexivity. }
  rewrite Hscan in H. destruct H as (a & Ha & Hrows & _).
  exists a. split; [exact Ha |]. by rewrite Hrows.
Qed.

(** C9 as stated fails: a negative stride is not rejected, the pipeline
    returns normally with no window; and [k = 0] is not rejected either,
    whether the accused text yields no window or one that is scored. *)
Lemma rejects_malformed_counterexample :
  (config_malformed (-1) 1 /\
   exists a : Analysis,
     run_analysis "a a b" "b b a" "a b c" 20 (-1) 1 (1 / 4) = Ok a /\
     a_rows a = []) /\
  ~ rejects_malformed "a a b" "b b a" "a b c" 20 (-1) 1 (1 / 4) /\
  ~ rejects_malformed "a a b" "b b a" "a" 20 1 0 (1 / 4) /\
  ~ rejects_malformed "a b" "a b" "a b" 20 1 0 (1 / 4).
Proof.
  assert (Hm : config_malformed (-1) 1) by (left; lia).
  destruct (run_analysis_no_windows "a a b" "b b a" "a b c" 20 (-1) 1 (1 / 4))
    as (a & Ha & Hr & _); [left; lia |].
  split; [split; [exact Hm | by exists a] |].
  split; [| split].
  - intros H. destruct (H Hm) as [e He]. congruence.
  - intros H.
    destruct (run_analysis_no_windows "a a b" "b b a" "a" 20 1 0 (1 / 4))
      as (a' & Ha' & _); [right; vm_compute; reflexivity |].
    destruct H as [e He]; [right; lra | congruence].
  - intros H.
    destruct zero_k_is_scored as (_ & a' & Ha' & _).
    destruct H as [e He]; [right; lra | congruence].
Qed.

(** * Further properties of the code *)

(** ** Training: counts and vocabulary *)

Lemma occurrences_cons {A : Type} `{EqDecision A} (x y : A) (l : list A) :
  occurrences x (y :: l) =
  ((if decide (y = x) then 1 else 0) + occurrences x l)%nat.
Proof.
  unfold occurrences. rewrite filter_cons.
  destruct (decide (y = x)); reflexivity.
Qed.

Lemma occurrences_nil {A : Type} `{EqDecision A} (x : A) :
  occurrences x [] = 0%nat.
Proof. reflexivity. Qed.

Lemma sum_list_cons (n : nat) (l : list nat) :
  sum_list (n :: l) = (n + sum_list l)%nat.
Proof. reflexivity. Qed.

(** In a list without repetition that holds [x], exactly one element is
    [x]. *)
Lemma sum_indicator_NoDup {A : Type} `{EqDecision A} (x : A) (U : list A) :
  NoDup U -> x ∈ U ->
  sum_list ((fun u => if decide (u = x) then 1 else 0)%nat <$> U) = 1%nat.
Proof.
  induction 1 as [|u U Hu HU IH]; intros Hx.
  - by apply elem_of_nil in Hx.
  - rewrite fmap_cons, sum_list_cons.
    destruct (decide (u = x)) as [->|Hne].
    + assert (Hz : sum_list
        ((fun u => if decide (u = x) then 1 else 0)%nat <$> U) = 0%nat).
      { clear IH HU Hx. induction U as [|v U IHU]; [reflexivity |].
        rewrite fmap_cons, sum_list_cons.
        apply not_elem_of_cons in Hu as [Hv Hu].
        destruct (decide (v = x)); [congruence |]. by rewrite IHU. }
      rewrite Hz. reflexivity.
    + apply elem_of_cons in Hx as [->|Hx]; [done |].
      by rewrite IH.
Qed.

Lemma sum_occurrences_pairs_cons {A B : Type} `{EqDecision A} `{EqDecision B}
  (a x : A) (y : B) (U : list B) (l : list (A * B)) :
  sum_list ((fun u => occurrences (a, u) ((x, y) :: l)) <$> U) =
  ((if decide (x = a)
    then sum_list ((fun u => if decide (u = y) then 1 else 0)%nat <$> U)
    else 0) +
   sum_list ((fun u => occurrences (a, u) l) <$> U))%nat.
Proof.
  induction U as [|u U IHU].
  - simpl. by destruct (decide (x = a)).
  - rewrite !fmap_cons, !sum_list_cons, IHU, occurrences_cons.
    repeat case_decide; simplify_eq; lia.
Qed.

(** Summing the counts of the pairs [(a, u)] over every possible second
    member [u] counts the pairs whose first member is [a]. *)
Lemma sum_occurrences_pairs {A B : Type} `{EqDecision A} `{EqDecision B}
  (a : A) (U : list B) (l : list (A * B)) :
  NoDup U -> (forall p, p ∈ l -> p.2 ∈ U) ->
  sum_list ((fun u => occurrences (a, u) l) <$> U) =
  occurrences a (fst <$> l).
Proof.
  intros HU. induction l as [|[x y] l IH]; intros Hin.
  - clear. induction U as [|u U IHU]; [reflexivity |].
    rewrite fmap_cons, sum_list_cons. by rewrite IHU.
  - rewrite sum_occurrences_pairs_cons, fmap_cons, occurrences_cons. cbn [fst].
    rewrite IH by (intros p Hp; apply Hin; by right).
    assert (Hy : y ∈ U) by (apply (Hin (x, y)); left).
    by rewrite (sum_indicator_NoDup y U HU Hy).
Qed.

Lemma length_py_init_bracket (tokens : list string) :
  length (py_init (bracket tokens)) = S (length tokens).
Proof.
  unfold py_init, bracket. rewrite length_take. simpl.
  rewrite length_app. simpl. lia.
Qed.

Lemma length_py_tail_bracket (tokens : list string) :
  length (py_tail (bracket tokens)) = S (length tokens).
Proof.
  unfold py_tail, bracket. rewrite length_drop. simpl.
  rewrite length_app. simpl. lia.
Qed.

Lemma fst_bigrams_bracket (tokens : list string) :
  fst <$> bigrams_of (bracket tokens) = py_init (bracket tokens).
Proof.
  unfold bigrams_of. apply fst_zip.
  rewrite length_py_init_bracket, length_py_tail_bracket. lia.
Qed.

Lemma snd_bigrams_in_bracket (tokens : list string) (p : string * string) :
  p ∈ bigrams_of (bracket tokens) -> p.2 ∈ bracket tokens.
Proof.
  destruct p as [x y]. intros Hp. unfold bigrams_of in Hp.
  apply elem_of_zip_r in Hp. unfold py_tail in Hp. simpl.
  apply list_elem_of_lookup in Hp as [i Hi].
  rewrite lookup_drop in Hi. by eapply list_elem_of_lookup_2.
Qed.

Lemma py_init_bracket (tokens : list string) :
  py_init (bracket tokens) = "<s>"%string :: tokens.
Proof.
  unfold py_init, bracket.
  replace (length (["<s>"%string] ++ tokens ++ ["</s>"%string]) - 1)%nat
    with (length ("<s>"%string :: tokens))
    by (simpl; rewrite length_app; simpl; lia).
  change (["<s>"%string] ++ tokens ++ ["</s>"%string])
    with (("<s>"%string :: tokens) ++ ["</s>"%string]).
  by rewrite take_app_length.
Qed.

Lemma occurrences_pair_le {A B : Type} `{EqDecision A} `{EqDecision B}
  (a : A) (b : B) (l : list (A * B)) :
  (occurrences (a, b) l <= occurrences a (fst <$> l))%nat.
Proof.
  induction l as [|[x y] l IH]; [reflexivity |].
  rewrite fmap_cons, !occurrences_cons. cbn [fst].
  repeat case_decide; simplify_eq; lia.
Qed.


(** The counts of a trained model, read as occurrences. *)
Lemma train_bigram_count (tokens : list string) (kk : R) (w1 w2 : string) :
  counter_get (bigram (train tokens kk)) (w1, w2) =
  occurrences (w1, w2) (bigrams_of (bracket tokens)).
Proof. apply counter_get_Counter_of. Qed.

Lemma train_context_count (tokens : list string) (kk : R) (w1 : string) :
  counter_get (context (train tokens kk)) w1 =
  occurrences w1 ("<s>"%string :: tokens).
Proof.
  unfold train. cbn [context]. rewrite counter_get_Counter_of.
  by rewrite py_init_bracket.
Qed.

(** Over any list without repetition that holds the whole vocabulary, the
    bigram counts of a left member add up to its context count. *)
Lemma row_sum_over (tokens : list string) (kk : R) (w1 : string)
  (U : list string) :
  NoDup U -> (forall x, x ∈ vocab (train tokens kk) -> x ∈ U) ->
  sum_list ((fun w2 => counter_get (bigram (train tokens kk)) (w1, w2)) <$> U) =
  counter_get (context (train tokens kk)) w1.
Proof.
  intros HU Hin.
  assert (E : (fun w2 => counter_get (bigram (train tokens kk)) (w1, w2)) <$> U =
              (fun w2 => occurrences (w1, w2) (bigrams_of (bracket tokens))) <$> U)
    by (apply list_fmap_ext; intros; apply train_bigram_count).
  rewrite E. rewrite sum_occurrences_pairs; [| done |].
  - rewrite fst_bigrams_bracket, py_init_bracket.
    symmetry. apply train_context_count.
  - intros p Hp. apply Hin. unfold train. cbn [vocab].
    apply elem_of_list_to_set. by apply snd_bigrams_in_bracket.
Qed.

(** X1.  In a trained model the context count of a token is the sum of the
    bigram counts of the pairs that start with it, taken over the
    vocabulary of the model; so no bigram count exceeds the context count
    of its left member. *)
Theorem context_is_row_sum (tokens : list string) (kk : R) (w1 w2 : string) :
  let m := train tokens kk in
  counter_get (context m) w1 =
    sum_list ((fun u => counter_get (bigram m) (w1, u)) <$> elements (vocab m)) /\
  (counter_get (bigram m) (w1, w2) <= counter_get (context m) w1)%nat.
Proof.
  intros m. split.
  - symmetry. apply row_sum_over; [apply NoDup_elements |].
    intros x Hx. by apply elem_of_elements.
  - unfold m. rewrite train_bigram_count, train_context_count.
    rewrite <- py_init_bracket, <- fst_bigrams_bracket.
    apply occurrences_pair_le.
Qed.

(** ** The smoothed estimate as a distribution *)

Lemma prob_value_counts (m : BigramModel) (w1 w2 : string) (V : Z) :
  prob_value m w1 w2 V =
  smoothed (counter_get (bigram m) (w1, w2)) (counter_get (context m) w1)
           (k m) V.
Proof. unfold prob_value. by rewrite !counter_get_count_or_zero. Qed.

Lemma Rsum_smoothed (c : string -> nat) (ctx : nat) (kk : R) (V : Z)
  (U : list string) :
  Rsum ((fun u => smoothed (c u) ctx kk V) <$> U) =
  ((INR (sum_list (c <$> U)) + kk * INR (length U)) /
   (INR ctx + kk * IZR V))%R.
Proof.
  induction U as [|u U IH].
  - simpl. unfold Rdiv. rewrite Rmult_0_r, Rplus_0_r. ring.
  - rewrite !fmap_cons, sum_list_cons. cbn [length].
    unfold Rsum in *. cbn [foldr]. rewrite IH.
    rewrite plus_INR, S_INR. unfold smoothed, Rdiv. ring.
Qed.

(** Over a list without repetition that holds the vocabulary of the model
    and has [V] elements, the estimates of a left member add up to 1. *)
Lemma prob_value_sums_to_one (tokens : list string) (kk : R) (w1 : string)
  (U : list string) :
  (0 < kk)%R -> NoDup U -> U <> [] ->
  (forall x, x ∈ vocab (train tokens kk) -> x ∈ U) ->
  Rsum ((fun w2 => prob_value (train tokens kk) w1 w2 (len U)) <$> U) = 1%R.
Proof.
  intros Hk HU Hne Hin.
  assert (E : (fun w2 => prob_value (train tokens kk) w1 w2 (len U)) <$> U =
              (fun w2 => smoothed
                 (counter_get (bigram (train tokens kk)) (w1, w2))
                 (counter_get (context (train tokens kk)) w1) kk (len U)) <$> U)
    by (apply list_fmap_ext; intros; apply prob_value_counts).
  rewrite E, Rsum_smoothed, row_sum_over by done.
  unfold len. rewrite <- INR_IZR_INZ.
  apply Rdiv_diag.
  assert (Hlen : (0 < INR (length U))%R).
  { apply lt_0_INR. destruct U; [done | simpl; lia]. }
  pose proof (pos_INR (counter_get (context (train tokens kk)) w1)).
  assert (0 < kk * INR (length U))%R by (by apply Rmult_lt_0_compat).
  lra.
Qed.

Lemma NoDup_sorted_set (s : gset string) : NoDup (sorted_set s).
Proof.
  unfold sorted_set. rewrite merge_sort_Permutation. apply NoDup_elements.
Qed.

Lemma elem_of_sorted_set (s : gset string) (x : string) :
  x ∈ sorted_set s <-> x ∈ s.
Proof.
  unfold sorted_set. rewrite merge_sort_Permutation. apply elem_of_elements.
Qed.

(** X2.  With [k > 0], the estimates [prob(w1, w2, V)] of a trained model,
    taken over the words [w2] of the vocabulary union of its scorer and
    with [V] the size of that union, are all returned and add up to 1 (in
    exact arithmetic), for every left member [w1], seen or not, and
    whichever place of the scorer the model takes. *)
Theorem prob_sums_to_one (tokens : list string) (kk : R)
  (other : BigramModel) (eps : R) (w1 : string) :
  (0 < kk)%R ->
  let m := train tokens kk in
  let scL := make_scorer m other eps in
  let scR := make_scorer other m eps in
  (forall w2 : string,
     prob m w1 w2 (union_size scL) = Ok (prob_value m w1 w2 (union_size scL))) /\
  Rsum ((fun w2 => prob_value m w1 w2 (union_size scL)) <$> vocab_union scL) = 1%R /\
  (forall w2 : string,
     prob m w1 w2 (union_size scR) = Ok (prob_value m w1 w2 (union_size scR))) /\
  Rsum ((fun w2 => prob_value m w1 w2 (union_size scR)) <$> vocab_union scR) = 1%R.
Proof.
  intros Hk m scL scR.
  pose proof (union_size_trained_l tokens kk other eps) as HL.
  pose proof (union_size_trained_r tokens kk other eps) as HR.
  fold m in HL, HR. fold scL in HL. fold scR in HR.
  assert (HneL : vocab_union scL <> []).
  { intros E. unfold union_size, len in HL. rewrite E in HL. simpl in HL. lia. }
  assert (HneR : vocab_union scR <> []).
  { intros E. unfold union_size, len in HR. rewrite E in HR. simpl in HR. lia. }
  split; [intros w2; apply prob_ok; [done | lia] |].
  split.
  { apply prob_value_sums_to_one; [done | apply NoDup_sorted_set | done |].
    intros x Hx. apply elem_of_sorted_set. by apply elem_of_union_l. }
  split; [intros w2; apply prob_ok; [done | lia] |].
  apply prob_value_sums_to_one; [done | apply NoDup_sorted_set | done |].
  intros x Hx. apply elem_of_sorted_set. by apply elem_of_union_r.
Qed.

Lemma prob_sums_to_one_witness :
  (0 < 1)%R /\
  Rsum ((fun w2 =>
           prob_value (train ["a"; "a"; "b"]%string 1) "a" w2
             (union_size (make_scorer (train ["a"; "a"; "b"]%string 1)
                            (train ["b"; "c"]%string 1) (1 / 4)))) <$>
        vocab_union (make_scorer (train ["a"; "a"; "b"]%string 1)
                       (train ["b"; "c"]%string 1) (1 / 4))) = 1%R.
Proof.
  assert (Hk : (0 < 1)%R) by lra.
  split; [exact Hk |].
  exact (proj1 (proj2 (prob_sums_to_one ["a"; "a"; "b"]%string 1
                         (train ["b"; "c"]%string 1) (1 / 4) "a" Hk))).
Defined.



(** ** The score under exchange of the models *)

Lemma log2_1 : log2 1 = 0%R.
Proof. unfold log2. rewrite ln_1. unfold Rdiv. ring. Qed.

Lemma log2_inv (x : R) : (0 < x)%R -> log2 (/ x) = (- log2 x)%R.
Proof.
  intros Hx. unfold log2. rewrite ln_Rinv by exact Hx. unfold Rdiv. ring.
Qed.

Lemma scorer_ok_swap (sc : LLRScorer) : scorer_ok sc -> scorer_ok (swap_models sc).
Proof. intros (HA & HB & HV). repeat split; assumption. Qed.

Lemma llr_term_value_swap (sc : LLRScorer) (b : string * string) :
  scorer_ok sc ->
  llr_term_value (swap_models sc) b = (- llr_term_value sc b)%R.
Proof.
  intros (HA & HB & HV). unfold llr_term_value.
  change (union_size (swap_models sc)) with (union_size sc).
  change (model_A (swap_models sc)) with (model_B sc).
  change (model_B (swap_models sc)) with (model_A sc).
  destruct (prob_ok (model_A sc) b.1 b.2 _ HA HV) as [_ PA].
  destruct (prob_ok (model_B sc) b.1 b.2 _ HB HV) as [_ PB].
  rewrite <- log2_inv by (by apply Rdiv_lt_0_compat).
  f_equal. field. split; lra.
Qed.

Lemma llr_sum_swap (sc : LLRScorer) (tokens : list string) :
  scorer_ok sc -> llr_sum (swap_models sc) tokens = (- llr_sum sc tokens)%R.
Proof.
  intros Hok. unfold llr_sum.
  induction (bigrams_of (bracket tokens)) as [|b l IH].
  - simpl. lra.
  - rewrite !fmap_cons. unfold Rsum in *. cbn [foldr].
    rewrite IH, llr_term_value_swap by exact Hok. lra.
Qed.

Lemma label_cases (sc : LLRScorer) (s : R) :
  (label sc s = "EMINESCU"%string /\ (eps_neither sc < s)%R) \/
  (label sc s = "STANESCU"%string /\ (s <= eps_neither sc)%R /\
   (s < - eps_neither sc)%R) \/
  (label sc s = "NEITHER"%string /\ (- eps_neither sc <= s <= eps_neither sc)%R).
Proof.
  unfold label.
  destruct (Rlt_dec (eps_neither sc) s); [left; split; [reflexivity | lra] |].
  destruct (Rlt_dec s (- eps_neither sc)).
  - right. left. split; [reflexivity | lra].
  - right. right. split; [reflexivity | lra].
Qed.

(** X4.  Exchanging the two models of a scorer negates the score of every
    window (in exact arithmetic, for positive smoothing constants), and
    with [epsNeither >= 0] it exchanges the two author labels and keeps
    "NEITHER". *)
Theorem swap_models_negates (sc : LLRScorer) (tokens : list string) :
  scorer_ok sc ->
  exists s : R,
    score_window sc tokens = Ok s /\
    score_window (swap_models sc) tokens = Ok (- s)%R /\
    ((0 <= eps_neither sc)%R ->
     label (swap_models sc) (- s) = mirror_label (label sc s)).
Proof.
  intros Hok. exists (llr_sum sc tokens).
  split; [by apply score_window_ok |].
  split.
  { rewrite score_window_ok by (by apply scorer_ok_swap).
    by rewrite llr_sum_swap. }
  intros Heps.
  destruct (label_cases sc (llr_sum sc tokens)) as [[-> H]|[[-> H]|[-> H]]];
    destruct (label_cases (swap_models sc) (- llr_sum sc tokens))
      as [[-> H']|[[-> H']|[-> H']]];
    change (eps_neither (swap_models sc)) with (eps_neither sc) in H';
    try reflexivity; lra.
Qed.

Lemma swap_models_negates_witness :
  let sc := make_scorer (train ["a"; "a"; "b"]%string 1)
                        (train ["b"; "b"; "a"]%string 1) (1 / 4) in
  scorer_ok sc /\
  exists s : R,
    score_window sc ["a"; "b"]%string = Ok s /\
    score_window (swap_models sc) ["a"; "b"]%string = Ok (- s)%R.
Proof.
  intros sc.
  assert (Hok : scorer_ok sc) by (apply scorer_ok_trained; lra).
  split; [exact Hok |].
  destruct (swap_models_negates sc ["a"; "b"]%string Hok) as (s & H1 & H2 & _).
  exists s. split; [exact H1 | exact H2].
Defined.

(** ** A scorer whose two models are the same *)

Lemma llr_sum_same_models (sc : LLRScorer) (tokens : list string) :
  scorer_ok sc -> model_A sc = model_B sc -> llr_sum sc tokens = 0%R.
Proof.
  intros Hok Hsame. unfold llr_sum.
  induction (bigrams_of (bracket tokens)) as [|b l IH]; [reflexivity |].
  rewrite fmap_cons. unfold Rsum in *. cbn [foldr]. rewrite IH.
  unfold llr_term_value. rewrite Hsame.
  destruct Hok as (HA & HB & HV).
  destruct (prob_ok (model_B sc) b.1 b.2 _ HB HV) as [_ PB].
  rewrite Rdiv_diag by lra. rewrite log2_1. lra.
Qed.

(** ** Segments as runs of equal labels *)

Lemma adjacent_differ_snoc (segs : list Segment) (s : Segment) :
  adjacent_differ segs ->
  (forall s', last segs = Some s' -> seg_label s' <> seg_label s) ->
  adjacent_differ (segs ++ [s]).
Proof.
  intros Hadj Hlast j s1 s2 H1 H2.
  destruct (decide (S j < length segs)%nat) as [Hlt|Hge].
  - rewrite lookup_app_l in H1 by lia. rewrite lookup_app_l in H2 by lia.
    by eapply Hadj.
  - assert (Hj : S j = length segs).
    { apply lookup_lt_Some in H2. rewrite length_app in H2. simpl in H2. lia. }
    rewrite lookup_app_l in H1 by lia.
    rewrite Hj, lookup_app_r in H2 by lia.
    rewrite Nat.sub_diag in H2. simpl in H2. injection H2 as <-.
    apply Hlast. rewrite last_lookup.
    replace (pred (length segs)) with j by lia. exact H1.
Qed.

Lemma segments_step_runs (tokens labels : list string) (i : Z) (st st' : seg_state) :
  1 <= i ->
  segments_inv tokens labels i st ->
  runs_inv labels i st ->
  segments_step tokens labels st i = Ok st' ->
  runs_inv labels (i + 1) st'.
Proof.
  intros Hi Hinv Hruns. destruct st as [[segs cur] start].
  destruct Hinv as (Hstart & _).
  destruct Hruns as (Huni & Hrun & Hadj & Hlast).
  unfold segments_step.
  destruct (py_getitem labels i) as [li|e] eqn:Eli; [| discriminate].
  rewrite bind_Ok.
  assert (Hli : labels !! Z.to_nat i = Some li).
  { unfold py_getitem in Eli.
    destruct (py_index (len labels) i) as [j|e] eqn:Ej; [| discriminate].
    rewrite bind_Ok in Eli. unfold py_index in Ej.
    destruct ((0 <=? i) && (i <? len labels)) eqn:Eb.
    - injection Ej as <-. destruct (labels !! Z.to_nat i); [| discriminate].
      by injection Eli as ->.
    - apply andb_false_iff in Eb as [Eb|Eb];
        [apply Z.leb_gt in Eb; lia |].
      destruct ((- len labels <=? i) && (i <? 0)) eqn:Eb2; [| discriminate].
      apply andb_true_iff in Eb2 as [_ Eb2]. apply Z.ltb_lt in Eb2. lia. }
  destruct (decide (li ≠ cur)) as [Hne|Heq].
  - intros [= <-]. unfold runs_inv.
    split.
    { apply Forall_app. split; [done |]. constructor; [| done].
      intros j Hj. simpl in *. by apply Hrun. }
    split.
    { intros j Hj. replace j with i by lia. exact Hli. }
    split.
    { apply adjacent_differ_snoc; [done |]. simpl. exact Hlast. }
    intros s Hs. rewrite last_snoc in Hs. injection Hs as <-. simpl.
    congruence.
  - intros [= <-]. apply dec_stable in Heq. subst li. unfold runs_inv.
    split; [done |]. split; [| done].
    intros j Hj. destruct (decide (j = i)) as [->|Hji]; [done |].
    apply Hrun. lia.
Qed.

(** The loop of [segments] with both invariants. *)
Lemma segments_loop_runs (tokens labels : list string) (l0 : string) :
  tokens <> [] -> length labels = length tokens ->
  labels !! 0%nat = Some l0 ->
  exists (segs : list Segment) (cur : string) (start : Z),
    foldlM (segments_step tokens labels) ([], l0, 0)
      (seqZ 1 (len tokens - 1)) = Ok (segs, cur, start) /\
    segments_inv tokens labels (len tokens) (segs, cur, start) /\
    runs_inv labels (len tokens) (segs, cur, start).
Proof.
  intros Hne Hlen Hl0.
  assert (Hn : len tokens = 1 + Z.of_nat (length tokens - 1)).
  { unfold len. destruct tokens; [done | simpl; lia]. }
  destruct (foldlM_seqZ_inv (segments_step tokens labels)
              (fun i st => segments_inv tokens labels i st /\ runs_inv labels i st)
              (length tokens - 1) 1 ([], l0, 0))
    as ([[segs cur] start] & Hfold & Hinv & Hruns).
  - split.
    + unfold segments_inv. simpl.
      split; [lia |]. split; [done |]. split; [done |].
      split; [| done].
      destruct labels as [|a [|b ls]]; reflexivity.
    + unfold runs_inv. split; [done |]. split.
      * intros j Hj. by replace j with 0 by lia.
      * split; [intros j s1 s2 H1; done | intros s Hs; done].
  - intros i st Hi [Hinv Hruns].
    destruct (segments_step_inv tokens labels i st Hlen) as (st' & E & Hinv');
      [lia | done |].
    exists st'. split; [exact E |]. split; [exact Hinv' |].
    eapply segments_step_runs; [| exact Hinv | exact Hruns | exact E]. lia.
  - exists segs, cur, start.
    replace (len tokens - 1) with (Z.of_nat (length tokens - 1)) by lia.
    rewrite Hn. auto.
Qed.

Lemma replicate_py_slice (labels : list string) (a b : Z) (x : string) :
  0 <= a <= b -> b <= len labels ->
  (forall i : Z, a <= i < b -> labels !! Z.to_nat i = Some x) ->
  replicate (Z.to_nat (b - a)) x = py_slice labels a b.
Proof.
  intros Hab Hb Hx. rewrite py_slice_take_drop by done.
  apply list_eq. intros i.
  destruct (decide (i < Z.to_nat (b - a))%nat) as [Hlt|Hge].
  - rewrite lookup_replicate_2 by done.
    rewrite lookup_take_lt by lia. rewrite lookup_drop.
    symmetry. replace (Z.to_nat a + i)%nat with (Z.to_nat (a + Z.of_nat i)) by lia.
    apply Hx. lia.
  - transitivity (@None string).
    + apply lookup_replicate_None. lia.
    + symmetry. apply lookup_take_ge. lia.
Qed.

(** Uniform segments laid end to end stand for the labels they span. *)
Lemma expand_chain (labels : list string) (segs : list Segment) (a b : Z) :
  0 <= a -> b <= len labels ->
  seg_chain a segs b -> Forall (seg_uniform labels) segs ->
  expand_segments segs = py_slice labels a b.
Proof.
  revert a. induction segs as [|s segs IH]; intros a Ha Hb Hchain Huni.
  - simpl in Hchain. subst b. unfold expand_segments. simpl.
    rewrite py_slice_take_drop by lia.
    by replace (Z.to_nat a - Z.to_nat a)%nat with 0%nat by lia.
  - destruct Hchain as (Hs & Hlt & Hrest).
    apply Forall_cons in Huni as [Hu Huni].
    pose proof (seg_chain_le _ _ _ Hrest) as Hle.
    unfold expand_segments in *. rewrite fmap_cons. cbn [concat].
    rewrite (IH (seg_end s)) by (done || lia).
    rewrite Hs.
    rewrite (replicate_py_slice labels a (seg_end s)); [| lia | lia |].
    + rewrite !py_slice_take_drop by lia.
      replace (Z.to_nat b - Z.to_nat a)%nat
        with (Z.to_nat (seg_end s) - Z.to_nat a +
              (Z.to_nat b - Z.to_nat (seg_end s)))%nat by lia.
      rewrite <- (take_take_drop (drop (Z.to_nat a) labels)).
      rewrite drop_drop.
      replace (Z.to_nat a + (Z.to_nat (seg_end s) - Z.to_nat a))%nat
        with (Z.to_nat (seg_end s)) by lia.
      reflexivity.
    + intros i Hi. apply Hu. lia.
Qed.

(** The segments, with what the loop keeps true of the runs. *)
Lemma segments_runs (tokens labels : list string) :
  tokens <> [] -> length labels = length tokens ->
  exists segs : list Segment,
    segments tokens labels = Ok segs /\
    Forall (seg_uniform labels) segs /\
    adjacent_differ segs /\
    expand_segments segs = labels.
Proof.
  intros Hne Hlen.
  destruct labels as [|l0 ls] eqn:El;
    [destruct tokens; [done | discriminate] |].
  rewrite <- El in *.
  assert (Hl0 : labels !! 0%nat = Some l0) by (by rewrite El).
  destruct (segments_loop_runs tokens labels l0 Hne Hlen Hl0)
    as (segs & cur & start & Hfold & Hinv & Hruns).
  destruct Hinv as (Hstart & Hchain & Hcur & Hcount & Hcat & Htext).
  destruct Hruns as (Huni & Hrun & Hadj & Hlast).
  set (final := {| seg_label := cur; seg_start := start; seg_end := len tokens;
                   seg_text := join " " (py_slice_from tokens start) |}).
  assert (Hlenl : len labels = len tokens) by (unfold len; by rewrite Hlen).
  assert (Hall : Forall (seg_uniform labels) (segs ++ [final])).
  { apply Forall_app. split; [done |]. constructor; [| done].
    intros j Hj. simpl in *. by apply Hrun. }
  exists (segs ++ [final]).
  split.
  { unfold segments. destruct tokens as [|t ts]; [done |].
    assert (E0 : py_getitem labels 0 = Ok l0) by (by rewrite El).
    rewrite E0, bind_Ok, py_range_unit, bind_Ok, Hfold. reflexivity. }
  split; [exact Hall |].
  split.
  { apply adjacent_differ_snoc; [done |]. simpl. exact Hlast. }
  rewrite (expand_chain labels (segs ++ [final]) 0 (len tokens));
    [| lia | lia | | done].
  - rewrite py_slice_take_drop by lia. simpl. rewrite drop_0.
    apply take_ge. unfold len in *. lia.
  - apply (seg_chain_snoc segs final); simpl; [done | lia].
Qed.

(** X5.  For a non-empty token sequence and as many labels as tokens, the
    segments are the maximal runs of equal labels: every position of a
    segment carries the segment's label, two segments that follow one
    another have different labels, and repeating each segment's label over
    its length gives back the label sequence (a run-length encoding and
    its decoding). *)
Theorem segments_are_maximal_runs (tokens labels : list string) :
  tokens <> [] -> length labels = length tokens ->
  exists segs : list Segment,
    segments tokens labels = Ok segs /\
    Forall (seg_uniform labels) segs /\
    adjacent_differ segs /\
    expand_segments segs = labels.
Proof.
  intros Hne Hlen.
  destruct (segments_runs tokens labels Hne Hlen)
    as (segs & Hsegs & Huni & Hadj & Hexp).
  exists segs. split; [exact Hsegs |]. split; [exact Huni |].
  split; [exact Hadj | exact Hexp].
Qed.

Lemma segments_are_maximal_runs_witness :
  let tokens := ["a"; "b"; "c"; "d"]%string in
  let labels := ["NEITHER"; "NEITHER"; "EMINESCU"; "NEITHER"]%string in
  tokens <> [] /\ length labels = length tokens /\
  exists segs : list Segment,
    segments tokens labels = Ok segs /\ expand_segments segs = labels.
Proof.
  intros tokens labels.
  assert (Hne : tokens <> []) by discriminate.
  assert (Hlen : length labels = length tokens) by reflexivity.
  split; [exact Hne |]. split; [exact Hlen |].
  destruct (segments_are_maximal_runs tokens labels Hne Hlen)
    as (segs & Hsegs & _ & _ & Hexp).
  exists segs. split; [exact Hsegs | exact Hexp].
Defined.

(** ** Segments when labels and tokens differ in number *)

Lemma foldlM_app {A B : Type} (f : B -> A -> result B) (acc : B)
  (l1 l2 : list A) :
  foldlM f acc (l1 ++ l2) = (acc' ← foldlM f acc l1; foldlM f acc' l2).
Proof.
  revert acc. induction l1 as [|x l1 IH]; intros acc; [reflexivity |].
  cbn [app foldlM]. destruct (f acc x) as [a|e]; [| reflexivity].
  rewrite !bind_Ok. apply IH.
Qed.

Lemma foldlM_ext_in {A B : Type} (f g : B -> A -> result B) (acc : B)
  (l : list A) :
  (forall (x : A) (a : B), x ∈ l -> f a x = g a x) ->
  foldlM f acc l = foldlM g acc l.
Proof.
  revert acc. induction l as [|x l IH]; intros acc Hfg; [reflexivity |].
  cbn [foldlM]. rewrite Hfg by left.
  destruct (g acc x) as [a|e]; [| reflexivity].
  rewrite !bind_Ok. apply IH. intros y b Hy. apply Hfg. by right.
Qed.

Lemma py_getitem_out_of_range {A : Type} (l : list A) (i : Z) :
  len l <= i -> py_getitem l i = Raise IndexError.
Proof.
  intros Hi. unfold py_getitem, py_index.
  assert (0 <= len l) by (unfold len; lia).
  destruct (Z.leb_spec 0 i), (Z.ltb_spec i (len l)); simpl; try lia.
  destruct (Z.leb_spec (- len l) i), (Z.ltb_spec i 0); simpl; try lia;
    reflexivity.
Qed.

Lemma py_getitem_take {A : Type} (l : list A) (n : nat) (i : Z) :
  (n <= length l)%nat -> 0 <= i < Z.of_nat n ->
  py_getitem (take n l) i = py_getitem l i.
Proof.
  intros Hn Hi.
  destruct (lookup_lt_is_Some_2 l (Z.to_nat i)) as [x Hx]; [lia |].
  rewrite (py_getitem_ok l i x) by (lia || done).
  apply py_getitem_ok; [lia |]. rewrite lookup_take_lt by lia. exact Hx.
Qed.

Lemma segments_step_raise (tokens labels : list string) (st : seg_state)
  (i : Z) :
  len labels <= i -> segments_step tokens labels st i = Raise IndexError.
Proof.
  intros Hi. destruct st as [[segs cur] start]. unfold segments_step.
  by rewrite py_getitem_out_of_range.
Qed.

Lemma segments_step_returns (tokens labels : list string) (st : seg_state)
  (i : Z) :
  0 <= i < len labels ->
  exists st' : seg_state, segments_step tokens labels st i = Ok st'.
Proof.
  intros Hi. destruct st as [[segs cur] start]. unfold segments_step.
  destruct (lookup_lt_is_Some_2 labels (Z.to_nat i)) as [x Hx];
    [unfold len in Hi; lia |].
  rewrite (py_getitem_ok labels i x) by (lia || done). rewrite bind_Ok.
  destruct (decide (x ≠ cur)); eauto.
Qed.

(** X6.  [segments] off its intended inputs.  With no token the result is
    the empty list whatever the labels are.  With at least one token and
    fewer labels than tokens it raises [IndexError] (on [labels[0]] or on
    the first position that has no label) and returns no segment.  With
    more labels than tokens the labels beyond the tokens are never read:
    the result is that of the first [len(tokens)] labels. *)
Theorem segments_length_mismatch (tokens labels : list string) :
  segments [] labels = Ok [] /\
  (tokens <> [] -> (length labels < length tokens)%nat ->
   segments tokens labels = Raise IndexError) /\
  ((length tokens <= length labels)%nat ->
   segments tokens labels = segments tokens (take (length tokens) labels)).
Proof.
  split; [reflexivity |]. split.
  - intros Hne Hlt. destruct tokens as [|t ts]; [done |].
    unfold segments.
    destruct labels as [|l0 ls]; [reflexivity |].
    set (labels := l0 :: ls) in *. set (tokens := t :: ts) in *.
    change (py_getitem labels 0) with (Ok l0 : result string).
    rewrite bind_Ok, py_range_unit, bind_Ok.
    assert (Hsplit : seqZ 1 (len tokens - 1) =
                     seqZ 1 (Z.of_nat (length ls)) ++
                     seqZ (len labels) (len tokens - len labels)).
    { replace (len tokens - 1)
        with (Z.of_nat (length ls) + (len tokens - len labels))
        by (unfold len, labels; simpl; lia).
      rewrite seqZ_app by (unfold len, labels, tokens in *; simpl in *; lia).
      do 2 f_equal. unfold len, labels. simpl. lia. }
    rewrite Hsplit, foldlM_app.
    destruct (foldlM_seqZ_inv (segments_step tokens labels)
                (fun _ _ => True) (length ls) 1 ([], l0, 0) I)
      as (st1 & E1 & _).
    { intros i st Hi _.
      destruct (segments_step_returns tokens labels st i) as [st' E];
        [unfold len, labels; simpl; lia | eauto]. }
    rewrite E1, bind_Ok.
    rewrite seqZ_cons by (unfold len, labels, tokens in *; simpl in *; lia).
    cbn [foldlM]. rewrite segments_step_raise by lia. reflexivity.
  - intros Hle. unfold segments. destruct tokens as [|t ts]; [reflexivity |].
    set (tokens := t :: ts) in *.
    assert (Hn : (length tokens <= length labels)%nat) by exact Hle.
    rewrite (py_getitem_take labels (length tokens) 0)
      by (done || (unfold tokens; simpl; lia)).
    destruct (py_getitem labels 0) as [cur|e]; [| reflexivity].
    rewrite !bind_Ok.
    destruct (py_range 1 (len tokens) 1) as [idx|e] eqn:Eidx; [| reflexivity].
    rewrite !bind_Ok.
    rewrite py_range_unit in Eidx. injection Eidx as <-.
    rewrite (foldlM_ext_in (segments_step tokens labels)
               (segments_step tokens (take (length tokens) labels))); [done |].
    intros i [[segs c] start] Hi. apply elem_of_seqZ in Hi.
    unfold segments_step.
    rewrite (py_getitem_take labels (length tokens) i)
      by (done || (unfold len in Hi; lia)).
    reflexivity.
Qed.

Lemma segments_length_mismatch_witness :
  (["a"; "b"]%string <> [] /\
   (length ["NEITHER"%string] < length ["a"; "b"]%string)%nat /\
   segments ["a"; "b"]%string ["NEITHER"%string] = Raise IndexError) /\
  ((length ["a"%string] <= length ["NEITHER"; "EMINESCU"]%string)%nat /\
   segments ["a"%string] ["NEITHER"; "EMINESCU"]%string =
   segments ["a"%string] ["NEITHER"%string]).
Proof.
  assert (Hne : ["a"; "b"]%string <> []) by discriminate.
  assert (Hlt : (length ["NEITHER"%string] < length ["a"; "b"]%string)%nat)
    by (simpl; lia).
  assert (Hle : (length ["a"%string] <=
                 length ["NEITHER"; "EMINESCU"]%string)%nat) by (simpl; lia).
  split.
  - split; [exact Hne |]. split; [exact Hlt |].
    exact (proj1 (proj2 (segments_length_mismatch ["a"; "b"]%string
                           ["NEITHER"%string])) Hne Hlt).
  - split; [exact Hle |].
    exact (proj2 (proj2 (segments_length_mismatch ["a"%string]
                           ["NEITHER"; "EMINESCU"]%string)) Hle).
Defined.

(** ** The aggregation on arbitrary reports *)

Lemma py_index_accepts (n i : Z) :
  0 <= n -> - n <= i < n ->
  exists j : nat, py_index n i = Ok j /\ (j < Z.to_nat n)%nat.
Proof.
  intros Hn Hi. unfold py_index.
  destruct (Z.leb_spec 0 i), (Z.ltb_spec i n); simpl; try lia.
  - exists (Z.to_nat i). split; [reflexivity | lia].
  - destruct (Z.leb_spec (- n) i), (Z.ltb_spec i 0); simpl; try lia.
    exists (Z.to_nat (i + n)). split; [reflexivity | lia].
Qed.

Lemma py_index_refuses (n i : Z) :
  0 <= n -> ~ (- n <= i < n) -> py_index n i = Raise IndexError.
Proof.
  intros Hn Hi. unfold py_index.
  destruct (Z.leb_spec 0 i), (Z.ltb_spec i n); simpl; try lia;
    destruct (Z.leb_spec (- n) i), (Z.ltb_spec i 0); simpl; try lia;
    reflexivity.
Qed.

Lemma add_at_cases (v : R) (n : nat) (sums : list R) (cnts : list nat)
  (i : Z) :
  length sums = n -> length cnts = n ->
  match add_at v (sums, cnts) i with
  | Ok st => length st.1 = n /\ length st.2 = n /\ - Z.of_nat n <= i < Z.of_nat n
  | Raise e => e = IndexError /\ ~ (- Z.of_nat n <= i < Z.of_nat n)
  end.
Proof.
  intros Hs Hc. unfold add_at, py_update. simpl.
  destruct (decide (- Z.of_nat n <= i < Z.of_nat n)) as [Hi|Hi].
  - destruct (py_index_accepts (len sums) i) as (j & Ej & _);
      [unfold len; lia | unfold len; lia |].
    destruct (py_index_accepts (len cnts) i) as (j' & Ej' & _);
      [unfold len; lia | unfold len; lia |].
    rewrite Ej. simpl. rewrite Ej'. simpl.
    rewrite !length_alter. auto.
  - rewrite (py_index_refuses (len sums)) by (unfold len; lia). simpl. auto.
Qed.

Lemma foldlM_add_at_cases (v : R) (n : nat) (l : list Z)
  (sums : list R) (cnts : list nat) :
  length sums = n -> length cnts = n ->
  match foldlM (add_at v) (sums, cnts) l with
  | Ok st =>
      length st.1 = n /\ length st.2 = n /\
      Forall (fun i => - Z.of_nat n <= i < Z.of_nat n) l
  | Raise e =>
      e = IndexError /\ Exists (fun i => ~ (- Z.of_nat n <= i < Z.of_nat n)) l
  end.
Proof.
  revert sums cnts. induction l as [|i l IH]; intros sums cnts Hs Hc.
  - simpl. auto.
  - cbn [foldlM]. pose proof (add_at_cases v n sums cnts i Hs Hc) as Hi.
    destruct (add_at v (sums, cnts) i) as [[sums1 cnts1]|e].
    + destruct Hi as (Hs1 & Hc1 & Hi). rewrite bind_Ok.
      specialize (IH sums1 cnts1 Hs1 Hc1).
      destruct (foldlM (add_at v) (sums1, cnts1) l) as [st|e].
      * destruct IH as (? & ? & ?). auto.
      * destruct IH as [-> Hex]. split; [done |]. by right.
    + destruct Hi as [-> Hi]. rewrite bind_Raise. split; [done |]. by left.
Qed.

Lemma covers_spec (i : Z) (r : WindowReport) :
  covers i r = true <-> w_start r <= i < w_end r.
Proof.
  unfold covers. rewrite andb_true_iff, Z.leb_le, Z.ltb_lt. tauto.
Qed.

Lemma add_window_cases (n : nat) (r : WindowReport)
  (sums : list R) (cnts : list nat) :
  length sums = n -> length cnts = n ->
  match add_window (sums, cnts) r with
  | Ok st =>
      length st.1 = n /\ length st.2 = n /\ report_indexable (Z.of_nat n) r
  | Raise e => e = IndexError /\ ~ report_indexable (Z.of_nat n) r
  end.
Proof.
  intros Hs Hc. unfold add_window. rewrite py_range_unit, bind_Ok.
  pose proof (foldlM_add_at_cases (w_score r) n
                (seqZ (w_start r) (w_end r - w_start r)) sums cnts Hs Hc) as H.
  destruct (foldlM _ _ _) as [st|e].
  - destruct H as (? & ? & Hall). split; [done |]. split; [done |].
    intros i Hi. apply covers_spec in Hi.
    rewrite Forall_forall in Hall. apply Hall. apply elem_of_seqZ. lia.
  - destruct H as [-> Hex]. split; [done |].
    apply Exists_exists in Hex as (i & Hi & Hbad).
    intros Hr. apply Hbad, Hr, covers_spec. apply elem_of_seqZ in Hi. lia.
Qed.

Lemma foldlM_add_window_cases (n : nat) (ws : list WindowReport)
  (sums : list R) (cnts : list nat) :
  length sums = n -> length cnts = n ->
  match foldlM add_window (sums, cnts) ws with
  | Ok st =>
      length st.1 = n /\ length st.2 = n /\
      Forall (report_indexable (Z.of_nat n)) ws
  | Raise e =>
      e = IndexError /\ ~ Forall (report_indexable (Z.of_nat n)) ws
  end.
Proof.
  revert sums cnts. induction ws as [|r ws IH]; intros sums cnts Hs Hc.
  - simpl. auto.
  - cbn [foldlM]. pose proof (add_window_cases n r sums cnts Hs Hc) as Hr.
    destruct (add_window (sums, cnts) r) as [[sums1 cnts1]|e].
    + destruct Hr as (Hs1 & Hc1 & Hr). rewrite bind_Ok.
      specialize (IH sums1 cnts1 Hs1 Hc1).
      destruct (foldlM add_window (sums1, cnts1) ws) as [st|e].
      * destruct IH as (? & ? & ?). auto.
      * destruct IH as [-> Hex]. split; [done |].
        intros Hall. apply Forall_cons in Hall as [_ Hall]. auto.
    + destruct Hr as [-> Hr]. rewrite bind_Raise. split; [done |].
      intros Hall. apply Forall_cons in Hall as [Hall _]. auto.
Qed.

(** X7.  [word_level_labels] on arbitrary reports.  With no token it
    returns the empty list whatever the reports are.  Otherwise it returns
    exactly when every index covered by every report lies in [-n, n), [n]
    being the number of tokens (a negative index is taken from the end, as
    a list index is); what it returns has one label per token; and the
    only exception it raises is [IndexError]. *)
Theorem aggregate_domain (tokens : list string) (windows : list WindowReport)
  (sc : LLRScorer) :
  word_level_labels [] windows sc = Ok [] /\
  (forall labels : list string,
     word_level_labels tokens windows sc = Ok labels ->
     length labels = length tokens) /\
  (forall e : PyError,
     word_level_labels tokens windows sc = Raise e -> e = IndexError) /\
  (tokens <> [] ->
   ((exists labels : list string,
       word_level_labels tokens windows sc = Ok labels) <->
    Forall (report_indexable (len tokens)) windows)).
Proof.
  split; [reflexivity |].
  unfold word_level_labels.
  destruct (Nat.eqb_spec (length tokens) 0) as [Hz|Hnz].
  - split; [intros labels [= <-]; by rewrite Hz |].
    split; [intros e; discriminate |].
    intros Hne. destruct tokens; [done | discriminate].
  - pose proof (foldlM_add_window_cases (length tokens) windows
                  (replicate (length tokens) 0%R)
                  (replicate (length tokens) 0%nat)
                  (length_replicate _ _) (length_replicate _ _)) as H.
    destruct (foldlM add_window _ windows) as [st|e].
    + destruct H as (_ & _ & Hall). rewrite bind_Ok.
      split.
      { intros labels [= <-]. by rewrite length_fmap, length_seq. }
      split; [intros e; discriminate |].
      intros _. split; [intros _; exact Hall | intros _; eauto].
    + destruct H as [-> Hbad]. rewrite bind_Raise.
      split; [intros labels; discriminate |].
      split; [by intros e [= <-] |].
      intros _. split; [intros [labels E]; discriminate | intros Hall; done].
Qed.

Lemma aggregate_domain_witness :
  let sc := make_scorer (train [] 1) (train [] 1) (1 / 4) in
  let windows := [ {| w_start := -2; w_end := 1; w_score := 1;
                      w_label := "EMINESCU"; w_snippet := "" |} ] in
  ["a"; "b"]%string <> [] /\
  Forall (report_indexable (len ["a"; "b"]%string)) windows /\
  exists labels : list string,
    word_level_labels ["a"; "b"]%string windows sc = Ok labels.
Proof.
  intros sc windows.
  assert (Hne : ["a"; "b"]%string <> []) by discriminate.
  assert (Hws : Forall (report_indexable (len ["a"; "b"]%string)) windows).
  { apply List.Forall_cons; [| apply List.Forall_nil].
    intros i Hi. apply covers_spec in Hi. simpl in Hi.
    change (len ["a"; "b"]%string) with 2. lia. }
  split; [exact Hne |]. split; [exact Hws |].
  exact (proj2 (proj2 (proj2 (proj2 (aggregate_domain ["a"; "b"]%string
                                       windows sc))) Hne) Hws).
Defined.

(** ** Which positions the windows of a scan cover *)

Lemma covering_nonempty (i : Z) (rows : list WindowReport) :
  covering i rows <> [] <-> exists r, r ∈ rows /\ covers i r = true.
Proof.
  unfold covering. split.
  - intros Hne. destruct (filter _ rows) as [|r l] eqn:E; [done |].
    assert (Hr : r ∈ filter (fun r => covers i r = true) rows)
      by (rewrite E; left).
    apply list_elem_of_filter in Hr as [Hc Hr]. eauto.
  - intros (r & Hr & Hc) E.
    assert (Hin : r ∈ filter (fun r => covers i r = true) rows)
      by (by apply list_elem_of_filter).
    rewrite E in Hin. by apply elem_of_nil in Hin.
Qed.

(** The rows of a scan, one by one: row [j] spans
    [j*step, j*step + w). *)
Lemma scan_row_at (tokens : list string) (sc : LLRScorer) (window step : Z)
  (rows : list WindowReport) :
  2 <= len tokens -> 1 <= step ->
  sliding_window_scores tokens sc window step = Ok rows ->
  let n := len tokens in
  let w := effective_window window n in
  let count := (n - w) / step + 1 in
  len rows = count /\
  forall (j : nat) (r : WindowReport),
    rows !! j = Some r ->
    Z.of_nat j < count /\
    w_start r = Z.of_nat j * step /\ w_end r = Z.of_nat j * step + w.
Proof.
  intros Hn Hstep Hrows n w count.
  destruct (scan_any_rows tokens sc window step rows Hn Hstep Hrows)
    as [Hst Hen].
  fold n in Hst, Hen. fold w in Hst, Hen. fold count in Hst.
  pose proof (effective_window_bounds window n Hn) as Hw. fold w in Hw.
  assert (Hq : 0 <= (n - w) / step) by (apply Z.div_pos; lia).
  assert (Hlen : len rows = count).
  { unfold len. rewrite <- (length_fmap w_start), Hst.
    unfold window_starts. rewrite length_fmap, length_seqZ.
    unfold count. lia. }
  split; [exact Hlen |].
  intros j r Hj.
  assert (Hjc : Z.of_nat j < count).
  { apply lookup_lt_Some in Hj. unfold len in Hlen. lia. }
  split; [exact Hjc |].
  assert (Hs : w_start r = Z.of_nat j * step).
  { assert (E : (w_start <$> rows) !! j = Some (w_start r))
      by (by rewrite list_lookup_fmap, Hj).
    rewrite Hst in E. unfold window_starts in E.
    rewrite list_lookup_fmap, lookup_seqZ_lt in E by lia.
    simpl in E. injection E as E. lia. }
  split; [exact Hs |].
  rewrite Forall_forall in Hen. rewrite <- Hs. apply Hen.
  by eapply list_elem_of_lookup_2.
Qed.

(** X8.  Where the windows of a scan lie ([n >= 2] tokens, stride
    [step >= 1], effective window [w]).  The last report of the list
    starts at [floor((n - w) / step) * step] and ends at that plus [w];
    no report ends later, and this end leaves fewer than [step] trailing
    tokens beyond it.  When [step <= w], a token position is
    covered by some window exactly when it lies before that end, so with
    [step = 1] every token is covered and otherwise up to [step - 1]
    trailing tokens are covered by no window; when [step >= w], no position
    is covered by two windows. *)
Theorem scan_coverage (tokens : list string) (sc : LLRScorer)
  (window step : Z) (rows : list WindowReport) :
  2 <= len tokens -> 1 <= step ->
  sliding_window_scores tokens sc window step = Ok rows ->
  let n := len tokens in
  let w := effective_window window n in
  let last_end := (n - w) / step * step + w in
  (exists r : WindowReport,
     last rows = Some r /\
     w_start r = (n - w) / step * step /\ w_end r = last_end) /\
  Forall (fun r => w_end r <= last_end) rows /\
  last_end <= n /\ n - last_end < step /\
  (step <= w -> forall i : Z, 0 <= i < n ->
     (covering i rows <> [] <-> i < last_end)) /\
  (step = 1 -> forall i : Z, 0 <= i < n -> covering i rows <> []) /\
  (w <= step ->
   forall (i : Z) (j1 j2 : nat) (r1 r2 : WindowReport),
     rows !! j1 = Some r1 -> rows !! j2 = Some r2 ->
     covers i r1 = true -> covers i r2 = true -> j1 = j2).
Proof.
  intros Hn Hstep Hrows n w last_end.
  destruct (scan_row_at tokens sc window step rows Hn Hstep Hrows)
    as [Hlen Hrow].
  fold n in Hlen, Hrow. fold w in Hlen, Hrow.
  pose proof (effective_window_bounds window n Hn) as Hw. fold w in Hw.
  assert (Hq : 0 <= (n - w) / step) by (apply Z.div_pos; lia).
  assert (Hlo : step * ((n - w) / step) <= n - w)
    by (apply Z.mul_div_le; lia).
  assert (Hhi : n - w < step * Z.succ ((n - w) / step))
    by (apply Z.mul_succ_div_gt; lia).
  assert (Hcover : step <= w -> forall i : Z, 0 <= i < n ->
            (covering i rows <> [] <-> i < last_end)).
  { intros Hsw i Hi. rewrite covering_nonempty. split.
    - intros (r & Hr & Hc). apply list_elem_of_lookup in Hr as [j Hj].
      destruct (Hrow j r Hj) as (Hjc & Hs & He).
      apply covers_spec in Hc. unfold last_end. nia.
    - intros Hlt.
      set (j := Z.min (i / step) ((n - w) / step)).
      assert (Hj0 : 0 <= j).
      { unfold j. assert (0 <= i / step) by (apply Z.div_pos; lia). lia. }
      assert (Hjlen : (Z.to_nat j < length rows)%nat)
        by (unfold len in Hlen; unfold j in *; lia).
      destruct (lookup_lt_is_Some_2 rows (Z.to_nat j) Hjlen) as [r Hr].
      destruct (Hrow _ r Hr) as (_ & Hs & He).
      exists r. split; [by eapply list_elem_of_lookup_2 |].
      apply covers_spec. rewrite Hs, He, Z2Nat.id by lia.
      assert (Hilo : step * (i / step) <= i) by (apply Z.mul_div_le; lia).
      assert (Hihi : i < step * Z.succ (i / step))
        by (apply Z.mul_succ_div_gt; lia).
      unfold last_end in Hlt. unfold j.
      destruct (Z.min_spec (i / step) ((n - w) / step)) as [[Hc ->]|[Hc ->]];
        nia. }
  split.
  { assert (Hlast : (Z.to_nat ((n - w) / step) < length rows)%nat)
      by (unfold len in Hlen; lia).
    destruct (lookup_lt_is_Some_2 rows _ Hlast) as [r Hr].
    exists r. split.
    - rewrite last_lookup, <- Hr. f_equal. unfold len in Hlen. lia.
    - destruct (Hrow _ r Hr) as (_ & Hs & He).
      rewrite Z2Nat.id in Hs, He by lia. unfold last_end. by split. }
  split.
  { apply Forall_forall. intros r Hr.
    apply list_elem_of_lookup in Hr as [j Hj].
    destruct (Hrow j r Hj) as (Hjc & _ & He). unfold last_end. nia. }
  split; [unfold last_end; lia |].
  split; [unfold last_end; lia |].
  split; [exact Hcover |].
  split.
  - intros -> i Hi. apply Hcover; [lia | done |].
    unfold last_end. rewrite Z.div_1_r. lia.
  - intros Hws i j1 j2 r1 r2 H1 H2 Hc1 Hc2.
    destruct (Hrow j1 r1 H1) as (_ & Hs1 & He1).
    destruct (Hrow j2 r2 H2) as (_ & Hs2 & He2).
    apply covers_spec in Hc1. apply covers_spec in Hc2.
    rewrite Hs1, He1 in Hc1. rewrite Hs2, He2 in Hc2.
    destruct (Nat.lt_trichotomy j1 j2) as [Hlt|[Heq|Hgt]]; [| done |]; nia.
Qed.

Lemma scan_coverage_witness :
  let sc := make_scorer (train ["a"; "a"; "b"]%string 1)
                        (train ["b"; "b"; "a"]%string 1) (1 / 4) in
  let tokens := ["a"; "b"; "a"; "b"; "b"]%string in
  2 <= len tokens /\ 1 <= 2 /\
  exists rows : list WindowReport,
    sliding_window_scores tokens sc 2 2 = Ok rows /\
    covering 3 rows <> [] /\ ~ covering 4 rows <> [].
Proof.
  intros sc tokens.
  assert (Hn : 2 <= len tokens) by (vm_compute; discriminate).
  assert (Hstep : 1 <= 2) by lia.
  split; [exact Hn |]. split; [exact Hstep |].
  assert (Hok : scorer_ok sc) by (apply scorer_ok_trained; lra).
  pose proof (scan_rows tokens sc 2 2 Hok Hn Hstep) as Hrows.
  cbv zeta in Hrows. eexists. split; [exact Hrows |].
  destruct (scan_coverage tokens sc 2 2 _ Hn Hstep Hrows)
    as (_ & _ & _ & _ & Hcover & _).
  assert (Hsw : 2 <= effective_window 2 (len tokens))
    by (vm_compute; discriminate).
  split.
  - apply (Hcover Hsw 3); [vm_compute; split; [discriminate | reflexivity] |].
    vm_compute. reflexivity.
  - intros H. apply (Hcover Hsw 4) in H;
      [| vm_compute; split; [discriminate | reflexivity]].
    vm_compute in H. discriminate.
Defined.

(** ** The pipeline as a whole *)

Lemma label_is_label (sc : LLRScorer) (s : R) : is_label (label sc s).
Proof.
  unfold is_label.
  destruct (label_cases sc s) as [[-> _]|[[-> _]|[-> _]]]; auto.
Qed.

Lemma counter_total_labels (l : list string) :
  Forall is_label l ->
  (counter_get (Counter_of l) "EMINESCU"%string +
   counter_get (Counter_of l) "STANESCU"%string +
   counter_get (Counter_of l) "NEITHER"%string)%nat = length l.
Proof.
  intros Hl. rewrite !counter_get_Counter_of.
  induction Hl as [|x l Hx Hl IH]; [reflexivity |].
  rewrite !occurrences_cons. cbn [length].
  destruct Hx as [-> | [-> | ->]]; repeat case_decide; try (exfalso; congruence); lia.
Qed.

(** The result of [run_analysis] from the results of its three stages. *)
Lemma run_analysis_parts (eminescu_text stanescu_text accused_text : string)
  (window step : Z) (kk eps : R) (rows : list WindowReport)
  (wlabs : list string) (segs : list Segment) :
  let tokA := tokenize accused_text in
  let sc := make_scorer (train (tokenize eminescu_text) kk)
                        (train (tokenize stanescu_text) kk) eps in
  let ew := match tokA with
            | [] => window
            | _ :: _ => Z.max 2 (Z.min window (len tokA))
            end in
  sliding_window_scores tokA sc ew step = Ok rows ->
  word_level_labels tokA rows sc = Ok wlabs ->
  segments tokA wlabs = Ok segs ->
  run_analysis eminescu_text stanescu_text accused_text window step kk eps =
  Ok {| a_effective_window := ew;
        a_rows := rows;
        a_wlabs := wlabs;
        a_segs := segs;
        a_win_counts := Counter_of (w_label <$> rows);
        a_word_counts := Counter_of wlabs |}.
Proof.
  intros tokA sc ew H1 H2 H3. unfold run_analysis.
  fold tokA. fold sc. fold ew. rewrite H1, bind_Ok, H2, bind_Ok, H3. reflexivity.
Qed.

Lemma clamp_twice (window n : Z) :
  effective_window (effective_window window n) n = effective_window window n.
Proof. unfold effective_window. lia. Qed.

Lemma rows_labels_are_labels (tokens : list string) (sc : LLRScorer)
  (w : Z) (idx : list Z) (acc rows : list WindowReport) :
  Forall (fun r => w_label r = label sc (w_score r)) acc ->
  foldlM (window_row tokens sc w) acc idx = Ok rows ->
  Forall (fun r => w_label r = label sc (w_score r)) rows.
Proof.
  revert acc. induction idx as [|i idx IH]; intros acc Hacc.
  - by intros [= <-].
  - cbn [foldlM]. rewrite window_row_cases.
    destruct (score_window sc _) as [v|e]; [| discriminate].
    rewrite bind_Ok. apply IH. apply Forall_app. split; [done |].
    by constructor.
Qed.

(** Every report of a scan carries the label of its own score. *)
Lemma scan_labels (tokens : list string) (sc : LLRScorer) (window step : Z)
  (rows : list WindowReport) :
  sliding_window_scores tokens sc window step = Ok rows ->
  Forall (fun r => w_label r = label sc (w_score r)) rows.
Proof.
  unfold sliding_window_scores.
  destruct (len tokens <? 2); [by intros [= <-] |].
  destruct (py_range _ _ _) as [idx|e]; [| discriminate].
  rewrite bind_Ok. by apply rows_labels_are_labels.
Qed.

(** The parts of a successful run, with what is known of each. *)
Lemma run_analysis_full (eminescu_text stanescu_text accused_text : string)
  (window step : Z) (kk eps : R) :
  1 <= step -> (0 < kk)%R ->
  let tokA := tokenize accused_text in
  let sc := make_scorer (train (tokenize eminescu_text) kk)
                        (train (tokenize stanescu_text) kk) eps in
  exists (rows : list WindowReport) (wlabs : list string) (segs : list Segment),
    run_analysis eminescu_text stanescu_text accused_text window step kk eps =
    Ok {| a_effective_window :=
            match tokA with
            | [] => window
            | _ :: _ => Z.max 2 (Z.min window (len tokA))
            end;
          a_rows := rows;
          a_wlabs := wlabs;
          a_segs := segs;
          a_win_counts := Counter_of (w_label <$> rows);
          a_word_counts := Counter_of wlabs |} /\
    sliding_window_scores tokA sc window step = Ok rows /\
    word_level_labels tokA rows sc = Ok wlabs /\
    segments tokA wlabs = Ok segs /\
    length wlabs = length tokA /\
    (forall i : nat, (i < length tokA)%nat ->
       wlabs !! i = Some (label sc (mean_score (Z.of_nat i) rows))).
Proof.
  intros Hstep Hk tokA sc.
  assert (Hok : scorer_ok sc) by (by apply scorer_ok_trained).
  set (ew := match tokA with
             | [] => window
             | _ :: _ => Z.max 2 (Z.min window (len tokA))
             end).
  assert (Hscan : exists rows,
            sliding_window_scores tokA sc ew step = Ok rows /\
            sliding_window_scores tokA sc window step = Ok rows).
  { destruct (Z.lt_ge_cases (len tokA) 2) as [Hlt|Hge].
    - exists []. split; by apply scan_fewer_than_two.
    - eexists. split; [| apply scan_rows; [done | lia | done]].
      rewrite scan_rows by (done || lia). cbv zeta.
      assert (Hew : ew = effective_window window (len tokA)).
      { unfold ew. destruct tokA; [unfold len in Hge; simpl in Hge; lia | done]. }
      by rewrite Hew, clamp_twice. }
  destruct Hscan as (rows & Hrows & Hrows').
  pose proof (scan_any tokA sc ew step) as Hin. rewrite Hrows in Hin.
  destruct (word_level_labels_in_range tokA rows sc Hin)
    as (wlabs & Hw & Hlen & Hlab).
  destruct (after_scan tokA rows sc Hin) as (wlabs' & segs & Hw' & Hsegs & _).
  assert (wlabs' = wlabs) by congruence. subst wlabs'.
  exists rows, wlabs, segs.
  split; [by apply run_analysis_parts |]. auto.
Qed.

(** X9.  What a run with [step >= 1] and [k > 0] returns: the window given
    to the scan is the requested one clamped to [2, n] (the requested one
    when there is no accused token) and clamping before the call changes
    nothing, the reports being those of the scan with the requested
    window; there is one label per accused token; every label, of a window
    or of a word, is one of "EMINESCU", "STANESCU", "NEITHER"; the three
    window counts add up to the number of windows and the three word counts
    to the number of tokens; and the segments concatenate to the accused
    tokens and decode to the word labels. *)
Theorem run_analysis_output (eminescu_text stanescu_text accused_text : string)
  (window step : Z) (kk eps : R) :
  1 <= step -> (0 < kk)%R ->
  let tokA := tokenize accused_text in
  let sc := make_scorer (train (tokenize eminescu_text) kk)
                        (train (tokenize stanescu_text) kk) eps in
  exists a : Analysis,
    run_analysis eminescu_text stanescu_text accused_text window step kk eps
    = Ok a /\
    sliding_window_scores tokA sc window step = Ok (a_rows a) /\
    (tokA <> [] -> a_effective_window a = effective_window window (len tokA)) /\
    length (a_wlabs a) = length tokA /\
    Forall (fun r => is_label (w_label r)) (a_rows a) /\
    Forall is_label (a_wlabs a) /\
    (counter_get (a_win_counts a) "EMINESCU"%string +
     counter_get (a_win_counts a) "STANESCU"%string +
     counter_get (a_win_counts a) "NEITHER"%string)%nat = length (a_rows a) /\
    (counter_get (a_word_counts a) "EMINESCU"%string +
     counter_get (a_word_counts a) "STANESCU"%string +
     counter_get (a_word_counts a) "NEITHER"%string)%nat = length tokA /\
    concat (seg_tokens tokA <$> a_segs a) = tokA /\
    expand_segments (a_segs a) = a_wlabs a.
Proof.
  intros Hstep Hk tokA sc.
  destruct (run_analysis_full eminescu_text stanescu_text accused_text
              window step kk eps Hstep Hk)
    as (rows & wlabs & segs & Hrun & Hrows & Hw & Hsegs & Hlen & Hlab).
  fold tokA in Hrun, Hrows, Hw, Hsegs, Hlen, Hlab.
  fold sc in Hrows, Hw, Hlab.
  assert (HrowsL : Forall (fun r => is_label (w_label r)) rows).
  { eapply Forall_impl; [by eapply scan_labels |].
    intros r ->. apply label_is_label. }
  assert (HwL : Forall is_label wlabs).
  { apply Forall_lookup. intros i l Hl.
    assert (Hi : (i < length tokA)%nat)
      by (rewrite <- Hlen; by eapply lookup_lt_Some).
    rewrite Hlab in Hl by done. injection Hl as <-. apply label_is_label. }
  eexists. split; [exact Hrun |]. cbn [a_rows a_wlabs a_segs a_win_counts
                                          a_word_counts a_effective_window].
  split; [exact Hrows |].
  split; [intros Hne; by destruct tokA |].
  split; [exact Hlen |].
  split; [exact HrowsL |].
  split; [exact HwL |].
  split.
  { rewrite counter_total_labels; [by rewrite length_fmap |].
    by apply Forall_fmap. }
  split; [by rewrite counter_total_labels |].
  destruct tokA as [|t ts] eqn:Et.
  - injection Hsegs as <-. destruct wlabs; [done | discriminate].
  - rewrite <- Et in *.
    assert (Hne : tokA <> []) by (by rewrite Et).
    destruct (segments_returns tokA wlabs Hne Hlen)
      as (segs1 & E1 & _ & Hcat & _).
    destruct (segments_runs tokA wlabs Hne Hlen)
      as (segs2 & E2 & _ & _ & Hexp).
    assert (segs1 = segs) by congruence.
    assert (segs2 = segs) by congruence. subst. auto.
Qed.

Lemma run_analysis_output_witness :
  1 <= 1 /\ (0 < 1)%R /\
  exists a : Analysis,
    run_analysis "a a b" "b b a" "a b a b" 2 1 1 (1 / 4) = Ok a /\
    length (a_wlabs a) = length (tokenize "a b a b") /\
    expand_segments (a_segs a) = a_wlabs a.
Proof.
  assert (H1 : 1 <= 1) by lia.
  assert (Hk : (0 < 1)%R) by lra.
  split; [exact H1 |]. split; [exact Hk |].
  destruct (run_analysis_output "a a b" "b b a" "a b a b" 2 1 1 (1 / 4) H1 Hk)
    as (a & Ha & _ & _ & Hlen & _ & _ & _ & _ & _ & Hexp).
  exists a. split; [exact Ha |]. split; [exact Hlen | exact Hexp].
Defined.

(** ** The same reference text for both authors *)

Lemma Rsum_zero (l : list R) : Forall (fun x => x = 0%R) l -> Rsum l = 0%R.
Proof.
  induction 1 as [|x l Hx Hl IH]; [reflexivity |].
  unfold Rsum in *. cbn [foldr]. rewrite IH, Hx. lra.
Qed.

Lemma mean_score_zero (i : Z) (rows : list WindowReport) :
  Forall (fun r => w_score r = 0%R) rows -> mean_score i rows = 0%R.
Proof.
  intros Hrows. unfold mean_score.
  destruct (covering i rows) as [|r l] eqn:E; [reflexivity |].
  rewrite Rsum_zero; [unfold Rdiv; ring |].
  apply Forall_fmap. rewrite <- E. unfold covering.
  apply Forall_forall. intros x Hx. apply list_elem_of_filter in Hx as [_ Hx].
  rewrite Forall_forall in Hrows. by apply Hrows.
Qed.

Lemma label_changes_constant (x : string) (l : list string) :
  Forall (fun y => y = x) l -> label_changes l = 0%nat.
Proof.
  induction 1 as [|a l Ha Hl IH]; [reflexivity |].
  destruct l as [|b l]; [reflexivity |].
  cbn [label_changes] in *. rewrite IH.
  apply Forall_cons in Hl as [Hb _]. subst.
  destruct (decide (x ≠ x)); [done | reflexivity].
Qed.

(** X10.  When both reference texts are the same, with [step >= 1],
    [k > 0] and [epsNeither >= 0]: every window scores exactly 0 and is
    "NEITHER", every word is "NEITHER", and a non-empty accused text gives
    a single segment, "NEITHER", that spans all of it. *)
Theorem same_reference_text (text accused_text : string)
  (window step : Z) (kk eps : R) :
  1 <= step -> (0 < kk)%R -> (0 <= eps)%R ->
  let tokA := tokenize accused_text in
  exists a : Analysis,
    run_analysis text text accused_text window step kk eps = Ok a /\
    Forall (fun r => w_score r = 0%R /\ w_label r = "NEITHER"%string)
      (a_rows a) /\
    Forall (fun l => l = "NEITHER"%string) (a_wlabs a) /\
    (tokA <> [] ->
     exists s : Segment,
       a_segs a = [s] /\ seg_label s = "NEITHER"%string /\
       seg_start s = 0 /\ seg_end s = len tokA).
Proof.
  intros Hstep Hk Heps tokA.
  destruct (run_analysis_full text text accused_text window step kk eps
              Hstep Hk)
    as (rows & wlabs & segs & Hrun & Hrows & Hw & Hsegs & Hlen & Hlab).
  fold tokA in Hrun, Hrows, Hw, Hsegs, Hlen, Hlab.
  set (sc := make_scorer (train (tokenize text) kk)
                         (train (tokenize text) kk) eps) in *.
  assert (Hok : scorer_ok sc) by (by apply scorer_ok_trained).
  assert (H0 : label sc 0 = "NEITHER"%string)
    by (apply label_in_band; simpl; lra).
  assert (Hscores : Forall (fun r => w_score r = 0%R) rows).
  { destruct (Z.lt_ge_cases (len tokA) 2) as [Hlt|Hge].
    - rewrite scan_fewer_than_two in Hrows by done. by injection Hrows as <-.
    - rewrite scan_rows in Hrows by (done || lia). injection Hrows as <-.
      apply Forall_fmap, Forall_forall. intros j _. simpl.
      by apply llr_sum_same_models. }
  assert (HrowsN : Forall (fun r => w_score r = 0%R /\
                                    w_label r = "NEITHER"%string) rows).
  { pose proof (scan_labels tokA sc window step rows Hrows) as HL.
    rewrite Forall_forall in HL, Hscores. apply Forall_forall. intros r Hr.
    split; [by apply Hscores |]. rewrite (HL r Hr), (Hscores r Hr). exact H0. }
  assert (HwN : Forall (fun l => l = "NEITHER"%string) wlabs).
  { apply Forall_lookup. intros i l Hl.
    assert (Hi : (i < length tokA)%nat)
      by (rewrite <- Hlen; by eapply lookup_lt_Some).
    rewrite Hlab in Hl by done. injection Hl as <-.
    by rewrite mean_score_zero. }
  eexists. split; [exact Hrun |]. cbn [a_rows a_wlabs a_segs].
  split; [exact HrowsN |]. split; [exact HwN |].
  intros Hne.
  destruct (segments_returns tokA wlabs Hne Hlen)
    as (segs1 & E1 & Hchain & _ & Hcount & _).
  destruct (segments_runs tokA wlabs Hne Hlen)
    as (segs2 & E2 & Huni & _ & _).
  assert (segs1 = segs) by congruence.
  assert (segs2 = segs) by congruence. subst segs1 segs2.
  rewrite (label_changes_constant "NEITHER" wlabs HwN) in Hcount.
  destruct segs as [|s [|s' segs]]; try discriminate.
  simpl in Hchain. destruct Hchain as (Hs & Hlt & He).
  exists s. split; [reflexivity |].
  split; [| auto].
  apply Forall_inv in Huni.
  assert (Hl0 : wlabs !! Z.to_nat 0 = Some (seg_label s)) by (apply Huni; lia).
  rewrite Forall_lookup in HwN. by eapply HwN.
Qed.

Lemma same_reference_text_witness :
  1 <= 1 /\ (0 < 1)%R /\ (0 <= 1 / 4)%R /\
  exists a : Analysis,
    run_analysis "a a b" "a a b" "b a b" 2 1 1 (1 / 4) = Ok a /\
    Forall (fun l => l = "NEITHER"%string) (a_wlabs a).
Proof.
  assert (H1 : 1 <= 1) by lia.
  assert (Hk : (0 < 1)%R) by lra.
  assert (He : (0 <= 1 / 4)%R) by lra.
  split; [exact H1 |]. split; [exact Hk |]. split; [exact He |].
  destruct (same_reference_text "a a b" "b a b" 2 1 1 (1 / 4) H1 Hk He)
    as (a & Ha & _ & Hw & _).
  exists a. split; [exact Ha | exact Hw].
Defined.

(** ** The tokenizer *)

Lemma lower_diacritic_cases (a b x y : N) :
  lower_diacritic a b = Some (x, y) ->
  lower_diacritic x y = Some (x, y) /\
  (128 <= x < 256)%N /\ (128 <= y < 256)%N /\ (128 <= a < 256)%N /\
  (128 <= b < 256)%N.
Proof.
  unfold lower_diacritic.
  destruct a as [|p]; [discriminate |].
  do 8 (destruct p as [p|p|]; try discriminate).
  all: destruct b as [|q]; try discriminate.
  all: do 8 (destruct q as [q|q|]; try discriminate).
  all: intros [= <- <-]; vm_compute; repeat split; congruence.
Qed.

Lemma take_letter_spec (s l rest : list ascii) :
  take_letter s = Some (l, rest) ->
  is_lower_letter l /\ (length l + length rest = length s)%nat.
Proof.
  unfold take_letter. destruct s as [|c s]; [discriminate |].
  destruct ((65 <=? N_of_ascii c) && (N_of_ascii c <=? 90))%N eqn:Eup.
  { intros [= <- <-]. split; [| reflexivity]. left.
    apply andb_true_iff in Eup as [H1 H2].
    apply N.leb_le in H1. apply N.leb_le in H2.
    eexists. split; [reflexivity |].
    rewrite N_ascii_embedding by lia. lia. }
  destruct ((97 <=? N_of_ascii c) && (N_of_ascii c <=? 122))%N eqn:Elo.
  { intros [= <- <-]. split; [| reflexivity]. left.
    apply andb_true_iff in Elo as [H1 H2].
    apply N.leb_le in H1. apply N.leb_le in H2. eauto. }
  destruct s as [|d s]; [discriminate |].
  destruct (lower_diacritic (N_of_ascii c) (N_of_ascii d)) as [[a b]|] eqn:Ed;
    [| discriminate].
  intros [= <- <-]. split; [| reflexivity]. right.
  apply lower_diacritic_cases in Ed as (Hfix & _). eauto.
Qed.

(** A lower-case letter is read back as itself. *)
Lemma take_letter_lower (l rest : list ascii) :
  is_lower_letter l -> take_letter (l ++ rest) = Some (l, rest).
Proof.
  intros [(c & -> & Hc)|(a & b & -> & Hd)]; unfold take_letter; cbn [app].
  - destruct (N.leb_spec 65 (N_of_ascii c)), (N.leb_spec (N_of_ascii c) 90);
      cbn [andb]; try lia;
      destruct (N.leb_spec 97 (N_of_ascii c)),
        (N.leb_spec (N_of_ascii c) 122); cbn [andb]; try lia; reflexivity.
  - pose proof (lower_diacritic_cases a b a b Hd) as (_ & Ha & Hb & _).
    rewrite !N_ascii_embedding by lia.
    destruct (N.leb_spec 65 a), (N.leb_spec a 90); cbn [andb]; try lia;
      destruct (N.leb_spec 97 a), (N.leb_spec a 122); cbn [andb]; try lia;
      by rewrite Hd.
Qed.

Lemma take_letters_spec (fuel : nat) (s run rest : list ascii) :
  take_letters fuel s = (run, rest) ->
  (exists ls : list (list ascii),
     Forall is_lower_letter ls /\ run = concat ls) /\
  (length run + length rest = length s)%nat.
Proof.
  revert s run rest. induction fuel as [|fuel IH]; intros s run rest.
  - intros [= <- <-]. split; [by exists [] | reflexivity].
  - cbn [take_letters].
    destruct (take_letter s) as [[l s1]|] eqn:El.
    + destruct (take_letters fuel s1) as [run1 rest1] eqn:E1.
      intros [= <- <-].
      apply take_letter_spec in El as [Hl Hlen].
      apply IH in E1 as [(ls & Hls & ->) Hlen1].
      split.
      * exists (l :: ls). split; [by constructor | reflexivity].
      * rewrite length_app. lia.
    + intros [= <- <-]. split; [by exists [] | reflexivity].
Qed.

Lemma lower_letter_nonempty (l : list ascii) : is_lower_letter l -> l <> [].
Proof. by intros [(c & -> & _)|(a & b & -> & _)]. Qed.

Lemma lower_run_of_letters (ls : list (list ascii)) :
  Forall is_lower_letter ls -> concat ls <> [] -> lower_run (concat ls).
Proof.
  intros Hls Hne. exists ls. split; [| done]. by intros ->.
Qed.

Lemma lower_run_nonempty (r : list ascii) : lower_run r -> r <> [].
Proof.
  intros (ls & Hne & Hls & ->). destruct ls as [|l ls]; [done |].
  apply Forall_cons in Hls as [Hl _]. apply lower_letter_nonempty in Hl.
  simpl. by destruct l.
Qed.

Lemma match_word_spec (s w s' : list ascii) :
  match_word s = Some (w, s') ->
  word_shape w /\ (length w + length s' = length s)%nat.
Proof.
  unfold match_word.
  destruct (take_letters (length s) s) as [run rest] eqn:E.
  apply take_letters_spec in E as [(ls & Hls & Hrun) Hlen].
  destruct run as [|c run]; [discriminate |].
  assert (Hr : lower_run (c :: run))
    by (rewrite Hrun; apply lower_run_of_letters; [done | by rewrite <- Hrun]).
  assert (Hplain : Some (c :: run, rest) = Some (w, s') ->
                   word_shape w /\ (length w + length s' = length s)%nat).
  { intros [= <- <-]. split; [by left | exact Hlen]. }
  destruct rest as [|d rest1]; [exact Hplain |].
  destruct (decide (d = "-"%char)) as [->|Hd].
  - destruct (take_letters (length rest1) rest1) as [run2 rest2] eqn:E2.
    apply take_letters_spec in E2 as [(ls2 & Hls2 & Hrun2) Hlen2].
    destruct run2 as [|c2 run2]; [exact Hplain |].
    intros [= <- <-]. split.
    + right. exists (c :: run), (c2 :: run2). split; [done |].
      split; [| reflexivity].
      rewrite Hrun2. apply lower_run_of_letters; [done | by rewrite <- Hrun2].
    + cbn [length] in *. rewrite length_app. cbn [length]. lia.
  - destruct d as [[] [] [] [] [] [] [] []]; try exact Hplain; done.
Qed.

Lemma findall_tokens (fuel : nat) (s : list ascii) :
  Forall is_token (findall fuel s).
Proof.
  revert s. induction fuel as [|fuel IH]; intros s; [constructor |].
  cbn [findall]. destruct s as [|c s]; [constructor |].
  destruct (match_word (c :: s)) as [[w s']|] eqn:E; [| apply IH].
  constructor; [| apply IH].
  apply match_word_spec in E as [Hw _].
  unfold is_token. by rewrite list_ascii_of_string_of_list_ascii.
Qed.

Lemma is_lower_letter_bytes (l : list ascii) :
  is_lower_letter l ->
  Forall (fun c => (97 <= N_of_ascii c <= 122)%N \/ (128 <= N_of_ascii c)%N) l.
Proof.
  intros [(c & -> & Hc)|(a & b & -> & Hd)].
  - constructor; [by left | constructor].
  - pose proof (lower_diacritic_cases a b a b Hd) as (_ & Ha & Hb & _).
    constructor; [| constructor; [| constructor]];
      right; rewrite N_ascii_embedding; lia.
Qed.

Lemma lower_run_bytes (r : list ascii) :
  lower_run r ->
  Forall (fun c => (97 <= N_of_ascii c <= 122)%N \/ (128 <= N_of_ascii c)%N) r.
Proof.
  intros (ls & _ & Hls & ->). induction Hls as [|l ls Hl Hls IH]; [constructor |].
  simpl. apply Forall_app. split; [by apply is_lower_letter_bytes | exact IH].
Qed.

(** X11.  Every token the tokenizer returns is a non-empty run of
    lower-case letters, or two such runs joined by a single hyphen: no
    token is empty, none starts or ends with a hyphen, and no byte of a
    token is an upper-case ASCII letter, a digit, a space or any other
    ASCII character than [a] to [z] and the hyphen. *)
Theorem tokenize_shape (text : string) :
  Forall (fun t =>
            is_token t /\ t <> ""%string /\
            Forall (fun c => (97 <= N_of_ascii c <= 122)%N \/
                             N_of_ascii c = 45%N \/
                             (128 <= N_of_ascii c)%N)
              (list_ascii_of_string t))
    (tokenize text).
Proof.
  unfold tokenize. eapply Forall_impl; [apply findall_tokens |].
  intros t Ht. split; [exact Ht |]. split.
  - intros ->. destruct Ht as [Hr|(r1 & r2 & Hr1 & _ & E)].
    + by apply lower_run_nonempty in Hr.
    + simpl in E. by destruct r1.
  - destruct Ht as [Hr|(r1 & r2 & Hr1 & Hr2 & ->)].
    + eapply Forall_impl; [by apply lower_run_bytes |].
      intros c [H|H]; auto.
    + apply Forall_app. split; [| constructor; [right; by left |]];
        (eapply Forall_impl; [by apply lower_run_bytes |]);
        intros c [H|H]; auto.
Qed.

Lemma take_letters_lower (ls : list (list ascii)) (rest : list ascii)
  (fuel : nat) :
  Forall is_lower_letter ls -> take_letter rest = None ->
  (length (concat ls ++ rest) <= fuel)%nat ->
  take_letters fuel (concat ls ++ rest) = (concat ls, rest).
Proof.
  intros Hls Hrest. revert fuel. induction Hls as [|l ls Hl Hls IH]; intros fuel Hf.
  - simpl. destruct fuel; [reflexivity |]. cbn [take_letters]. by rewrite Hrest.
  - pose proof (lower_letter_nonempty l Hl) as Hne.
    cbn [concat] in *. rewrite <- app_assoc in *.
    destruct fuel as [|fuel].
    { rewrite length_app in Hf. destruct l; [done | simpl in Hf; lia]. }
    cbn [take_letters]. rewrite take_letter_lower by done.
    rewrite IH; [reflexivity |].
    rewrite length_app in Hf. destruct l; [done | simpl in Hf; lia].
Qed.

Lemma take_letters_run (r rest : list ascii) (fuel : nat) :
  lower_run r -> take_letter rest = None ->
  (length (r ++ rest) <= fuel)%nat ->
  take_letters fuel (r ++ rest) = (r, rest).
Proof.
  intros (ls & _ & Hls & ->). by apply take_letters_lower.
Qed.

Lemma take_letter_space (rest : list ascii) :
  take_letter (" "%char :: rest) = None.
Proof. unfold take_letter. simpl. by destruct rest. Qed.

Lemma take_letter_hyphen (rest : list ascii) :
  take_letter ("-"%char :: rest) = None.
Proof. unfold take_letter. simpl. by destruct rest. Qed.

(** A word of the token shape, followed by nothing or by a space, is
    matched whole. *)
Lemma match_word_token (w rest : list ascii) :
  word_shape w ->
  rest = [] \/ (exists rest', rest = " "%char :: rest') ->
  match_word (w ++ rest) = Some (w, rest).
Proof.
  intros Hw Hrest.
  assert (Hnone : take_letter rest = None).
  { destruct Hrest as [->|[rest' ->]]; [reflexivity | apply take_letter_space]. }
  unfold match_word. destruct Hw as [Hr|(r1 & r2 & Hr1 & Hr2 & ->)].
  - rewrite take_letters_run by done.
    pose proof (lower_run_nonempty w Hr) as Hne.
    destruct w as [|c w]; [done |].
    destruct Hrest as [->|[rest' ->]]; reflexivity.
  - rewrite <- app_assoc. cbn [app].
    rewrite take_letters_run;
      [| done | apply take_letter_hyphen
       | rewrite !length_app; cbn [length]; rewrite length_app; lia].
    pose proof (lower_run_nonempty r1 Hr1) as Hne1.
    pose proof (lower_run_nonempty r2 Hr2) as Hne2.
    destruct r1 as [|c1 r1]; [done |].
    rewrite take_letters_run by done.
    destruct r2 as [|c2 r2]; [done |]. reflexivity.
Qed.

Lemma match_word_space (rest : list ascii) :
  match_word (" "%char :: rest) = None.
Proof.
  unfold match_word. cbn [length take_letters].
  by rewrite take_letter_space.
Qed.

Lemma list_ascii_of_string_app (s1 s2 : string) :
  list_ascii_of_string (s1 +:+ s2) =
  list_ascii_of_string s1 ++ list_ascii_of_string s2.
Proof.
  induction s1 as [|c s1 IH]; [reflexivity |]. simpl. by rewrite IH.
Qed.

Lemma word_shape_nonempty (w : list ascii) : word_shape w -> w <> [].
Proof.
  intros [Hr|(r1 & r2 & Hr1 & _ & ->)].
  - by apply lower_run_nonempty.
  - by destruct r1.
Qed.

Lemma join_cons_cons (sep w w' : string) (ws : list string) :
  join sep (w :: w' :: ws) = w +:+ sep +:+ join sep (w' :: ws).
Proof. reflexivity. Qed.

(** Scanning the tokens joined by single spaces gives the tokens back. *)
Lemma findall_join (ws : list string) (fuel : nat) :
  Forall is_token ws ->
  (length (list_ascii_of_string (join " " ws)) <= fuel)%nat ->
  findall fuel (list_ascii_of_string (join " " ws)) = ws.
Proof.
  intros Hws. revert fuel. induction Hws as [|w ws Hw Hws IH]; intros fuel Hf.
  - simpl. by destruct fuel.
  - pose proof (word_shape_nonempty _ Hw) as Hne.
    destruct ws as [|w' ws].
    + cbn [join] in *.
      destruct (list_ascii_of_string w) as [|c cs] eqn:Ew; [done |].
      destruct fuel as [|fuel]; [simpl in Hf; lia |].
      cbn [findall].
      rewrite <- (app_nil_r (c :: cs)), <- Ew.
      rewrite match_word_token by (done || by left).
      rewrite string_of_list_ascii_of_string. by destruct fuel.
    + rewrite join_cons_cons in Hf |- *.
      rewrite !list_ascii_of_string_app in Hf |- *.
      change (list_ascii_of_string " ") with [" "%char] in Hf |- *.
      remember (list_ascii_of_string (join " " (w' :: ws))) as rest eqn:Erest.
      rewrite !length_app in Hf. cbn [length] in Hf.
      assert (Hstep : forall f : nat,
                findall (S f) (list_ascii_of_string w ++ [" "%char] ++ rest) =
                w :: findall f ([" "%char] ++ rest)).
      { intros f. destruct (list_ascii_of_string w) as [|c cs] eqn:Ew; [done |].
        change ((c :: cs) ++ [" "%char] ++ rest)
          with (c :: (cs ++ [" "%char] ++ rest)).
        cbn [findall].
        change (c :: (cs ++ [" "%char] ++ rest))
          with ((c :: cs) ++ " "%char :: rest).
        rewrite <- Ew. rewrite match_word_token by (done || right; eauto).
        by rewrite string_of_list_ascii_of_string. }
      destruct fuel as [|fuel]; [lia |]. rewrite Hstep. f_equal.
      destruct fuel as [|fuel];
        [destruct (list_ascii_of_string w); [done | simpl in Hf; lia] |].
      cbn [app findall]. rewrite match_word_space.
      apply IH. destruct (list_ascii_of_string w); [done | simpl in Hf; lia].
Qed.

(** X12.  Tokens survive being joined and tokenized again: for every list
    of strings of the token shape, tokenizing their join by single spaces
    gives the list back; so tokenizing the join of the tokens of any text
    gives the same tokens, and the snippet of a window or the text of a
    segment tokenizes to the tokens it was made from. *)
Theorem tokenize_join_round_trip (text : string) (ws : list string) :
  (Forall is_token ws -> tokenize (join " " ws) = ws) /\
  tokenize (join " " (tokenize text)) = tokenize text.
Proof.
  assert (Hgen : forall l : list string,
            Forall is_token l -> tokenize (join " " l) = l).
  { intros l Hl. unfold tokenize. by apply findall_join. }
  split; [apply Hgen |].
  apply Hgen. unfold tokenize. apply findall_tokens.
Qed.

Lemma tokenize_join_round_trip_witness :
  Forall is_token (tokenize "Intr-un SENS, x-y-z") /\
  tokenize (join " " (tokenize "Intr-un SENS, x-y-z")) =
  tokenize "Intr-un SENS, x-y-z".
Proof.
  assert (Hws : Forall is_token (tokenize "Intr-un SENS, x-y-z"))
    by (unfold tokenize; apply findall_tokens).
  split; [exact Hws |].
  exact (proj1 (tokenize_join_round_trip "" (tokenize "Intr-un SENS, x-y-z"))
           Hws).
Defined.

(** ** The vocabulary union *)

Lemma str_leb_cons (x y : ascii) (a b : string) :
  String.leb (String x a) (String y b) =
  match N.compare (N_of_ascii x) (N_of_ascii y) with
  | Eq => String.leb a b
  | Lt => true
  | Gt => false
  end.
Proof.
  unfold String.leb. simpl. unfold Ascii.compare.
  destruct (N.compare _ _); reflexivity.
Qed.

Lemma str_le_trans (a b c : string) : str_le a b -> str_le b c -> str_le a c.
Proof.
  unfold str_le. revert b c.
  induction a as [|x a IH]; intros b c.
  - intros _ _. by destruct c.
  - destruct b as [|y b]; [discriminate |].
    destruct c as [|z c]; [discriminate |].
    rewrite !str_leb_cons.
    destruct (N.compare_spec (N_of_ascii x) (N_of_ascii y)) as [E1|L1|G1];
      destruct (N.compare_spec (N_of_ascii y) (N_of_ascii z)) as [E2|L2|G2];
      destruct (N.compare_spec (N_of_ascii x) (N_of_ascii z)) as [E3|L3|G3];
      try discriminate; try lia; try done.
    apply IH.
Qed.

Lemma str_le_total (a b : string) : str_le a b \/ str_le b a.
Proof. apply String.leb_total. Qed.

Lemma sorted_set_sorted (s : gset string) : StronglySorted str_le (sorted_set s).
Proof.
  unfold sorted_set.
  apply (@StronglySorted_merge_sort _ str_le _ str_le_trans str_le_total).
Qed.

Lemma elem_of_bracket (w : string) (tokens : list string) :
  w ∈ bracket tokens <-> w = "<s>"%string \/ w = "</s>"%string \/ w ∈ tokens.
Proof.
  unfold bracket. rewrite !elem_of_app, !list_elem_of_singleton.
  tauto.
Qed.

(** X13.  The vocabulary union a run builds from its two models is the
    sorted list, without repetition, of the two sentinels and of every
    token of either reference text, and of nothing else; its length [V],
    the only thing scoring uses of it, is between 2 and 2 plus the two
    token counts. *)
Theorem vocabulary_union (tokE tokS : list string) (kE kS eps : R) :
  let sc := make_scorer (train tokE kE) (train tokS kS) eps in
  StronglySorted str_le (vocab_union sc) /\
  NoDup (vocab_union sc) /\
  (forall w : string,
     w ∈ vocab_union sc <->
     w = "<s>"%string \/ w = "</s>"%string \/ w ∈ tokE \/ w ∈ tokS) /\
  2 <= union_size sc <= 2 + len tokE + len tokS.
Proof.
  intros sc.
  assert (Hmem : forall w : string,
     w ∈ vocab_union sc <->
     w = "<s>"%string \/ w = "</s>"%string \/ w ∈ tokE \/ w ∈ tokS).
  { intros w. unfold sc, make_scorer. cbn [vocab_union].
    rewrite elem_of_sorted_set, elem_of_union. unfold train. cbn [vocab].
    rewrite !elem_of_list_to_set, !elem_of_bracket. tauto. }
  assert (Hnd : NoDup (vocab_union sc)) by apply NoDup_sorted_set.
  split; [apply sorted_set_sorted |]. split; [exact Hnd |].
  split; [exact Hmem |].
  split.
  - apply (union_size_trained_l tokE kE (train tokS kS) eps).
  - unfold union_size, len.
    assert (Hsub : vocab_union sc ⊆+
                   "<s>"%string :: "</s>"%string :: tokE ++ tokS).
    { apply NoDup_submseteq; [exact Hnd |]. intros w Hw.
      apply Hmem in Hw. rewrite !elem_of_cons, elem_of_app. tauto. }
    apply submseteq_length in Hsub. cbn [length] in Hsub.
    rewrite length_app in Hsub. lia.
Qed.

(** ** An accused text no longer than the window *)

Lemma py_slice_all {A : Type} (l : list A) : py_slice l 0 (0 + len l) = l.
Proof.
  rewrite py_slice_take_drop by (unfold len; lia).
  unfold len. rewrite Z.add_0_l, Nat2Z.id. simpl.
  rewrite Nat.sub_0_r. apply firstn_all.
Qed.

Lemma scan_single_window (tokens : list string) (sc : LLRScorer)
  (window step : Z) :
  scorer_ok sc -> 1 <= step -> 2 <= len tokens <= window ->
  sliding_window_scores tokens sc window step =
  Ok [ {| w_start := 0;
          w_end := len tokens;
          w_score := llr_sum sc tokens;
          w_label := label sc (llr_sum sc tokens);
          w_snippet := join " " tokens |} ].
Proof.
  intros Hok Hstep Hn.
  rewrite scan_rows by (done || lia). cbv zeta.
  assert (Hw : effective_window window (len tokens) = len tokens)
    by (unfold effective_window; lia).
  rewrite Hw, Z.sub_diag, Z.div_0_l by lia.
  unfold window_starts. simpl. unfold window_report_at.
  rewrite py_slice_all. reflexivity.
Qed.

(** X14.  When the accused text has [n >= 2] tokens and the requested
    window is at least [n], a run with [step >= 1] and [k > 0] gives one
    verdict for the whole text: the effective window is [n], there is one
    report, spanning [0, n), whose score is that of the whole token list
    and whose snippet is all the tokens; every word gets the label of that
    score; and there is one segment, with that label, spanning [0, n). *)
Theorem single_window_verdict
  (eminescu_text stanescu_text accused_text : string)
  (window step : Z) (kk eps : R) :
  let tokA := tokenize accused_text in
  let sc := make_scorer (train (tokenize eminescu_text) kk)
                        (train (tokenize stanescu_text) kk) eps in
  1 <= step -> (0 < kk)%R -> 2 <= len tokA <= window ->
  exists (a : Analysis) (v : R) (s : Segment),
    run_analysis eminescu_text stanescu_text accused_text window step kk eps =
    Ok a /\
    score_window sc tokA = Ok v /\
    a_effective_window a = len tokA /\
    a_rows a = [ {| w_start := 0; w_end := len tokA; w_score := v;
                    w_label := label sc v; w_snippet := join " " tokA |} ] /\
    a_wlabs a = replicate (length tokA) (label sc v) /\
    a_segs a = [s] /\
    seg_label s = label sc v /\ seg_start s = 0 /\ seg_end s = len tokA /\
    seg_text s = join " " tokA.
Proof.
  intros tokA sc Hstep Hk Hn.
  destruct (run_analysis_full eminescu_text stanescu_text accused_text
              window step kk eps Hstep Hk)
    as (rows & wlabs & segs & Hrun & Hrows & Hw & Hsegs & Hlen & Hlab).
  fold tokA in Hrun, Hrows, Hw, Hsegs, Hlen, Hlab.
  fold sc in Hrows, Hw, Hlab.
  assert (Hok : scorer_ok sc) by (by apply scorer_ok_trained).
  rewrite (scan_single_window tokA sc window step Hok Hstep Hn) in Hrows.
  injection Hrows as <-.
  set (v := llr_sum sc tokA) in *.
  assert (Hne : tokA <> []).
  { intros E. rewrite E in Hn. unfold len in Hn. simpl in Hn. lia. }
  assert (HwL : wlabs = replicate (length tokA) (label sc v)).
  { apply list_eq. intros i.
    destruct (decide (i < length tokA)%nat) as [Hi|Hi].
    - rewrite Hlab by done. symmetry.
      rewrite lookup_replicate_2 by done. f_equal. f_equal.
      unfold mean_score, covering. cbn [filter]. unfold filter. simpl.
      unfold covers. cbn [w_start w_end].
      assert (Hc : (0 <=? Z.of_nat i) && (Z.of_nat i <? len tokA) = true).
      { apply andb_true_intro. split; [apply Z.leb_le | apply Z.ltb_lt];
          unfold len; lia. }
      rewrite Hc. destruct (decide (true = true)); [| done].
      simpl. unfold Rsum. simpl. field.
    - transitivity (@None string).
      + apply lookup_ge_None. lia.
      + symmetry. apply lookup_replicate_None. lia. }
  destruct (segments_returns tokA wlabs Hne Hlen)
    as (segs1 & E1 & Hchain & _ & Hcount & Htext).
  destruct (segments_runs tokA wlabs Hne Hlen)
    as (segs2 & E2 & Huni & _ & _).
  assert (segs1 = segs) by congruence.
  assert (segs2 = segs) by congruence. subst segs1 segs2.
  assert (Hconst : Forall (fun l => l = label sc v) wlabs).
  { rewrite HwL. apply Forall_replicate. reflexivity. }
  rewrite (label_changes_constant _ wlabs Hconst) in Hcount.
  destruct segs as [|s [|s' segs]]; try discriminate.
  simpl in Hchain. destruct Hchain as (Hs & Hlt & He).
  eexists. exists v, s.
  split; [exact Hrun |]. cbn [a_effective_window a_rows a_wlabs a_segs].
  split; [by apply score_window_ok |].
  split.
  { destruct tokA; [done | lia]. }
  split; [reflexivity |]. split; [exact HwL |]. split; [reflexivity |].
  apply Forall_inv in Huni. apply Forall_inv in Htext.
  split.
  { assert (Hl0 : wlabs !! Z.to_nat 0 = Some (seg_label s))
      by (apply Huni; lia).
    rewrite Forall_lookup in Hconst. by eapply Hconst. }
  split; [done |]. split; [done |].
  rewrite Htext. unfold seg_tokens. rewrite Hs, He.
  rewrite <- (py_slice_all tokA) at 3. rewrite Z.add_0_l. reflexivity.
Qed.

Lemma single_window_verdict_witness :
  1 <= 1 /\ (0 < 1)%R /\ 2 <= len (tokenize "b a b") <= 5 /\
  exists (a : Analysis) (l : string),
    run_analysis "a a b" "b b a" "b a b" 5 1 1 (1 / 4) = Ok a /\
    a_wlabs a = [l; l; l] /\ length (a_segs a) = 1%nat.
Proof.
  assert (H1 : 1 <= 1) by lia.
  assert (Hk : (0 < 1)%R) by lra.
  assert (Hn : 2 <= len (tokenize "b a b") <= 5) by (vm_compute; split; discriminate).
  split; [exact H1 |]. split; [exact Hk |]. split; [exact Hn |].
  destruct (single_window_verdict "a a b" "b b a" "b a b" 5 1 1 (1 / 4)
              H1 Hk Hn)
    as (a & v & s & Ha & _ & _ & _ & Hw & Hs & _).
  exists a, (label (make_scorer (train (tokenize "a a b") 1)
                                (train (tokenize "b b a") 1) (1 / 4)) v).
  split; [exact Ha |]. split; [exact Hw |]. by rewrite Hs.
Defined.

(** ** lab1: the alphabet of a sequence *)

Lemma alphabet_loop (sequence acc : list N) :
  NoDup acc ->
  NoDup (foldl alphabet_step acc sequence) /\
  forall c : N, c ∈ foldl alphabet_step acc sequence <-> c ∈ acc \/ c ∈ sequence.
Proof.
  revert acc. induction sequence as [|x l IH]; intros acc Hacc.
  - simpl. split; [done |]. intros c. rewrite elem_of_nil. tauto.
  - cbn [foldl]. unfold alphabet_step at 2 4.
    destruct (decide (x ∈ acc)) as [Hx|Hx].
    + destruct (IH acc Hacc) as [Hnd Hmem]. split; [done |].
      intros c. rewrite Hmem, elem_of_cons.
      split; [tauto |]. intros [H | [-> | H]]; tauto.
    + assert (Hacc' : NoDup (acc ++ [x])).
      { apply NoDup_app. split; [done |]. split; [| apply NoDup_singleton].
        intros y Hy Hyx. apply list_elem_of_singleton in Hyx. by subst. }
      destruct (IH _ Hacc') as [Hnd Hmem]. split; [done |].
      intros c. rewrite Hmem, elem_of_app, list_elem_of_singleton, elem_of_cons.
      tauto.
Qed.

Lemma sorted_le_NoDup_lt (l : list N) :
  StronglySorted N.le l -> NoDup l -> StronglySorted N.lt l.
Proof.
  induction 1 as [|x l Hl IH Hx]; intros Hnd; [constructor |].
  apply NoDup_cons in Hnd as [Hnx Hnd].
  constructor; [by apply IH |].
  rewrite Forall_forall in Hx |- *. intros y Hy.
  specialize (Hx y Hy). assert (x <> y) by (by intros ->). lia.
Qed.

Lemma sorted_lt_le (l : list N) : StronglySorted N.lt l -> StronglySorted N.le l.
Proof.
  induction 1 as [|x l Hl IH Hx]; constructor; [done |].
  eapply Forall_impl; [exact Hx |]. intros y Hy. simpl in Hy. lia.
Qed.

Lemma sorted_lt_NoDup (l : list N) : StronglySorted N.lt l -> NoDup l.
Proof.
  induction 1 as [|x l Hl IH Hx]; constructor; [| done].
  intros Hin. rewrite Forall_forall in Hx. specialize (Hx x Hin). lia.
Qed.

Lemma sorted_lt_unique (l1 l2 : list N) :
  StronglySorted N.lt l1 -> StronglySorted N.lt l2 ->
  (forall c : N, c ∈ l1 <-> c ∈ l2) -> l1 = l2.
Proof.
  intros H1 H2 Hmem.
  apply (StronglySorted_unique_strong N.le).
  - intros. lia.
  - by apply sorted_lt_le.
  - by apply sorted_lt_le.
  - apply NoDup_Permutation; [by apply sorted_lt_NoDup .. | done].
Qed.

Lemma findTheAlphabet_spec (sequence : list N) :
  StronglySorted N.lt (findTheAlphabet sequence) /\
  forall c : N, c ∈ findTheAlphabet sequence <-> c ∈ sequence.
Proof.
  destruct (alphabet_loop sequence [] (NoDup_nil_2)) as [Hnd Hmem].
  unfold findTheAlphabet. split.
  - apply sorted_le_NoDup_lt.
    + apply (StronglySorted_merge_sort N.le).
    + by rewrite merge_sort_Permutation.
  - intros c. rewrite merge_sort_Permutation, Hmem, elem_of_nil. tauto.
Qed.

Lemma sorted_chars_spec (seq : list N) :
  StronglySorted N.lt (sorted_chars seq) /\
  forall c : N, c ∈ sorted_chars seq <-> c ∈ seq.
Proof.
  unfold sorted_chars. split.
  - apply sorted_le_NoDup_lt.
    + apply (StronglySorted_merge_sort N.le).
    + rewrite merge_sort_Permutation. apply NoDup_elements.
  - intros c. by rewrite merge_sort_Permutation, elem_of_elements,
      elem_of_list_to_set.
Qed.

(** X15.  [findTheAlphabet] returns the characters of the sequence in
    strictly increasing order of code point: each character that occurs,
    once, and nothing else.  So the result depends only on which
    characters occur, applying the function to its own result changes
    nothing, and the loop gives the same list as [sorted(set(seq))], the
    alphabet of [fasta_composition]. *)
Theorem findTheAlphabet_sorted_distinct (sequence : list N) :
  StronglySorted N.lt (findTheAlphabet sequence) /\
  (forall c : N, c ∈ findTheAlphabet sequence <-> c ∈ sequence) /\
  (forall other : list N,
     (forall c : N, c ∈ other <-> c ∈ sequence) ->
     findTheAlphabet other = findTheAlphabet sequence) /\
  findTheAlphabet (findTheAlphabet sequence) = findTheAlphabet sequence /\
  findTheAlphabet sequence = sorted_chars sequence.
Proof.
  destruct (findTheAlphabet_spec sequence) as [Hs Hmem].
  split; [exact Hs |]. split; [exact Hmem |].
  assert (Hsame : forall other : list N,
     (forall c : N, c ∈ other <-> c ∈ sequence) ->
     findTheAlphabet other = findTheAlphabet sequence).
  { intros other Ho.
    destruct (findTheAlphabet_spec other) as [Hs' Hmem'].
    apply sorted_lt_unique; [done | done |].
    intros c. by rewrite Hmem', Hmem, Ho. }
  split; [exact Hsame |]. split; [by apply Hsame |].
  destruct (sorted_chars_spec sequence) as [Hs' Hmem'].
  apply sorted_lt_unique; [done | done |].
  intros c. by rewrite Hmem, Hmem'.
Qed.

Lemma findTheAlphabet_sorted_distinct_witness :
  (forall c : N, c ∈ [85; 65; 71; 65]%N <-> c ∈ [65; 85; 71; 85]%N) /\
  findTheAlphabet [85; 65; 71; 65]%N = [65; 71; 85]%N.
Proof.
  assert (H : forall c : N, c ∈ [85; 65; 71; 65]%N <-> c ∈ [65; 85; 71; 85]%N).
  { intros c. rewrite !elem_of_cons, !elem_of_nil. tauto. }
  split; [exact H |].
  destruct (findTheAlphabet_sorted_distinct [65; 85; 71; 85]%N)
    as (_ & _ & Hsame & _).
  rewrite (Hsame _ H). reflexivity.
Defined.

(** * The claims on binary64 *)

(** ** A smoothing constant that overflows *)



(** ** Aggregation on binary64 *)

Lemma add_at_in_range_b64 (v : Binary64.float) (sums : list Binary64.float)
  (cnts : list nat) (j : Z) :
  0 <= j < len sums -> len cnts = len sums ->
  Binary64.add_at v (sums, cnts) j =
  Ok (alter (fun x => Binary64.fadd x v) (Z.to_nat j) sums,
      alter (fun c => (c + 1)%nat) (Z.to_nat j) cnts).
Proof.
  intros Hj Hlen. unfold Binary64.add_at. simpl.
  rewrite (py_update_in_range _ sums) by exact Hj. rewrite bind_Ok.
  rewrite (py_update_in_range _ cnts) by lia. reflexivity.
Qed.

Lemma in_range_empty (a i : Z) : in_range a a i = false.
Proof.
  unfold in_range.
  destruct (Z.leb_spec a i), (Z.ltb_spec i a); simpl; lia || done.
Qed.

Lemma in_range_next (a j i : Z) :
  a <= j ->
  in_range a (j + 1) i = if decide (i = j) then true else in_range a j i.
Proof.
  intros Haj. unfold in_range. case_decide as Hij.
  - subst. destruct (Z.leb_spec a j), (Z.ltb_spec j (j + 1)); simpl; lia || done.
  - destruct (Z.leb_spec a i), (Z.ltb_spec i (j + 1)), (Z.ltb_spec i j);
      simpl; lia || done.
Qed.

(** The inner loop over [range(a, a + m)], all of whose indices are
    positions of the two lists: the score is added once, on the right, at
    each position of the range, which is counted once; the other positions
    are left as they were. *)
Lemma foldlM_add_at_b64 (v : Binary64.float) (n m : nat) (a : Z)
  (sums0 : list Binary64.float) (cnts0 : list nat) :
  length sums0 = n -> length cnts0 = n ->
  0 <= a -> a + Z.of_nat m <= Z.of_nat n ->
  exists (sums : list Binary64.float) (cnts : list nat),
    foldlM (Binary64.add_at v) (sums0, cnts0) (seqZ a (Z.of_nat m)) =
      Ok (sums, cnts) /\
    length sums = n /\ length cnts = n /\
    forall (i : nat) (x : Binary64.float) (c : nat),
      sums0 !! i = Some x -> cnts0 !! i = Some c ->
      sums !! i =
        Some (if in_range a (a + Z.of_nat m) (Z.of_nat i)
              then Binary64.fadd x v else x) /\
      cnts !! i =
        Some (c + (if in_range a (a + Z.of_nat m) (Z.of_nat i) then 1 else 0))%nat.
Proof.
  intros Hs0 Hc0 Ha Hm.
  destruct (foldlM_seqZ_inv (Binary64.add_at v)
    (fun j st =>
       a <= j /\ length st.1 = n /\ length st.2 = n /\
       forall (i : nat) (x : Binary64.float) (c : nat),
         sums0 !! i = Some x -> cnts0 !! i = Some c ->
         st.1 !! i =
           Some (if in_range a j (Z.of_nat i) then Binary64.fadd x v else x) /\
         st.2 !! i =
           Some (c + (if in_range a j (Z.of_nat i) then 1 else 0))%nat)
    m a (sums0, cnts0)) as ([sums cnts] & Hfold & _ & Hl1 & Hl2 & Hpt).
  - simpl. split; [lia |]. split; [done |]. split; [done |].
    intros i x c Hx Hc. rewrite in_range_empty.
    split; [done |]. by rewrite Nat.add_0_r.
  - intros j [sums cnts] Hj (Haj & Hl1 & Hl2 & Hpt). simpl in Hl1, Hl2, Hpt.
    rewrite add_at_in_range_b64 by (unfold len; lia).
    eexists. split; [reflexivity |]. simpl.
    rewrite !length_alter. split; [lia |]. split; [done |]. split; [done |].
    intros i x c Hx Hc.
    destruct (Hpt i x c Hx Hc) as (Hy & Hcc).
    rewrite in_range_next by done.
    destruct (decide (Z.of_nat i = j)) as [Hij|Hij].
    + assert (Hi : i = Z.to_nat j) by lia. subst i.
      assert (Hr0 : in_range a j (Z.of_nat (Z.to_nat j)) = false).
      { unfold in_range.
        destruct (Z.leb_spec a (Z.of_nat (Z.to_nat j))),
          (Z.ltb_spec (Z.of_nat (Z.to_nat j)) j); simpl; lia || done. }
      rewrite Hr0 in Hy, Hcc.
      rewrite !list_lookup_alter_eq, Hy, Hcc. simpl.
      split; [reflexivity |]. f_equal. lia.
    + assert (Hne : i <> Z.to_nat j) by lia.
      rewrite !list_lookup_alter_ne by done. auto.
  - exists sums, cnts. simpl in *. eauto.
Qed.

Lemma add_window_spec_b64 (n : nat) (r : Binary64.WindowReport)
  (sums0 : list Binary64.float) (cnts0 : list nat) :
  length sums0 = n -> length cnts0 = n ->
  Binary64.report_in_range (Z.of_nat n) r ->
  exists (sums : list Binary64.float) (cnts : list nat),
    Binary64.add_window (sums0, cnts0) r = Ok (sums, cnts) /\
    length sums = n /\ length cnts = n /\
    forall (i : nat) (x : Binary64.float) (c : nat),
      sums0 !! i = Some x -> cnts0 !! i = Some c ->
      sums !! i =
        Some (if Binary64.covers (Z.of_nat i) r
              then Binary64.fadd x (Binary64.w_score r) else x) /\
      cnts !! i =
        Some (c + (if Binary64.covers (Z.of_nat i) r then 1 else 0))%nat.
Proof.
  intros Hs0 Hc0 Hr. unfold Binary64.add_window.
  rewrite py_range_unit, bind_Ok.
  destruct (Z.le_gt_cases (Binary64.w_end r) (Binary64.w_start r))
    as [Hempty|Hlt].
  - rewrite seqZ_nil by lia. exists sums0, cnts0.
    split; [reflexivity |]. split; [done |]. split; [done |].
    intros i x c Hx Hc.
    assert (Hcov : Binary64.covers (Z.of_nat i) r = false).
    { unfold Binary64.covers.
      destruct (Z.leb_spec (Binary64.w_start r) (Z.of_nat i)),
        (Z.ltb_spec (Z.of_nat i) (Binary64.w_end r)); simpl; lia || done. }
    rewrite Hcov. split; [done |]. by rewrite Nat.add_0_r.
  - assert (Hfirst : 0 <= Binary64.w_start r < Z.of_nat n).
    { apply Hr. unfold Binary64.covers.
      destruct (Z.leb_spec (Binary64.w_start r) (Binary64.w_start r)),
        (Z.ltb_spec (Binary64.w_start r) (Binary64.w_end r));
        simpl; lia || done. }
    assert (Hlast : 0 <= Binary64.w_end r - 1 < Z.of_nat n).
    { apply Hr. unfold Binary64.covers.
      destruct (Z.leb_spec (Binary64.w_start r) (Binary64.w_end r - 1)),
        (Z.ltb_spec (Binary64.w_end r - 1) (Binary64.w_end r));
        simpl; lia || done. }
    destruct (foldlM_add_at_b64 (Binary64.w_score r) n
                (Z.to_nat (Binary64.w_end r - Binary64.w_start r))
                (Binary64.w_start r) sums0 cnts0)
      as (sums & cnts & Hfold & Hl1 & Hl2 & Hpt);
      [done | done | lia | lia |].
    replace (Z.of_nat (Z.to_nat (Binary64.w_end r - Binary64.w_start r)))
      with (Binary64.w_end r - Binary64.w_start r) in * by lia.
    replace (Binary64.w_start r + (Binary64.w_end r - Binary64.w_start r))
      with (Binary64.w_end r) in Hpt by lia.
    exists sums, cnts. split; [exact Hfold |]. split; [done |]. split; [done |].
    exact Hpt.
Qed.

Lemma covering_cons_b64 (i : Z) (r : Binary64.WindowReport)
  (ws : list Binary64.WindowReport) :
  Binary64.covering i (r :: ws) =
  if Binary64.covers i r then r :: Binary64.covering i ws
  else Binary64.covering i ws.
Proof.
  unfold Binary64.covering. rewrite filter_cons.
  destruct (Binary64.covers i r); case_decide; done.
Qed.

(** The outer loop: every position receives, in the order of the list, the
    scores of the windows that cover it, and counts them. *)
Lemma foldlM_add_window_b64 (n : nat) (ws : list Binary64.WindowReport)
  (sums0 : list Binary64.float) (cnts0 : list nat) :
  length sums0 = n -> length cnts0 = n ->
  Forall (Binary64.report_in_range (Z.of_nat n)) ws ->
  exists (sums : list Binary64.float) (cnts : list nat),
    foldlM Binary64.add_window (sums0, cnts0) ws = Ok (sums, cnts) /\
    length sums = n /\ length cnts = n /\
    forall (i : nat) (x : Binary64.float) (c : nat),
      sums0 !! i = Some x -> cnts0 !! i = Some c ->
      sums !! i =
        Some (foldl Binary64.fadd x
                (Binary64.w_score <$> Binary64.covering (Z.of_nat i) ws)) /\
      cnts !! i = Some (c + length (Binary64.covering (Z.of_nat i) ws))%nat.
Proof.
  revert sums0 cnts0. induction ws as [|r ws IH]; intros sums0 cnts0 Hs0 Hc0 Hws.
  - exists sums0, cnts0. split; [reflexivity |]. split; [done |]. split; [done |].
    intros i x c Hx Hc. simpl. split; [done |]. by rewrite Nat.add_0_r.
  - apply Forall_cons in Hws as [Hr Hws]. cbn [foldlM].
    destruct (add_window_spec_b64 n r sums0 cnts0 Hs0 Hc0 Hr)
      as (sums1 & cnts1 & E1 & Hl1 & Hl2 & Hpt1).
    rewrite E1, bind_Ok.
    destruct (IH sums1 cnts1 Hl1 Hl2 Hws)
      as (sums & cnts & E & Hl1' & Hl2' & Hpt).
    exists sums, cnts. split; [exact E |]. split; [done |]. split; [done |].
    intros i x c Hx Hc.
    destruct (Hpt1 i x c Hx Hc) as (Hy1 & Hc1).
    destruct (Hpt i _ _ Hy1 Hc1) as (Hy & Hcc).
    rewrite covering_cons_b64.
    destruct (Binary64.covers (Z.of_nat i) r); rewrite ?fmap_cons;
      cbn [foldl length].
    + split; [exact Hy |]. rewrite Hcc. f_equal. lia.
    + split; [exact Hy |]. rewrite Hcc. f_equal. lia.
Qed.

Lemma average_at_mean_b64 (sums : list Binary64.float) (cnts : list nat)
  (i : nat) (windows : list Binary64.WindowReport) :
  sums !! i =
    Some (Binary64.fsum
            (Binary64.w_score <$> Binary64.covering (Z.of_nat i) windows)) ->
  cnts !! i = Some (0 + length (Binary64.covering (Z.of_nat i) windows))%nat ->
  Binary64.average_at sums cnts i = Binary64.mean_score (Z.of_nat i) windows.
Proof.
  intros Hy Hc. unfold Binary64.average_at, Binary64.mean_score.
  rewrite !nth_lookup, Hy, Hc. simpl.
  destruct (Binary64.covering (Z.of_nat i) windows) as [|r rs] eqn:E;
    reflexivity.
Qed.

(** A loop that appends one computed element per round is a map. *)
Lemma foldlM_append_mapM {A B : Type} (f : A -> result B) (l : list A)
  (acc : list B) :
  foldlM (fun ys x => y ← f x; mret (ys ++ [y])) acc l =
  (ys ← Binary64.mapM f l; mret (acc ++ ys)).
Proof.
  revert acc. induction l as [|x l IH]; intros acc.
  - cbn [foldlM Binary64.mapM]. by rewrite bind_Ok, app_nil_r.
  - cbn [foldlM Binary64.mapM].
    destruct (f x) as [y|e]; [| reflexivity].
    rewrite !bind_Ok, IH.
    destruct (Binary64.mapM f l) as [ys|e]; [| reflexivity].
    rewrite !bind_Ok. unfold mret, result_ret. by rewrite <- app_assoc.
Qed.

Lemma mapM_ext_in {A B : Type} (f g : A -> result B) (l : list A) :
  (forall x, x ∈ l -> f x = g x) -> Binary64.mapM f l = Binary64.mapM g l.
Proof.
  induction l as [|x l IH]; intros H; [reflexivity |].
  cbn [Binary64.mapM]. rewrite (H x) by left.
  rewrite IH; [reflexivity |]. intros y Hy. apply H. by right.
Qed.

Lemma mapM_Ok {A B : Type} (f : A -> result B) (l : list A) (ys : list B) :
  Binary64.mapM f l = Ok ys ->
  length ys = length l /\
  forall (i : nat) (x : A), l !! i = Some x ->
    exists y : B, f x = Ok y /\ ys !! i = Some y.
Proof.
  revert ys. induction l as [|x l IH]; intros ys.
  - intros [= <-]. split; [reflexivity |]. intros i x Hx. done.
  - cbn [Binary64.mapM]. destruct (f x) as [y|e] eqn:Ef; [| discriminate].
    rewrite bind_Ok.
    destruct (Binary64.mapM f l) as [ys'|e]; [| discriminate].
    rewrite bind_Ok. intros [= <-].
    destruct (IH ys' eq_refl) as [Hlen Hpt].
    split; [simpl; by rewrite Hlen |].
    intros [|i] x' Hx'.
    + injection Hx' as <-. by exists y.
    + apply Hpt. exact Hx'.
Qed.

Lemma mapM_returns {A B : Type} (f : A -> result B) (l : list A) :
  (forall x, x ∈ l -> exists y : B, f x = Ok y) ->
  exists ys : list B, Binary64.mapM f l = Ok ys.
Proof.
  induction l as [|x l IH]; intros H; [by exists [] |].
  cbn [Binary64.mapM].
  destruct (H x) as [y Ey]; [left |]. rewrite Ey, bind_Ok.
  destruct IH as [ys Eys]; [intros z Hz; apply H; by right |].
  rewrite Eys, bind_Ok. by eexists.
Qed.

(** With reports that cover only positions of the sequence, the binary64
    aggregation is the list of the labels of the float means. *)
Lemma word_level_labels_b64 (tokens : list string)
  (windows : list Binary64.WindowReport) (sc : Binary64.LLRScorer) :
  Forall (Binary64.report_in_range (len tokens)) windows ->
  Binary64.word_level_labels tokens windows sc =
  Binary64.mean_labels tokens windows sc.
Proof.
  intros Hws. unfold Binary64.word_level_labels, Binary64.mean_labels.
  destruct (Nat.eqb_spec (length tokens) 0) as [Hz|Hnz].
  - rewrite Hz. reflexivity.
  - set (n := length tokens) in *.
    destruct (foldlM_add_window_b64 n windows (replicate n Binary64.fzero)
                (replicate n 0%nat))
      as (sums & cnts & E & Hl1 & Hl2 & Hpt);
      [apply length_replicate | apply length_replicate | exact Hws |].
    rewrite E, bind_Ok. cbn [fst snd].
    rewrite (foldlM_ext_in _
               (fun ys i =>
                  y ← (avg ← Binary64.average_at sums cnts i;
                       mret (Binary64.label sc avg));
                  mret (ys ++ [y])))
      by (intros i ys _; unfold Binary64.label_row;
          destruct (Binary64.average_at sums cnts i); reflexivity).
    rewrite (foldlM_append_mapM
               (fun i => avg ← Binary64.average_at sums cnts i;
                         mret (Binary64.label sc avg)) (seq 0 n) []).
    rewrite (mapM_ext_in _
               (fun i => m ← Binary64.mean_score (Z.of_nat i) windows;
                         mret (Binary64.label sc m))).
    + destruct (Binary64.mapM _ (seq 0 n)) as [ys|e]; reflexivity.
    + intros i Hi. apply elem_of_seq in Hi.
      destruct (Hpt i Binary64.fzero 0%nat) as (Hy & Hc);
        [apply lookup_replicate_2; lia | apply lookup_replicate_2; lia |].
      by rewrite (average_at_mean_b64 sums cnts i windows).
Qed.

(** ** Converting a count to binary64 *)

Lemma digits2_pos_size (p : positive) : digits2_pos p = Pos.size p.
Proof. induction p as [p IH|p IH|]; simpl; congruence. Qed.

Lemma digits2_pos_shift (p d : positive) :
  digits2_pos (Pos.iter xO p d) = (digits2_pos p + d)%positive.
Proof.
  induction d as [|d IH] using Pos.peano_ind.
  - simpl. lia.
  - rewrite Pos.iter_succ. simpl. rewrite IH. lia.
Qed.

Lemma digits2_pos_bound (p : positive) :
  Z.pos p < 2 ^ 53 -> Z.pos (digits2_pos p) <= 53.
Proof.
  intros Hp. rewrite digits2_pos_size.
  pose proof (Pos.size_le p) as Hle.
  assert (Hz : 2 ^ Z.pos (Pos.size p) <= 2 * Z.pos p).
  { rewrite <- Pos2Z.inj_pow. change (2 * Z.pos p) with (Z.pos p~0). lia. }
  destruct (Z.le_gt_cases (Z.pos (Pos.size p)) 53) as [|Hgt]; [done |].
  assert (H54 : 2 ^ 54 <= 2 ^ Z.pos (Pos.size p))
    by (apply Z.pow_le_mono_r; lia).
  change (2 ^ 54) with (2 * 2 ^ 53) in H54. lia.
Qed.

Lemma shr_fexp_exact (m : positive) (e : Z) :
  Z.pos (digits2_pos m) = 53 -> -1074 <= e ->
  shr_fexp Binary64.prec Binary64.emax (Z.pos m) e loc_Exact =
  ({| shr_m := Z.pos m; shr_r := false; shr_s := false |}, e).
Proof.
  intros Hd He. unfold shr_fexp, fexp, emin, Zdigits2, Binary64.prec, Binary64.emax.
  rewrite Hd.
  replace (Z.max (53 + e - 53) (3 - 1024 - 53)) with e by lia.
  rewrite Z.sub_diag. reflexivity.
Qed.

Lemma binary_round_aux_exact (m : positive) (e : Z) :
  Z.pos (digits2_pos m) = 53 -> -1074 <= e <= 971 ->
  binary_round_aux Binary64.prec Binary64.emax false (Z.pos m) e loc_Exact =
  S754_finite false m e.
Proof.
  intros Hd He. unfold binary_round_aux.
  rewrite shr_fexp_exact by (done || lia). cbn [shr_m loc_of_shr_record
    round_nearest_even].
  rewrite shr_fexp_exact by (done || lia). cbn [shr_m].
  unfold Binary64.prec, Binary64.emax.
  destruct (Z.leb_spec e (1024 - 53)); [reflexivity | lia].
Qed.

(** An [int] from 1 to [2^53 - 1] converts to a finite float that is not
    zero: no [OverflowError], and no division by zero when it divides. *)
Lemma float_of_int_count (n : Z) :
  1 <= n < 2 ^ 53 ->
  exists (m : positive) (e : Z),
    Binary64.float_of_int n = Ok (S754_finite false m e).
Proof.
  intros Hn. destruct n as [|p|p]; try lia.
  pose proof (digits2_pos_bound p ltac:(lia)) as Hd.
  assert (Hround : exists (m : positive) (e : Z),
            binary_round Binary64.prec Binary64.emax false p 0 =
            S754_finite false m e).
  { unfold binary_round, fexp, emin, Binary64.prec, Binary64.emax.
    replace (Z.max (Z.pos (digits2_pos p) + 0 - 53) (3 - 1024 - 53))
      with (Z.pos (digits2_pos p) - 53) by lia.
    unfold shl_align.
    replace (Z.pos (digits2_pos p) - 53 - 0)
      with (Z.pos (digits2_pos p) - 53) by lia.
    destruct (Z.pos (digits2_pos p) - 53) as [|q|q] eqn:Eq; [| lia |].
    - exists p, 0. apply binary_round_aux_exact; lia.
    - exists (Pos.iter xO p q), (Z.neg q).
      apply binary_round_aux_exact; [| lia].
      rewrite digits2_pos_shift. lia. }
  destruct Hround as (m & e & E). exists m, e.
  unfold Binary64.float_of_int, binary_normalize. by rewrite E.
Qed.

Lemma mean_score_returns (i : Z) (windows : list Binary64.WindowReport) :
  len windows < 2 ^ 53 ->
  exists m : Binary64.float, Binary64.mean_score i windows = Ok m.
Proof.
  intros Hlen. unfold Binary64.mean_score.
  pose proof (length_filter (fun r => Binary64.covers i r = true) windows) as Hf.
  fold (Binary64.covering i windows) in Hf.
  destruct (Binary64.covering i windows) as [|r rs]; [by eexists |].
  destruct (float_of_int_count (len (r :: rs))) as (m & e & E).
  { unfold len in *. simpl in Hf |- *. lia. }
  rewrite E, bind_Ok. unfold Binary64.py_truediv. cbn [Binary64.is_zero].
  by eexists.
Qed.


(** ** The scan on binary64: where its reports lie *)






(** ** The pipeline on binary64 *)

(** After a binary64 scan of fewer than [2^53] windows nothing raises. *)
Lemma after_scan_b64 (tokens : list string)
  (rows : list Binary64.WindowReport) (sc : Binary64.LLRScorer) :
  Forall (Binary64.report_in_range (len tokens)) rows ->
  len rows < 2 ^ 53 ->
  exists (wlabs : list string) (segs : list Segment),
    Binary64.word_level_labels tokens rows sc = Ok wlabs /\
    segments tokens wlabs = Ok segs /\
    length wlabs = length tokens.
Proof.
  intros Hrows Hlen.
  assert (Hw : exists wlabs : list string,
            Binary64.word_level_labels tokens rows sc = Ok wlabs /\
            length wlabs = length tokens).
  { rewrite word_level_labels_b64 by done. unfold Binary64.mean_labels.
    destruct (mapM_returns
                (fun i => m ← Binary64.mean_score (Z.of_nat i) rows;
                          mret (Binary64.label sc m))
                (seq 0 (length tokens))) as [ys Eys].
    { intros i _.
      destruct (mean_score_returns (Z.of_nat i) rows Hlen) as [m Em].
      rewrite Em, bind_Ok. by eexists. }
    exists ys. split; [exact Eys |].
    apply mapM_Ok in Eys as [Hl _]. by rewrite length_seq in Hl. }
  destruct Hw as (wlabs & E & Hl). exists wlabs.
  destruct tokens as [|t ts].
  - exists []. done.
  - destruct (segments_returns (t :: ts) wlabs) as (segs & Es & _); [done.. |].
    exists segs. done.
Qed.

Lemma run_analysis_b64_zero_step
  (libm_log : Binary64.float -> Binary64.float)
  (eminescu_text stanescu_text accused_text : string)
  (window : Z) (kk eps : Binary64.float) :
  2 <= len (tokenize accused_text) ->
  Binary64.run_analysis libm_log eminescu_text stanescu_text accused_text
    window 0 kk eps = Raise ValueError.
Proof.
  intros Hn. unfold Binary64.run_analysis.
  set (tokA := tokenize accused_text) in *.
  set (sc := Binary64.make_scorer _ _ _).
  set (ew := match tokA with [] => window | _ :: _ => _ end).
  assert (Hscan : Binary64.sliding_window_scores libm_log tokA sc ew 0 =
                  Raise ValueError).
  { unfold Binary64.sliding_window_scores.
    destruct (Z.ltb_spec (len tokA) 2); [lia | reflexivity]. }
  by rewrite Hscan.
Qed.

Lemma run_analysis_b64_no_windows
  (libm_log : Binary64.float -> Binary64.float)
  (eminescu_text stanescu_text accused_text : string)
  (window step : Z) (kk eps : Binary64.float) :
  step < 0 \/ len (tokenize accused_text) < 2 ->
  exists a : Binary64.Analysis,
    Binary64.run_analysis libm_log eminescu_text stanescu_text accused_text
      window step kk eps = Ok a /\
    Binary64.a_rows a = [] /\
    length (Binary64.a_wlabs a) = length (tokenize accused_text).
Proof.
  intros Hcase. unfold Binary64.run_analysis.
  set (tokA := tokenize accused_text) in *.
  set (sc := Binary64.make_scorer _ _ _).
  set (ew := match tokA with [] => window | _ :: _ => _ end).
  assert (Hscan : Binary64.sliding_window_scores libm_log tokA sc ew step =
                  Ok []).
  { unfold Binary64.sliding_window_scores.
    destruct (Z.ltb_spec (len tokA) 2) as [|Hge]; [reflexivity |].
    destruct Hcase as [Hneg|Hlt]; [| lia].
    rewrite py_range_backward_empty by lia. reflexivity. }
  destruct (after_scan_b64 tokA [] sc) as (wlabs & segs & E1 & E2 & Hl);
    [constructor | unfold len; simpl; lia |].
  rewrite Hscan, bind_Ok, E1, bind_Ok, E2, bind_Ok.
  eexists. split; [reflexivity |]. simpl. auto.
Qed.

(** C9, amended.  The pipeline does not check its configuration at the
    boundary; what a malformed configuration does is decided inside the
    computation.  [step = 0] raises [ValueError] when the accused text has
    at least two tokens, from the range of the scan; with [step < 0], or
    with fewer than two accused tokens, the pipeline returns normally with
    no window, whatever [step] and [k] are: this holds on real numbers and
    on binary64 alike, since no score is computed.  In exact arithmetic a
    configuration with [step >= 1] and [k > 0] always returns, whatever
    the window and [epsNeither], so an exception implies [step < 1] or
    [k <= 0], and the only exceptions are [ValueError] and
    [ZeroDivisionError].  On binary64 this last part fails: with
    [step = 1] and [k = 2^1023] every probability is [0.0] and the run
    raises [ZeroDivisionError]. *)
Theorem config_not_checked (eminescu_text stanescu_text accused_text : string)
  (window step : Z) (kk eps : R) :
  let run := run_analysis eminescu_text stanescu_text accused_text
               window step kk eps in
  (1 <= step -> (0 < kk)%R -> exists a : Analysis, run = Ok a) /\
  (step = 0 -> 2 <= len (tokenize accused_text) -> run = Raise ValueError) /\
  (step < 0 \/ len (tokenize accused_text) < 2 ->
     exists a : Analysis, run = Ok a /\ a_rows a = []) /\
  (forall e : PyError, run = Raise e ->
     numeric_error e /\ config_malformed step kk) /\
  (forall (libm_log : Binary64.float -> Binary64.float)
          (k64 eps64 : Binary64.float),
     let run64 := Binary64.run_analysis libm_log eminescu_text stanescu_text
                    accused_text window step k64 eps64 in
     (step = 0 -> 2 <= len (tokenize accused_text) ->
      run64 = Raise ValueError) /\
     (step < 0 \/ len (tokenize accused_text) < 2 ->
      exists a : Binary64.Analysis, run64 = Ok a /\ Binary64.a_rows a = [])) /\
  (Binary64.flt Binary64.fzero (S754_finite false 4503599627370496 971) = true /\
   forall libm_log : Binary64.float -> Binary64.float,
     Binary64.run_analysis libm_log "a a b" "b b a" "a b a b" 2 1
       (S754_finite false 4503599627370496 971)
       (S754_finite false 4503599627370496 (-54)) = Raise ZeroDivisionError).
Proof.
  intros run. unfold run.
  split; [apply run_analysis_valid |].
  split; [intros ->; apply run_analysis_zero_step |].
  split.
  { intros Hcase.
    destruct (run_analysis_no_windows eminescu_text stanescu_text accused_text
                window step kk eps Hcase) as (a & Ha & Hr & _).
    by exists a. }
  split; [intros e; apply run_analysis_raise |].
  split.
  { intros libm_log k64 eps64. split.
    - intros ->. apply run_analysis_b64_zero_step.
    - intros Hcase.
      destruct (run_analysis_b64_no_windows libm_log eminescu_text
                  stanescu_text accused_text window step k64 eps64 Hcase)
        as (a & Ha & Hr & _).
      by exists a. }
  split; [reflexivity |].
  intros libm_log. vm_compute. reflexivity.
Qed.

Lemma config_not_checked_witness :
  (1 <= 1 /\ (0 < 1)%R /\
   exists a : Analysis,
     run_analysis "a a b" "b b a" "a b a b" 2 1 1 (1 / 4) = Ok a) /\
  (2 <= len (tokenize "a b a b") /\
   run_analysis "a a b" "b b a" "a b a b" 2 0 1 (1 / 4) = Raise ValueError) /\
  (-1 < 0 /\
   exists a : Analysis,
     run_analysis "a a b" "b b a" "a b a b" 2 (-1) 1 (1 / 4) = Ok a /\
     a_rows a = []).
Proof.
  assert (H1 : 1 <= 1) by lia.
  assert (Hk : (0 < 1)%R) by lra.
  assert (Hn : 2 <= len (tokenize "a b a b")) by (vm_compute; discriminate).
  assert (Hneg : -1 < 0) by lia.
  split; [| split].
  - split; [exact H1 |]. split; [exact Hk |].
    exact (proj1 (config_not_checked "a a b" "b b a" "a b a b" 2 1 1 (1 / 4))
             H1 Hk).
  - split; [exact Hn |].
    exact (proj1 (proj2 (config_not_checked "a a b" "b b a" "a b a b" 2 0 1
                           (1 / 4))) eq_refl Hn).
  - split; [exact Hneg |].
    exact (proj1 (proj2 (proj2 (config_not_checked "a a b" "b b a" "a b a b" 2
                                  (-1) 1 (1 / 4)))) (or_introl Hneg)).
Defined.
